(** * Eidolon [Concurrency.py]: the multi-process task engine

    A shallow embedding of [src/eidolon/Concurrency.py] and the properties
    its specification states about it.

    Definitions:
    - Python data: values, exception objects, results and outcomes;
    - the helpers imported from [Utils] (their source is not part of the
      module; they are modelled from the specification);
    - [ProcessServer.prepareArgs] and the range partitioning;
    - the reducers [checkResultMap], [sumResultMap], [listResults];
    - [MethodProxy.__call__];
    - [ObjectSharer] and [AlgorithmProcess]: [shareObject], [getObjects],
      [sync] and [run], cut into the atomic actions a process performs on the
      state it shares with the others;
    - [ProcessServer.run]: the start of the processes, one turn of the
      dispatch loop, the polling loop;
    - the pool as a transition system: a schedule lists which process, or
      the dispatch loop, acts next, and every interleaving is a schedule.

    Properties, in the same order, then those of the barrier: the failure of
    a process, the counter, and object sharing. *)

From stdpp Require Import base numbers list gmap strings sorting.
From Stdlib Require Import ZArith Lia.
Local Open Scope Z_scope.

(** ** Python data *)

(** The argument values a job carries.  Sequences are the only values
    [prepareArgs] looks into; [PyList] and [PyTuple] differ as in Python
    ([[1] == (1,)] is false). *)
#[warnings="-register-all"]
Inductive pyval :=
| PyNone
| PyInt (z : Z)
| PyStr (s : string)
| PyList (l : list pyval)
| PyTuple (l : list pyval).

Definition pyval_eq_dec : ∀ a b : pyval, {a = b} + {a ≠ b}.
Proof.
  fix IH 1. decide equality;
    first [apply Z.eq_dec | apply String.string_dec | apply List.list_eq_dec, IH].
Defined.

#[global] Instance pyval_eqdec : EqDecision pyval := pyval_eq_dec.

(** An instance of [Exception]: its class name and its message. *)
Record exn := Exn { exc_class : string; exc_msg : string }.

#[global] Instance exn_eqdec : EqDecision exn.
Proof. solve_decision. Defined.

(** A Python object that is either an instance of [Exception] ([Exc]) or
    not ([Val]): what [isinstance(x,Exception)] tells apart.  Pipes and result
    maps carry such objects. *)
Inductive pyres (A : Type) :=
| Val (a : A)
| Exc (e : exn).
Arguments Val {A} a.
Arguments Exc {A} e.

Definition isException {A} (r : pyres A) : bool :=
  match r with Exc _ => true | Val _ => false end.

(** How a call ends: it returns a value or raises an instance of
    [Exception], the only exceptions the handlers of the module catch. *)
Inductive outcome (A : Type) :=
| Returns (a : A)
| Raises (e : exn).
Arguments Returns {A} a.
Arguments Raises {A} e.

(** The object an [except Exception as e] handler of the module stores for
    an outcome: the value itself, or the exception object. *)
Definition as_result {A} (o : outcome A) : pyres A :=
  match o with Returns a => Val a | Raises e => Exc e end.

(** ** Helpers imported from [Utils] *)

(** Modelled from the spec: [Utils.partitionSequence], whose source is not in
    the module.  "For [k] workers and range size [N], worker [i] gets
    [[floor(i·N/k), floor((i+1)·N/k))]".  [Z.div] rounds towards minus
    infinity, as [floor] does. *)
Definition partitionSequence (maxval part numparts : Z) : Z * Z :=
  (part * maxval / numparts, (part + 1) * maxval / numparts).

(** Modelled from the spec: [Utils.listSum], whose source is not in the
    module: "concatenate per-worker list results". *)
Definition listSum {A} (lists : list (list A)) : list A := concat lists.

(** ** Range partitioning *)

(** [x] lies in the half-open range [r = (start, end)]. *)
Definition in_part (x : Z) (r : Z * Z) : Prop := r.1 ≤ x < r.2.

Definition part_len (r : Z * Z) : Z := r.2 - r.1.

(** The sub-ranges [ProcessServer.run] computes in its loop
    [for i in range(numprocs): start,end=partitionSequence(valrange,i,numprocs)]. *)
Definition job_ranges (valrange numprocs : Z) : list (Z * Z) :=
  (λ i, partitionSequence valrange i numprocs) <$> seqZ 0 numprocs.

(** ** [ProcessServer.prepareArgs] *)

(** A small error monad for code that may raise. *)
Definition obind {A B} (o : outcome A) (f : A → outcome B) : outcome B :=
  match o with Returns a => f a | Raises e => Raises e end.

Notation "x ← o ;;; k" := (obind o (λ x, k))
  (at level 20, o at level 100, k at level 200, right associativity,
   format "x  ←  o  ;;;  '/' k").

(** [len(a)]: defined on sequences, a [TypeError] on the other values. *)
Definition py_len (a : pyval) : outcome Z :=
  match a with
  | PyList l | PyTuple l => Returns (Z.of_nat (length l))
  | PyStr s => Returns (Z.of_nat (String.length s))
  | _ => Raises (Exn "TypeError" "object has no len()")
  end.

Definition is_seq (a : pyval) : bool :=
  match a with PyList _ | PyTuple _ | PyStr _ => true | _ => false end.

(** A slice bound of Python: a negative bound counts from the end, and the
    result is clipped to [[0, len]]. *)
Definition slice_bound (len i : Z) : Z :=
  Z.max 0 (Z.min len (if i <? 0 then i + len else i)).

(** [l[s:e]] on a list. *)
Definition slice_list {A} (l : list A) (s e : Z) : list A :=
  let n := Z.of_nat (length l) in
  let s' := slice_bound n s in
  let e' := slice_bound n e in
  take (Z.to_nat (e' - s')) (drop (Z.to_nat s') l).

(** [a[s:e]] on a value; only sequences can be sliced. *)
Definition py_slice (a : pyval) (s e : Z) : outcome pyval :=
  match a with
  | PyList l => Returns (PyList (slice_list l s e))
  | PyTuple l => Returns (PyTuple (slice_list l s e))
  | PyStr str =>
      let n := Z.of_nat (String.length str) in
      let s' := slice_bound n s in
      let e' := slice_bound n e in
      Returns (PyStr (String.substring (Z.to_nat s') (Z.to_nat (e' - s')) str))
  | _ => Raises (Exn "TypeError" "object is not subscriptable")
  end.

(** The body of the loop of [prepareArgs] for one argument [a]:
    [if a in partArgs: astart,aend=partitionSequence(len(a),index,numprocs);
    pargs.append(a[astart:aend]) else: pargs.append(a)].  Membership in
    [partArgs] is Python's [in], that is, equality of values. *)
Definition prepareArg (index numprocs : Z) (partArgs : list pyval)
    (a : pyval) : outcome pyval :=
  if bool_decide (a ∈ partArgs) then
    n ← py_len a ;;;
    let '(astart, aend) := partitionSequence n index numprocs in
    py_slice a astart aend
  else Returns a.

(** [prepareArgs(index,numprocs,args,partArgs)]: the loop over [args],
    [pargs] being the list built so far. *)
Fixpoint prepareArgs_loop (index numprocs : Z) (partArgs : list pyval)
    (args pargs : list pyval) : outcome (list pyval) :=
  match args with
  | [] => Returns pargs
  | a :: args' =>
      p ← prepareArg index numprocs partArgs a ;;;
      prepareArgs_loop index numprocs partArgs args' (pargs ++ [p])
  end.

Definition prepareArgs (index numprocs : Z) (args partArgs : list pyval)
  : outcome (list pyval) :=
  prepareArgs_loop index numprocs partArgs args [].

(** What worker [i] is sent for argument [a] according to the
    specification's words: the slice of a flagged [a] over the worker's
    sub-range of [[0,N)], [N] the range size of the job. *)
Definition spec_arg (N k i : Z) (partArgs : list pyval) (a : pyval)
  : outcome pyval :=
  if bool_decide (a ∈ partArgs) then
    let '(start, end_) := partitionSequence N i k in py_slice a start end_
  else Returns a.

(** What the code sends: the slice of a flagged [a] over the [i]-th share of
    [a]'s own length. *)
Definition own_slice (k i : Z) (a : pyval) : outcome pyval :=
  n ← py_len a ;;;
  py_slice a (partitionSequence n i k).1 (partitionSequence n i k).2.

(** ** The reducers over a result map *)

(** [sorted(result)]: the keys of the dict in ascending order. *)
Definition sorted_keys {A} (result : gmap Z A) : list Z :=
  merge_sort Z.le (elements (dom result)).

(** [[result[i] for i in sorted(result)]]. *)
Definition listResults {A} (result : gmap Z A) : list A :=
  omap (λ i, result !! i) (sorted_keys result).

(** [listSum(result[i] for i in sorted(result))]. *)
Definition sumResultMap {A} (result : gmap Z (list A)) : list A :=
  listSum (listResults result).

(** The loop of [checkResultMap] over the keys still to visit:
    [if isinstance(result[i],Exception): raise result[i]]. *)
Fixpoint checkResultMap_loop {A} (result : gmap Z (pyres A))
    (keys : list Z) : outcome unit :=
  match keys with
  | [] => Returns ()
  | i :: keys' =>
      match result !! i with
      | Some (Exc e) => Raises e
      | _ => checkResultMap_loop result keys'
      end
  end.

Definition checkResultMap {A} (result : gmap Z (pyres A)) : outcome unit :=
  checkResultMap_loop result (sorted_keys result).

(** [l] lists the values of [m] by ascending key: there is a strictly
    increasing enumeration of the keys to which [l] corresponds entry by
    entry. *)
Definition in_index_order {A} (m : gmap Z A) (l : list A) : Prop :=
  ∃ keys, StronglySorted Z.lt keys ∧
          (∀ i, i ∈ keys ↔ is_Some (m !! i)) ∧
          Forall2 (λ i v, m !! i = Some v) keys l.

(** ** [MethodProxy] *)

(** The message of a proxied call: [(self.name,args,kwargs)]. *)
Record call_msg := CallMsg {
  msg_name : string;
  msg_args : list pyval;
  msg_kwargs : gmap string pyval }.

(** A [MethodProxy]: the method name, the objects written to its [send]
    connection so far, and its [recv] connection as one call sees it: the
    response, if one ever comes, with the time in milliseconds after which it
    can be read. *)
Record MethodProxy (A : Type) := {
  mp_name : string;
  mp_send : list call_msg;
  mp_recv : option (Z * pyres A) }.
Arguments mp_name {A} _.
Arguments mp_send {A} _.
Arguments mp_recv {A} _.

(** [conn.poll(timeout)], [timeout] in seconds: whether an object can be
    read from the connection within the timeout. *)
Definition poll {A} (timeout : Z) (conn : option (Z * A)) : bool :=
  match conn with
  | Some (t, _) => bool_decide (t ≤ 1000 * timeout)
  | None => false
  end.

(** [MethodProxy.__call__(self,*args,**kwargs)]. *)
Definition MethodProxy_call {A} (self : MethodProxy A)
    (args : list pyval) (kwargs : gmap string pyval)
  : MethodProxy A * outcome A :=
  let sent := mp_send self ++ [CallMsg (mp_name self) args kwargs] in
  let no_result :=
    Raises (Exn "IOError"
              ("Did not get result back for method call " +:+ mp_name self)) in
  if poll 10 (mp_recv self) then
    let self' := {| mp_name := mp_name self; mp_send := sent;
                    mp_recv := None |} in
    match mp_recv self with
    | Some (_, Exc e) => (self', Raises e)
    | Some (_, Val v) => (self', Returns v)
    | None => (self', no_result)
    end
  else
    ({| mp_name := mp_name self; mp_send := sent; mp_recv := mp_recv self |},
     no_result).

(** ** [ObjectSharer] *)

(** [ObjectSharer.shareObject(index,name,obj)] on the [objmap]. *)
Definition ObjectSharer_shareObject (index : Z) (name : string) (obj : pyval)
    (objmap : gmap (Z * string) pyval) : gmap (Z * string) pyval :=
  <[(index, name) := obj]> objmap.

(** [ObjectSharer.getObjects(name,excludeIndex)]: the dict built from the
    items [((i,n),o)] of the [objmap] with [n==name and i!=excludeIndex]. *)
Definition ObjectSharer_getObjects (name : string) (excludeIndex : Z)
    (objmap : gmap (Z * string) pyval) : gmap Z pyval :=
  map_fold (λ '(i, n) o d,
              if bool_decide (n = name ∧ i ≠ excludeIndex)
              then <[i := o]> d else d)
           ∅ objmap.

(** [ObjectSharer.clear()]. *)
Definition ObjectSharer_clear (objmap : gmap (Z * string) pyval)
  : gmap (Z * string) pyval := ∅.

(** ** [AlgorithmProcess] *)

(** The two [Event] objects the server creates and hands to every process:
    [ProcessServer.syncEvent] and [ProcessServer.syncEvent2]. *)
Inductive Event := Event1 | Event2.

#[global] Instance Event_eqdec : EqDecision Event.
Proof. solve_decision. Defined.

(** The fields of an [AlgorithmProcess] the methods below read.  [syncEvent]
    and [syncEvent2] name the event the process currently waits on and the
    other one ([None] for the local process); [sharer] tells whether a sharer
    proxy is present. *)
Record AlgorithmProcess := {
  index : Z;
  total : Z;
  syncEvent : option Event;
  syncEvent2 : option Event;
  sharer : bool;
  startval : Z;
  endval : Z;
  maxval : Z }.

(** The state the processes of a pool share: the value of [syncCounter],
    whether each of the two events is set, the [objmap] of the server's
    [ObjectSharer] (reached through the proxies), and what
    [_continueRunning()] answers (the stop event is not set and the parent
    process exists). *)
Record Shared := {
  syncCounter : Z;
  event1 : bool;
  event2 : bool;
  objmap : gmap (Z * string) pyval;
  continueRunning : bool }.

Definition is_set (ev : Event) (s : Shared) : bool :=
  match ev with Event1 => event1 s | Event2 => event2 s end.

Definition set_event (ev : Event) (b : bool) (s : Shared) : Shared :=
  match ev with
  | Event1 => {| syncCounter := syncCounter s; event1 := b;
                 event2 := event2 s; objmap := objmap s;
                 continueRunning := continueRunning s |}
  | Event2 => {| syncCounter := syncCounter s; event1 := event1 s;
                 event2 := b; objmap := objmap s;
                 continueRunning := continueRunning s |}
  end.

Definition set_counter (v : Z) (s : Shared) : Shared :=
  {| syncCounter := v; event1 := event1 s; event2 := event2 s;
     objmap := objmap s; continueRunning := continueRunning s |}.

Definition set_objmap (m : gmap (Z * string) pyval) (s : Shared) : Shared :=
  {| syncCounter := syncCounter s; event1 := event1 s; event2 := event2 s;
     objmap := m; continueRunning := continueRunning s |}.

(** What [shareObject] returns: [None] or a dict. *)
Inductive share_ret :=
| ShareNone
| ShareDict (d : gmap Z pyval).

(** A target routine as the process sees it: the routine returns or raises,
    or reaches one of the three places where a process acts on the shared
    state, and goes on from there: the body of [sync()] behind its [None]
    test, and the two calls to the sharer.  An exception raised by the body
    of [sync()] leaves the routine.  A call to the sharer goes through the
    proxy of the process to the thread of [ObjectServer.runProxy], which runs
    it under the lock of the object: it is one action on the [objmap], the
    thread answering within the bound of the proxy. *)
Inductive prog (R : Type) :=
| Ret (v : R)
| Throw (e : exn)
| Barrier (k : prog R)
| Publish (index : Z) (name : string) (obj : pyval) (k : prog R)
| Lookup (name : string) (excludeIndex : Z) (k : gmap Z pyval → prog R).
Arguments Ret {R} v.
Arguments Throw {R} e.
Arguments Barrier {R} k.
Arguments Publish {R} index name obj k.
Arguments Lookup {R} name excludeIndex k.

(** [self.sync()], followed by [k]. *)
Definition sync {R} (self : AlgorithmProcess) (k : prog R) : prog R :=
  match syncEvent self with
  | Some _ => Barrier k
  | None => k
  end.

(** [self.getObjects(name)], its value passed to [k]. *)
Definition getObjects {R} (self : AlgorithmProcess) (name : string)
    (k : gmap Z pyval → prog R) : prog R :=
  if sharer self then Lookup name (index self) k else k ∅.

(** [self.shareObject(name,obj,doExchange)], its value passed to [k]. *)
Definition shareObject {R} (self : AlgorithmProcess) (name : string)
    (obj : pyval) (doExchange : bool) (k : share_ret → prog R) : prog R :=
  if bool_decide (total self = 1) || negb (sharer self) then k (ShareDict ∅)
  else
    Publish (index self) name obj
      (if doExchange
       then sync self (getObjects self name (λ d, k (ShareDict d)))
       else k ShareNone).

(** The block of [sync()] under [with self.syncLock:], for a process of
    [total] processes whose current event is [ev]: the new shared state and
    the value of [dowait]. *)
Definition sync_locked (total : Z) (ev : Event) (s : Shared) : Shared * bool :=
  if bool_decide (syncCounter s < 0) then (s, false)
  else
    let s1 := if bool_decide (syncCounter s = 0)
              then set_event ev false s else s in
    let s2 := set_counter (syncCounter s1 + 1) s1 in
    if bool_decide (syncCounter s2 < total) then (s2, true)
    else (set_counter 0 (set_event ev true s2), false).

(** The body of the wait loop:
    [dowait=not self.syncEvent.wait(0.01) and self.syncCounter.value>=0]. *)
Definition sync_wait (ev : Event) (s : Shared) : bool :=
  negb (is_set ev s) && bool_decide (0 ≤ syncCounter s).

(** [self.syncEvent2,self.syncEvent=self.syncEvent,self.syncEvent2]. *)
Definition swap_events (self : AlgorithmProcess) : AlgorithmProcess :=
  {| index := index self; total := total self;
     syncEvent := syncEvent2 self; syncEvent2 := syncEvent self;
     sharer := sharer self; startval := startval self;
     endval := endval self; maxval := maxval self |}.

Definition sibling_exception : exn :=
  Exn "Exception" "Sibling process encountered exception".

Definition parent_exception : exn :=
  Exn "Exception" "Parent exited before child completed processing".

(** The two tests that end [sync()]: the exception it raises, if any. *)
Definition sync_check (s : Shared) : option exn :=
  if bool_decide (syncCounter s < 0) then Some sibling_exception
  else if negb (continueRunning s) then Some parent_exception
  else None.

(** What the interpreter raises when a method is called on [None]. *)
Definition none_error : exn :=
  Exn "AttributeError" "'NoneType' object has no such attribute".

(** The job tuple sent down a process's pipe:
    [(target,args,kwargs,start,end,valrange,numprocs)]. *)
Record JobMsg (R : Type) := {
  job_target : AlgorithmProcess → list pyval → gmap string pyval → prog R;
  job_args : list pyval;
  job_kwargs : gmap string pyval;
  job_start : Z;
  job_end : Z;
  job_maxval : Z;
  job_total : Z }.
Arguments job_target {R} _.
Arguments job_args {R} _.
Arguments job_kwargs {R} _.
Arguments job_start {R} _.
Arguments job_end {R} _.
Arguments job_maxval {R} _.
Arguments job_total {R} _.

(** Where a process stands in [run()] and, inside the target, in [sync()]. *)
Inductive wstate (R : Type) :=
| WIdle                  (* in the loop of [run()], polling [self.recv] *)
| WRun (c : prog R)      (* in the target, [c] still to run *)
| WSyncWait (k : prog R) (* in [sync()], in the wait loop, [dowait] true *)
| WSyncLeave (k : prog R)(* in [sync()], past the loop, before the swap *)
| WFlag.                 (* in the handler of [run()], the exception sent,
                            before [syncCounter] is written *)
Arguments WIdle {R}.
Arguments WRun {R} c.
Arguments WSyncWait {R} k.
Arguments WSyncLeave {R} k.
Arguments WFlag {R}.

(** A process of the pool: its fields, where it stands, the job tuples
    waiting in its [recv] connection and the objects waiting in its result
    pipe ([rsend] to [rrecv]). *)
Record Worker (R : Type) := {
  proc : AlgorithmProcess;
  st : wstate R;
  inbox : list (JobMsg R);
  rsend : list (pyres R) }.
Arguments proc {R} _.
Arguments st {R} _.
Arguments inbox {R} _.
Arguments rsend {R} _.

(** The unpacking of a job tuple in [run()]:
    [target,args,kwargs,self.startval,self.endval,self.maxval,self.total=...]. *)
Definition unpack {R} (self : AlgorithmProcess) (m : JobMsg R)
  : AlgorithmProcess :=
  {| index := index self; total := job_total m;
     syncEvent := syncEvent self; syncEvent2 := syncEvent2 self;
     sharer := sharer self; startval := job_start m;
     endval := job_end m; maxval := job_maxval m |}.

(** The process [w] with new fields and a new place in the code. *)
Definition set_st {R} (w : Worker R) (self : AlgorithmProcess)
    (st' : wstate R) : Worker R :=
  {| proc := self; st := st'; inbox := inbox w; rsend := rsend w |}.

(** [self.rsend.send(r)]. *)
Definition send_result {R} (w : Worker R) (r : pyres R) (st' : wstate R)
  : Worker R :=
  {| proc := proc w; st := st'; inbox := inbox w; rsend := rsend w ++ [r] |}.

(** One atomic action of a process on the shared state [s], or [None] when
    the process has nothing to do: it is idle without a job, has left its
    loop, or stays in the wait loop of [sync()]. *)
Definition wstep {R} (s : Shared) (w : Worker R)
  : option (Shared * Worker R) :=
  let self := proc w in
  match st w with
  | WIdle =>
      if continueRunning s then
        match inbox w with
        | m :: rest =>
            let self' := unpack self m in
            Some (s, {| proc := self';
                        st := WRun (job_target m self' (job_args m)
                                                      (job_kwargs m));
                        inbox := rest; rsend := rsend w |})
        | [] => None
        end
      else None
  | WRun (Ret v) => Some (s, send_result w (Val v) WIdle)
  | WRun (Throw e) => Some (s, send_result w (Exc e) WFlag)
  | WFlag => Some (set_counter (- total self - 1) s, set_st w self WIdle)
  | WRun (Publish i n o k) =>
      Some (set_objmap (ObjectSharer_shareObject i n o (objmap s)) s,
            set_st w self (WRun k))
  | WRun (Lookup n x k) =>
      Some (s, set_st w self
                 (WRun (k (ObjectSharer_getObjects n x (objmap s)))))
  | WRun (Barrier k) =>
      match syncEvent self with
      | Some ev =>
          let '(s', dowait) := sync_locked (total self) ev s in
          Some (s', set_st w self
                      (if dowait then WSyncWait k else WSyncLeave k))
      | None => Some (s, set_st w self (WRun (Throw none_error)))
      end
  | WSyncWait k =>
      match syncEvent self with
      | Some ev =>
          if negb (continueRunning s) then Some (s, set_st w self (WSyncLeave k))
          else if sync_wait ev s then None
          else Some (s, set_st w self (WSyncLeave k))
      | None => None
      end
  | WSyncLeave k =>
      Some (s, set_st w (swap_events self)
                 (WRun (match sync_check s with
                        | Some e => Throw e
                        | None => k
                        end)))
  end.

(** ** [ProcessServer] *)

(** A job taken from the queue.  [kwargs] is the dict after
    [kwargs.pop('partitionArgs',())], and [partitionArgs] holds the members
    of the popped tuple. *)
Record Job (R : Type) := {
  valrange : Z;
  numprocs : Z;
  target : AlgorithmProcess → list pyval → gmap string pyval → prog R;
  args : list pyval;
  kwargs : gmap string pyval;
  partitionArgs : list pyval }.
Arguments valrange {R} _.
Arguments numprocs {R} _.
Arguments target {R} _.
Arguments args {R} _.
Arguments kwargs {R} _.
Arguments partitionArgs {R} _.

(** Modelled from the spec: the [with result:] block of [Utils.Future],
    whose source is not in the module: "a writer block that guarantees the
    slot transitions to set exactly once even if the writer body raises, by
    catching and storing the exception as the result".  A Future is given
    the dict of the results ([ResultMap]) by [setObject], or the exception
    that left the block ([BlockError]). *)
Inductive future_obj (R : Type) :=
| ResultMap (m : gmap Z (pyres R))
| BlockError (e : exn).
Arguments ResultMap {R} m.
Arguments BlockError {R} e.

(** The dispatch loop is between two jobs, or polls the result pipes of the
    first [numprocs] processes. *)
Inductive dstate :=
| DIdle
| DPolling (numprocs : Z).

(** The server: [realnumprocs] (the value [Utils.clamp] gave, at least 1),
    the shared state, the processes [self.procs], where the dispatch loop
    stands, and the objects the Futures of the jobs were set to so far, in
    order.  The progress array and the [task] of a job are left out: the
    dispatch loop writes to them and reads nothing back that decides what it
    sends or stores. *)
Record Server (R : Type) := {
  realnumprocs : Z;
  shared : Shared;
  procs : list (Worker R);
  disp : dstate;
  resolved : list (future_obj R) }.
Arguments realnumprocs {R} _.
Arguments shared {R} _.
Arguments procs {R} _.
Arguments disp {R} _.
Arguments resolved {R} _.

(** [AlgorithmProcess(i,self.realnumprocs,self.syncEvent,self.syncEvent2,
    self.syncCounter,self.syncLock,psharer,self.progress,self.stopEvent,
    os.getpid())], started. *)
Definition new_process {R} (realnumprocs i : Z) : Worker R :=
  {| proc := {| index := i; total := realnumprocs;
                syncEvent := Some Event1; syncEvent2 := Some Event2;
                sharer := true; startval := 0; endval := 0; maxval := 0 |};
     st := WIdle; inbox := []; rsend := [] |}.

(** The server once [run()] has started the processes: none when
    [realnumprocs] is 1. *)
Definition start_server {R} (realnumprocs : Z) : Server R :=
  {| realnumprocs := realnumprocs;
     shared := {| syncCounter := 0; event1 := false; event2 := false;
                  objmap := ∅; continueRunning := true |};
     procs := if bool_decide (1 < realnumprocs)
              then new_process realnumprocs <$> seqZ 0 realnumprocs
              else [];
     disp := DIdle;
     resolved := [] |}.

(** [min(valrange,self.realnumprocs if numprocs<=0 or
    numprocs>self.realnumprocs else numprocs)]. *)
Definition resolve_numprocs (realnumprocs valrange numprocs : Z) : Z :=
  Z.min valrange
        (if bool_decide (numprocs ≤ 0 ∨ realnumprocs < numprocs)
         then realnumprocs else numprocs).

(** [AlgorithmProcess(0,1,None,None,None,None,None,task,None,0)] with
    [endval] and [maxval] set to [valrange]. *)
Definition localproc (valrange : Z) : AlgorithmProcess :=
  {| index := 0; total := 1; syncEvent := None; syncEvent2 := None;
     sharer := false; startval := 0; endval := valrange;
     maxval := valrange |}.

(** The target run to its end in the calling context.  A routine that
    reached the lock or the sharer there would call a method on [None]. *)
Definition eval_local {R} (c : prog R) : outcome R :=
  match c with
  | Ret v => Returns v
  | Throw e => Raises e
  | Barrier _ | Publish _ _ _ _ | Lookup _ _ _ => Raises none_error
  end.

(** The local branch of [run()]: the object the Future is set to. *)
Definition run_local {R} (j : Job R) : gmap Z (pyres R) :=
  {[ 0 := as_result (eval_local (target j (localproc (valrange j))
                                          (args j) (kwargs j))) ]}.

Definition index_error : exn := Exn "IndexError" "list index out of range".

(** [conn.send(m)] on the pipe of a process. *)
Definition send_to {R} (m : JobMsg R) (w : Worker R) : Worker R :=
  {| proc := proc w; st := st w; inbox := inbox w ++ [m]; rsend := rsend w |}.

(** The loop [for i in range(numprocs)] that sends the job: the processes
    afterwards, and the exception that ended the loop, if any. *)
Fixpoint send_jobs {R} (j : Job R) (numprocs : Z) (indices : list Z)
    (procs : list (Worker R)) : list (Worker R) * option exn :=
  match indices with
  | [] => (procs, None)
  | i :: rest =>
      let '(start, end_) := partitionSequence (valrange j) i numprocs in
      match prepareArgs i numprocs (args j) (partitionArgs j) with
      | Raises e => (procs, Some e)
      | Returns pargs =>
          match procs !! Z.to_nat i with
          | None => (procs, Some index_error)
          | Some w =>
              let m := {| job_target := target j; job_args := pargs;
                          job_kwargs := kwargs j; job_start := start;
                          job_end := end_; job_maxval := valrange j;
                          job_total := numprocs |} in
              send_jobs j numprocs rest (<[Z.to_nat i := send_to m w]> procs)
          end
      end
  end.

Definition set_server {R} (sv : Server R) (s : Shared)
    (ps : list (Worker R)) (d : dstate) (fs : list (future_obj R))
  : Server R :=
  {| realnumprocs := realnumprocs sv; shared := s; procs := ps; disp := d;
     resolved := fs |}.

(** One turn of the dispatch loop for the job [j], up to the polling loop. *)
Definition submit {R} (j : Job R) (sv : Server R) : Server R :=
  let numprocs := resolve_numprocs (realnumprocs sv) (valrange j) (numprocs j) in
  let s1 := set_objmap (ObjectSharer_clear (objmap (shared sv))) (shared sv) in
  if bool_decide (numprocs = 1) || bool_decide (length (procs sv) = 0%nat)
  then
    set_server sv s1 (procs sv) DIdle
               (resolved sv ++ [ResultMap (run_local j)])
  else
    let s2 := set_counter 0 s1 in
    match send_jobs j numprocs (seqZ 0 numprocs) (procs sv) with
    | (ps, Some e) => set_server sv s2 ps DIdle (resolved sv ++ [BlockError e])
    | (ps, None) => set_server sv s2 ps (DPolling numprocs) (resolved sv)
    end.

(** [dict(pairs)]: a later pair overrides an earlier one with its key. *)
Definition py_dict {A} (pairs : list (Z * A)) : gmap Z A :=
  foldl (λ d p, <[p.1 := p.2]> d) ∅ pairs.

(** [any(not p.rrecv.poll(0.01) for p in ps)]. *)
Definition any_not_ready {R} (ps : list (Worker R)) : bool :=
  existsb (λ w, match rsend w with [] => true | _ => false end) ps.

(** [p.rrecv.recv()] on a pipe that holds an object. *)
Definition recv_result {R} (w : Worker R) : option (pyres R * Worker R) :=
  match rsend w with
  | r :: rest =>
      Some (r, {| proc := proc w; st := st w; inbox := inbox w;
                  rsend := rest |})
  | [] => None
  end.

(** The end of the polling loop once every pipe of [self.procs[:numprocs]]
    holds an object: the objects are received and the Future is set to the
    dict of them by process index.  [None] while some pipe is still empty. *)
Definition collect {R} (numprocs : Z) (sv : Server R) : option (Server R) :=
  let used := slice_list (procs sv) 0 numprocs in
  if any_not_ready used then None
  else
    let got := omap recv_result used in
    Some (set_server sv (shared sv)
            ((snd <$> got) ++ drop (length used) (procs sv))
            DIdle
            (resolved sv ++
               [ResultMap (py_dict ((λ '(r, w), (index (proc w), r)) <$> got))])).

(** The handler of the polling loop, for an exception [e] raised there:
    [result.setObject(dict((p.index,e) for p in self.procs[:numprocs]))]. *)
Definition poll_raises {R} (numprocs : Z) (e : exn) (sv : Server R)
  : Server R :=
  let used := slice_list (procs sv) 0 numprocs in
  set_server sv (shared sv) (procs sv) DIdle
    (resolved sv ++
       [ResultMap (py_dict ((λ w, (index (proc w), Exc e)) <$> used))]).

(** ** The pool as a transition system *)

(** What can happen next: the dispatch loop takes a job from the queue, a
    process performs its next atomic action, the polling loop ends with every
    result present, or an operation of the polling loop raises. *)
Inductive action (R : Type) :=
| Submit (j : Job R)
| Work (i : nat)
| Collect
| PollRaises (e : exn).
Arguments Submit {R} j.
Arguments Work {R} i.
Arguments Collect {R}.
Arguments PollRaises {R} e.

(** The action [a] taken in [sv]; [None] when it is not possible there. *)
Definition system_step {R} (a : action R) (sv : Server R)
  : option (Server R) :=
  match a, disp sv with
  | Submit j, DIdle => Some (submit j sv)
  | Work i, _ =>
      w ← procs sv !! i;
      '(s', w') ← wstep (shared sv) w;
      Some (set_server sv s' (<[i := w']> (procs sv)) (disp sv) (resolved sv))
  | Collect, DPolling n => collect n sv
  | PollRaises e, DPolling n => Some (poll_raises n e sv)
  | _, _ => None
  end.

(** A schedule, action after action. *)
Fixpoint run_schedule {R} (sched : list (action R)) (sv : Server R)
  : option (Server R) :=
  match sched with
  | [] => Some sv
  | a :: rest => sv' ← system_step a sv; run_schedule rest sv'
  end.

(** ** Routines of the unit tests *)

(** A routine that shares the index of its process under [name] and
    returns what [shareObject] gave it. *)
Definition share_own_index (name : string) (process : AlgorithmProcess)
    (args : list pyval) (kwargs : gmap string pyval) : prog share_ret :=
  shareObject process name (PyInt (index process)) true (λ r, Ret r).

(** [concurrencyTestShareObjects], returning what [shareObject] gave it
    (the routine of the module prints that value). *)
Definition concurrencyTestShareObjects
  : AlgorithmProcess → list pyval → gmap string pyval → prog share_ret :=
  share_own_index "index".

(** [{idx: idx for idx in 0..k-1 if idx != self}]. *)
Definition others (k self : Z) : gmap Z pyval :=
  list_to_map ((λ idx, (idx, PyInt idx))
                 <$> filter (λ idx, idx ≠ self) (seqZ 0 k)).

(** A routine that calls [process.sync()] once. *)
Definition sync_once (process : AlgorithmProcess)
    (args : list pyval) (kwargs : gmap string pyval) : prog share_ret :=
  sync process (Ret ShareNone).

(** [concurrencyTestProcessValues]: the index, the start and the end of the
    range of the process (the process id it also returns is left out). *)
Definition concurrencyTestProcessValues (process : AlgorithmProcess)
    (args : list pyval) (kwargs : gmap string pyval) : prog pyval :=
  Ret (PyTuple [PyInt (index process); PyInt (startval process);
                PyInt (endval process)]).

(** ** Predicates on the states of the pool *)

(** The process at position [i] of [self.procs] has index [i], as
    [run()] creates them. *)
Definition pool_wf {R} (sv : Server R) : Prop :=
  ∀ (i : nat) w, procs sv !! i = Some w → index (proc w) = Z.of_nat i.


(** The object at the head of the result pipe of the process at position
    [i]. *)
Definition pipe_head {R} (sv : Server R) (i : nat) : option (pyres R) :=
  w ← procs sv !! i; head (rsend w).

(** A routine whose target raises [e] at once. *)
Definition raise_at_once (e : exn) (process : AlgorithmProcess)
    (args : list pyval) (kwargs : gmap string pyval) : prog share_ret :=
  Throw e.

(** ** Counting along a schedule *)

Definition is_work {R} (a : action R) : bool :=
  match a with Work _ => true | _ => false end.

(** The process that acts in [a]. *)
Definition acting {R} (a : action R) (sv : Server R) : option (Worker R) :=
  match a with Work i => procs sv !! i | _ => None end.

(** The process is about to run the locked block of [sync()]. *)
Definition at_barrier {R} (w : Worker R) : bool :=
  match st w, syncEvent (proc w) with
  | WRun (Barrier _), Some _ => true
  | _, _ => false
  end.

(** The process is about to write [syncCounter] in the handler of [run()]. *)
Definition at_flag {R} (w : Worker R) : bool :=
  match st w with WFlag => true | _ => false end.

(** The number of actions of the schedule taken by a process that
    satisfies [P] when it acts. *)
Fixpoint count_steps {R} (P : Worker R → bool) (sched : list (action R))
    (sv : Server R) : nat :=
  match sched with
  | [] => 0
  | a :: rest =>
      match system_step a sv with
      | Some sv' =>
          ((if from_option P false (acting a sv) then 1 else 0)
           + count_steps P rest sv')%nat
      | None => 0%nat
      end
  end.

(** The arrivals at the barrier, and the failures flagged, along a
    schedule. *)
Definition arrivals {R} := count_steps (R := R) at_barrier.
Definition failures {R} := count_steps (R := R) at_flag.

(** Every process is idle and has no job waiting. *)
Definition quiescent {R} (sv : Server R) : Prop :=
  Forall (λ w, st w = WIdle ∧ inbox w = []) (procs sv).

(** A process at work works on a job over [k] processes, and so will one
    that has a job waiting. *)
Definition on_job {R} (k : Z) (w : Worker R) : Prop :=
  (st w = WIdle ∨ total (proc w) = k) ∧
  Forall (λ m, job_total m = k) (inbox w).

Definition job_inv {R} (k : Z) (sv : Server R) : Prop :=
  Forall (on_job k) (procs sv).

(** A process has no negative total, now or in a job waiting. *)
Definition total_ok {R} (w : Worker R) : Prop :=
  0 ≤ total (proc w) ∧ Forall (λ m, 0 ≤ job_total m) (inbox w).

Definition totals_ok {R} (sv : Server R) : Prop :=
  Forall total_ok (procs sv).

(** A routine that raises [e] in process 0 and calls [process.sync()] in
    the others. *)
Definition fail_or_sync (e : exn) (process : AlgorithmProcess)
    (args : list pyval) (kwargs : gmap string pyval) : prog share_ret :=
  if bool_decide (index process = 0) then Throw e
  else sync process (Ret ShareNone).

(** A job of range size [n] with no arguments, on as many processes as the
    range and the pool allow. *)
Definition plain_job {R}
    (f : AlgorithmProcess → list pyval → gmap string pyval → prog R)
    (n : Z) : Job R :=
  {| valrange := n; numprocs := 0; target := f;
     args := []; kwargs := ∅; partitionArgs := [] |}.

(** The state of a pool of [n] processes after the schedule [sched]. *)
Definition state_after {R} (n : Z) (sched : list (action R)) : Server R :=
  default (start_server n) (run_schedule sched (start_server n)).

(** ** One round of object sharing *)

(** What is left of [share_own_index name] in a process of index [i] once
    it left [sync()], and the whole of it. *)
Definition share_kont (name : string) (i : Z) : prog share_ret :=
  Lookup name i (λ d, Ret (ShareDict d)).

Definition share_prog (name : string) (i : Z) : prog share_ret :=
  Publish i name (PyInt i) (Barrier (share_kont name i)).

(** How far a process is in the job: 0 the job not yet received, 1 before
    publishing, 2 before the barrier, 3 in the wait loop, 4 past the loop,
    5 before the lookup, 6 before sending the result, 7 done. *)
Definition stage_of (w : Worker share_ret) : nat :=
  match st w with
  | WIdle => match rsend w with [] => 0 | _ => 7 end
  | WRun (Publish _ _ _ _) => 1
  | WRun (Barrier _) => 2
  | WSyncWait _ => 3
  | WSyncLeave _ => 4
  | WRun (Lookup _ _ _) => 5
  | WRun (Ret _) => 6
  | WRun (Throw _) | WFlag => 8
  end.

Definition waiting (w : Worker share_ret) : bool :=
  match st w with WSyncWait _ => true | _ => false end.

(** [d] is [{idx: idx for idx in 0..k-1 if idx != i}], by its lookups. *)
Definition is_others (k i : Z) (d : gmap Z pyval) : Prop :=
  ∀ idx, d !! idx = if bool_decide (0 ≤ idx < k ∧ idx ≠ i)
                    then Some (PyInt idx) else None.

(** The process of index [i] is somewhere in a job of [k] processes that
    run [share_own_index name], [ev] being the event it waits on until it
    leaves [sync()]. *)
Definition sharing (k : Z) (name : string) (ev ev' : Event) (i : Z)
    (w : Worker share_ret) : Prop :=
  index (proc w) = i ∧ sharer (proc w) = true ∧
  match st w with
  | WIdle =>
      (∃ m, inbox w = [m] ∧ rsend w = [] ∧
            job_target m = share_own_index name ∧ job_total m = k ∧
            syncEvent (proc w) = Some ev ∧ syncEvent2 (proc w) = Some ev') ∨
      (∃ d, inbox w = [] ∧ rsend w = [Val (ShareDict d)] ∧ is_others k i d)
  | WRun c =>
      inbox w = [] ∧ rsend w = [] ∧ total (proc w) = k ∧
      (((c = share_prog name i ∨ c = Barrier (share_kont name i)) ∧
        syncEvent (proc w) = Some ev ∧ syncEvent2 (proc w) = Some ev') ∨
       c = share_kont name i ∨
       (∃ d, c = Ret (ShareDict d) ∧ is_others k i d))
  | WSyncWait κ | WSyncLeave κ =>
      inbox w = [] ∧ rsend w = [] ∧ total (proc w) = k ∧
      κ = share_kont name i ∧
      syncEvent (proc w) = Some ev ∧ syncEvent2 (proc w) = Some ev'
  | WFlag => False
  end.

(** The number of elements of [l] that satisfy [f]. *)
Fixpoint count_if {A} (f : A → bool) (l : list A) : nat :=
  match l with
  | [] => 0
  | x :: l' => ((if f x then 1 else 0) + count_if f l')%nat
  end.

(** Process [i'] has published its index. *)
Definition published (k : Z) (sv : Server share_ret) (i' : Z) : bool :=
  bool_decide (0 ≤ i' < k) &&
  from_option (λ w, bool_decide (2 ≤ stage_of w)%nat) false
              (procs sv !! Z.to_nat i').

(** The invariant of the job. *)
Record share_inv (k : Z) (name : string) (ev ev' : Event)
    (sv : Server share_ret) : Prop := {
  inv_running : continueRunning (shared sv) = true;
  inv_size : k ≤ Z.of_nat (length (procs sv));
  inv_part : ∀ (i : nat) w, procs sv !! i = Some w → Z.of_nat i < k →
                            sharing k name ev ev' (Z.of_nat i) w;
  inv_rest : ∀ (i : nat) w, procs sv !! i = Some w → k ≤ Z.of_nat i →
                            st w = WIdle ∧ inbox w = [];
  inv_objmap : ∀ i' n', objmap (shared sv) !! (i', n')
                 = if bool_decide (n' = name) && published k sv i'
                   then Some (PyInt i') else None;
  inv_phase :
    ((∀ (i : nat) w, procs sv !! i = Some w → Z.of_nat i < k →
                     (stage_of w ≤ 3)%nat) ∧
     syncCounter (shared sv) = Z.of_nat (count_if waiting (procs sv)) ∧
     syncCounter (shared sv) < k ∧
     (0 < syncCounter (shared sv) → is_set ev (shared sv) = false)) ∨
    ((∀ (i : nat) w, procs sv !! i = Some w → Z.of_nat i < k →
                     (3 ≤ stage_of w)%nat) ∧
     syncCounter (shared sv) = 0 ∧ is_set ev (shared sv) = true) }.

(** What is left to do in the job: the stages the first [k] processes have
    still to pass. *)
Definition stages_left (k : Z) (sv : Server share_ret) : nat :=
  sum_list_with (λ w, 7 - stage_of w)%nat (take (Z.to_nat k) (procs sv)).

(** The pool is as between two jobs, and its processes hold the same
    current event [ev]. *)
Definition aligned (ev ev' : Event) (sv : Server share_ret) : Prop :=
  disp sv = DIdle ∧ pool_wf sv ∧ continueRunning (shared sv) = true ∧
  Forall (λ w, st w = WIdle ∧ inbox w = [] ∧ rsend w = [] ∧
               sharer (proc w) = true ∧
               syncEvent (proc w) = Some ev ∧ syncEvent2 (proc w) = Some ev')
         (procs sv).

(** The job tuple of a job without arguments for process [i]. *)
Definition plain_msg {R}
    (f : AlgorithmProcess → list pyval → gmap string pyval → prog R)
    (N k i : Z) : JobMsg R :=
  {| job_target := f; job_args := []; job_kwargs := ∅;
     job_start := (partitionSequence N i k).1;
     job_end := (partitionSequence N i k).2;
     job_maxval := N; job_total := k |}.

(** ** More of [AlgorithmProcess] and [ProcessServer] *)

(** [self.nrange()]: [range(self.startval,self.endval)]. *)
Definition nrange (self : AlgorithmProcess) : list Z :=
  seqZ (startval self) (endval self - startval self).

(** [chooseProcCount(numelems,refine,threshold)] on integers, [realprocs]
    being [ProcessServer.globalServer.realnumprocs].  [refine] is [None]
    when [numelems*(refine+1)] raises, which the bare [except] of the routine
    answers with [int(numelems)]. *)
Definition chooseProcCount (realprocs numelems : Z) (refine : option Z)
    (threshold : Z) : Z :=
  let numelemadjust :=
    match refine with
    | Some r => numelems * (r + 1)
    | None => numelems
    end in
  if bool_decide (numelemadjust < threshold) then 1
  else if bool_decide (numelems ≤ realprocs) then numelems
  else 0.

(** The job tuple [run()] sends to process [i] for the job [j] over
    [numprocs] processes, [prepareArgs] having returned. *)
Definition job_msg {R} (j : Job R) (numprocs i : Z) : JobMsg R :=
  {| job_target := target j;
     job_args := match prepareArgs i numprocs (args j) (partitionArgs j) with
                 | Returns pargs => pargs
                 | Raises _ => []
                 end;
     job_kwargs := kwargs j;
     job_start := (partitionSequence (valrange j) i numprocs).1;
     job_end := (partitionSequence (valrange j) i numprocs).2;
     job_maxval := valrange j;
     job_total := numprocs |}.

(** The slices [prepareArgs] cuts a list into for the processes
    [0 .. numprocs-1]. *)
Definition list_shares {A} (l : list A) (numprocs : Z) : list (list A) :=
  (λ i, let '(astart, aend) :=
          partitionSequence (Z.of_nat (length l)) i numprocs in
        slice_list l astart aend) <$> seqZ 0 numprocs.

(** ** Jobs whose target neither synchronises nor shares *)

(** A routine that returns or raises without a call to [sync()] or to the
    sharer. *)
Definition lift_outcome {R} (o : outcome R) : prog R :=
  match o with Returns v => Ret v | Raises e => Throw e end.

(** What the process with the fields [self] sends back for the job [j] over
    [numprocs] processes when the target computes [g]: the fields are set
    from the job tuple, the target is called on the process and its
    arguments, and the value or the exception is sent. *)
Definition job_result {R}
    (g : AlgorithmProcess → list pyval → gmap string pyval → outcome R)
    (j : Job R) (numprocs : Z) (self : AlgorithmProcess) : pyres R :=
  let m := job_msg j numprocs (index self) in
  as_result (g (unpack self m) (job_args m) (job_kwargs m)).

(** The pool between two jobs: every process idle, no job tuple and no
    result in a pipe. *)
Definition at_rest {R} (sv : Server R) : Prop :=
  disp sv = DIdle ∧ pool_wf sv ∧ continueRunning (shared sv) = true ∧
  Forall (λ w, st w = WIdle ∧ inbox w = [] ∧ rsend w = []) (procs sv).

(** Where the process that was [w0] when the job was sent stands in it. *)
Definition pure_at {R}
    (g : AlgorithmProcess → list pyval → gmap string pyval → outcome R)
    (j : Job R) (k : Z) (w0 w : Worker R) : Prop :=
  let m := job_msg j k (index (proc w0)) in
  index (proc w) = index (proc w0) ∧
  if bool_decide (0 ≤ index (proc w0) < k) then
    match st w with
    | WIdle =>
        (inbox w = [m] ∧ rsend w = [] ∧ proc w = proc w0) ∨
        (inbox w = [] ∧ rsend w = [job_result g j k (proc w0)])
    | WRun c =>
        inbox w = [] ∧ rsend w = [] ∧
        c = lift_outcome (g (unpack (proc w0) m) (job_args m) (job_kwargs m))
    | WFlag => inbox w = [] ∧ rsend w = [job_result g j k (proc w0)]
    | _ => False
    end
  else st w = WIdle ∧ inbox w = [] ∧ rsend w = [].

Definition pure_inv {R}
    (g : AlgorithmProcess → list pyval → gmap string pyval → outcome R)
    (j : Job R) (k : Z) (ps0 : list (Worker R)) (sv : Server R) : Prop :=
  continueRunning (shared sv) = true ∧ pool_wf sv ∧
  Forall2 (pure_at g j k) ps0 (procs sv).

(** The actions a process has still to take in such a job. *)
Definition pure_left {R} (w : Worker R) : nat :=
  match st w with
  | WIdle => match rsend w with [] => 3 | _ => 0 end
  | WRun _ => 2
  | WFlag => 1
  | _ => 0
  end.

Definition jobs_left {R} (k : Z) (sv : Server R) : nat :=
  sum_list_with pure_left (take (Z.to_nat k) (procs sv)).

(** ** The pool across jobs *)

(** [w'] is the process [w] with more job tuples, of jobs over [k]
    processes, waiting for it. *)
Definition sent_more {R} (k : Z) (w w' : Worker R) : Prop :=
  proc w' = proc w ∧ st w' = st w ∧ rsend w' = rsend w ∧
  ∃ ms, inbox w' = inbox w ++ ms ∧ Forall (λ m, job_total m = k) ms.

Definition set_running (b : bool) (s : Shared) : Shared :=
  {| syncCounter := syncCounter s; event1 := event1 s; event2 := event2 s;
     objmap := objmap s; continueRunning := b |}.

(** [ProcessServer.stop()] as the processes see it in [run()] and in
    [sync()]: [stopEvent] is set, and [_continueRunning()] is false from
    then on. *)
Definition stop {R} (sv : Server R) : Server R :=
  set_server sv (set_running false (shared sv)) (procs sv) (disp sv)
             (resolved sv).

(** ** [DynamicProxy] and [ObjectServer.runProxy] *)

(** An attribute of a hosted object whose state has type [S]: a method,
    which is given the arguments and the state and ends by returning an
    object or raising, with the state it leaves; or something that is not
    callable. *)
Inductive attr (S A : Type) :=
| Callable (f : list pyval → gmap string pyval → S → S * outcome (pyres A))
| Data.
Arguments Callable {S A} f.
Arguments Data {S A}.

Definition is_callable {S A} (a : attr S A) : bool :=
  match a with Callable _ => true | Data => false end.

(** [i[0]!='_'] on a name that is not empty; the underscore is the
    character 95. *)
Definition is_public (i : string) : bool :=
  match i with
  | String c _ => negb (Ascii.eqb c (Ascii.ascii_of_nat 95))
  | EmptyString => false
  end.

(** What an attribute of a [DynamicProxy] holds: one of the four
    connections of its two pipes, or a [MethodProxy]. *)
Inductive held := HConn | HStub.

(** An attribute of a [DynamicProxy]: a connection, or a [MethodProxy]
    with what [self.send] and [self.recv] held when it was created. *)
Inductive pvalue :=
| PConn
| PStub (send recv : held).

Definition held_of (v : option pvalue) : held :=
  match v with Some PConn => HConn | _ => HStub end.

(** [dir(obj)]: the names of the attributes in ascending order. *)
Definition dir {S A} (attrs : gmap string (attr S A)) : list string :=
  merge_sort (λ a b, Is_true (String.leb a b)) (elements (dom attrs)).

(** The proxy after [self.send,self.send_r=Pipe()] and
    [self.recv_s,self.recv=Pipe()]. *)
Definition new_proxy : gmap string pvalue :=
  {[ "send"%string := PConn; "send_r"%string := PConn;
     "recv_s"%string := PConn; "recv"%string := PConn ]}.

(** The loop of [DynamicProxy.__init__] over the names still to visit,
    [self] being the attributes of the proxy so far:
    [if i[0]!='_' and hasattr(getattr(obj,i),'__call__'):
    setattr(self,i,MethodProxy(i,self.send,self.recv))].  On an empty name
    [i[0]] raises.  A method of the object named as one of the connections
    takes its place, and the stubs created after it hold that stub where
    the connection was. *)
Fixpoint DynamicProxy_loop {S A} (attrs : gmap string (attr S A))
    (names : list string) (self : gmap string pvalue)
  : outcome (gmap string pvalue) :=
  match names with
  | [] => Returns self
  | i :: rest =>
      match i with
      | EmptyString => Raises (Exn "IndexError" "string index out of range")
      | _ =>
          if is_public i && from_option is_callable false (attrs !! i)
          then DynamicProxy_loop attrs rest
                 (<[i := PStub (held_of (self !! "send"%string))
                               (held_of (self !! "recv"%string))]> self)
          else DynamicProxy_loop attrs rest self
      end
  end.

(** [DynamicProxy.__init__]: the attributes of the proxy, the attributes of
    the object being [attrs]. *)
Definition DynamicProxy_init {S A} (attrs : gmap string (attr S A))
  : outcome (gmap string pvalue) :=
  DynamicProxy_loop attrs (dir attrs) new_proxy.

(** The attribute [name] of the proxy is a stub that was created with the
    two connections. *)
Definition is_stub (proxy : gmap string pvalue) (name : string) : Prop :=
  proxy !! name = Some (PStub HConn HConn).

(** The thread of [runProxy] finds the connections under [proxy.send_r] and
    [proxy.recv_s]. *)
Definition serving (proxy : gmap string pvalue) : Prop :=
  proxy !! "send_r"%string = Some PConn ∧ proxy !! "recv_s"%string = Some PConn.

(** No public method of the object has the name of a connection of the
    proxy. *)
Definition no_clash {S A} (attrs : gmap string (attr S A)) : Prop :=
  ∀ n, n ∈ ["send"; "send_r"; "recv_s"; "recv"]%string →
       is_public n && from_option is_callable false (attrs !! n) = false.

(** The body of the [with lockobj(obj)] block of [runProxy] up to the
    [send]: the state of the object afterwards and the object sent back.
    A missing attribute and one that is not callable raise in the call of
    [getattr(obj,name)] on the arguments, as the method itself may; the
    handler makes the exception the result. *)
Definition invoke {S A} (attrs : gmap string (attr S A)) (m : call_msg)
    (obj : S) : S * pyres A :=
  match attrs !! msg_name m with
  | Some (Callable f) =>
      let '(obj', out) := f (msg_args m) (msg_kwargs m) obj in
      (obj', match out with Returns r => r | Raises e => Exc e end)
  | Some Data => (obj, Exc (Exn "TypeError" "object is not callable"))
  | None => (obj, Exc (Exn "AttributeError" (msg_name m)))
  end.

(** A proxy and the thread that serves it: the state of the hosted object,
    the messages in the pipe from [send] to [send_r] and the objects in the
    pipe from [recv_s] to [recv].  The thread and the stubs are taken to
    hold the connections of these pipes. *)
Record ProxyLink (S A : Type) := {
  hosted : S;
  send_r : list call_msg;
  recv_s : list (pyres A) }.
Arguments hosted {S A} _.
Arguments send_r {S A} _.
Arguments recv_s {S A} _.

(** One turn of the loop of [runProxy]: when [send_r] holds a message it is
    served and the result sent; otherwise the poll times out and nothing
    happens. *)
Definition runProxy_step {S A} (attrs : gmap string (attr S A))
    (l : ProxyLink S A) : ProxyLink S A :=
  match send_r l with
  | [] => l
  | m :: rest =>
      let '(obj', r) := invoke attrs m (hosted l) in
      {| hosted := obj'; send_r := rest; recv_s := recv_s l ++ [r] |}
  end.

(** A call of the stub [name] of the proxy, the thread completing [served]
    turns that find a message between the [send] of the call and the end of
    its poll: the message is sent, the thread serves, and the call reads the
    object at the head of its [recv] pipe, if there is one. *)
Definition proxy_call {S A} (attrs : gmap string (attr S A)) (served : nat)
    (name : string) (args : list pyval) (kwargs : gmap string pyval)
    (l : ProxyLink S A) : ProxyLink S A * outcome A :=
  let l1 := Nat.iter served (runProxy_step attrs)
              {| hosted := hosted l;
                 send_r := send_r l ++ [CallMsg name args kwargs];
                 recv_s := recv_s l |} in
  let self := {| mp_name := name; mp_send := [];
                 mp_recv := (λ r, (0, r)) <$> head (recv_s l1) |} in
  ({| hosted := hosted l1; send_r := send_r l1;
      recv_s := if poll 10 (mp_recv self) then tail (recv_s l1)
                else recv_s l1 |},
   (MethodProxy_call self args kwargs).2).

(** A sequence of calls, each with the number of turns the thread
    completes during it: the outcomes in order. *)
Fixpoint proxy_calls {S A} (attrs : gmap string (attr S A))
    (calls : list (nat * call_msg)) (l : ProxyLink S A)
  : ProxyLink S A * list (outcome A) :=
  match calls with
  | [] => (l, [])
  | (served, m) :: rest =>
      let '(l1, out) := proxy_call attrs served (msg_name m) (msg_args m)
                                   (msg_kwargs m) l in
      let '(l2, outs) := proxy_calls attrs rest l1 in
      (l2, out :: outs)
  end.

(** The same calls made on the object itself, one after the other: the
    state afterwards and what each call gave. *)
Fixpoint direct_calls {S A} (attrs : gmap string (attr S A))
    (calls : list call_msg) (obj : S) : S * list (pyres A) :=
  match calls with
  | [] => (obj, [])
  | m :: rest =>
      let '(obj1, r) := invoke attrs m obj in
      let '(obj2, rs) := direct_calls attrs rest obj1 in
      (obj2, r :: rs)
  end.

(** How a call on the object itself ends that gave [r]: [MethodProxy]
    raises an exception it reads whether the method raised or returned
    it. *)
Definition raise_or_return {A} (r : pyres A) : outcome A :=
  match r with Val v => Returns v | Exc e => Raises e end.

Definition no_result {A} (name : string) : outcome A :=
  Raises (Exn "IOError" ("Did not get result back for method call " +:+ name)).

(** The pipes of a proxy one of whose calls was given up: the message or
    the result of the call [prev], made when the object was [obj0], is
    still in them. *)
Definition lagging {S A} (attrs : gmap string (attr S A)) (prev : call_msg)
    (obj0 : S) (l : ProxyLink S A) : Prop :=
  (send_r l = [prev] ∧ recv_s l = [] ∧ hosted l = obj0) ∨
  (send_r l = [] ∧ recv_s l = [(invoke attrs prev obj0).2] ∧
   hosted l = (invoke attrs prev obj0).1).

(** ** [AlgorithmProcess.setProgress] and [prange] *)

(** What [self.progress] is: a [Task], of which the values passed to its
    [setProgress] are kept in order; the shared array of the pool; or
    [None]. *)
Inductive progress_obj :=
| ProgressTask (calls : list Z)
| ProgressArray (a : list Z)
| ProgressNone.

(** The two fields [setProgress] works on; [progressTime] in
    milliseconds. *)
Record ProgressState := {
  progressTime : Z;
  progress : progress_obj }.

(** [a[i]=val] on a shared array: a negative index counts from the end, and
    one out of range raises. *)
Definition array_set (a : list Z) (i val : Z) : outcome (list Z) :=
  let n := Z.of_nat (length a) in
  let i' := if bool_decide (i < 0) then i + n else i in
  if bool_decide (0 ≤ i' < n) then Returns (<[Z.to_nat i' := val]> a)
  else Raises (Exn "IndexError" "invalid index").

(** [self.setProgress(val,forceUpdate)], [curtime] being the value of
    [time.time()] in milliseconds.  An array is true when it is not
    empty. *)
Definition setProgress (self : AlgorithmProcess) (curtime val : Z)
    (forceUpdate : bool) (ps : ProgressState) : outcome ProgressState :=
  if bool_decide (curtime - progressTime ps < 200) && negb forceUpdate
  then Returns ps
  else
    match progress ps with
    | ProgressTask calls =>
        Returns {| progressTime := curtime;
                   progress := ProgressTask (calls ++ [val]) |}
    | ProgressArray [] =>
        Returns {| progressTime := curtime; progress := ProgressArray [] |}
    | ProgressArray a =>
        a' ← array_set a (index self) val ;;;
        Returns {| progressTime := curtime; progress := ProgressArray a' |}
    | ProgressNone =>
        Returns {| progressTime := curtime; progress := ProgressNone |}
    end.

(** The loop of [prange()] over the values still to yield, run to its end by
    a consumer that does not touch the progress itself: [count] is the
    number of values yielded so far and [clock] gives the values of
    [time.time()] of the calls of [setProgress] to come, in order.  The
    result is the list of the values yielded and the fields afterwards. *)
Fixpoint prange_loop (self : AlgorithmProcess) (items : list Z) (count : Z)
    (clock : nat → Z) (ps : ProgressState)
  : outcome (list Z * ProgressState) :=
  match items with
  | [] =>
      ps' ← setProgress self (clock 0%nat) count true ps ;;;
      Returns ([], ps')
  | i :: rest =>
      ps' ← setProgress self (clock 0%nat) (count + 1) false ps ;;;
      r ← prange_loop self rest (count + 1) (clock ∘ S) ps' ;;;
      Returns (i :: r.1, r.2)
  end.

(** [self.prange()] run to its end. *)
Definition prange (self : AlgorithmProcess) (clock : nat → Z)
    (ps : ProgressState) : outcome (list Z * ProgressState) :=
  prange_loop self (nrange self) 0 clock ps.

(** ** The rounds of the barrier *)

(** The pool is as between two jobs and its processes hold the same current
    event [ev] and the same other event [ev']. *)
Definition in_step {R} (ev ev' : Event) (sv : Server R) : Prop :=
  disp sv = DIdle ∧ pool_wf sv ∧ continueRunning (shared sv) = true ∧
  Forall (λ w, st w = WIdle ∧ inbox w = [] ∧
               syncEvent (proc w) = Some ev ∧ syncEvent2 (proc w) = Some ev')
         (procs sv).

(** The process is about to leave [sync()]: past the wait loop, before the
    swap of its events and the two tests. *)
Definition at_leave {R} (w : Worker R) : bool :=
  match st w with WSyncLeave _ => true | _ => false end.

(** The number of times the process of index [i] ran the locked block of
    [sync()] along a schedule, and the number of times it left [sync()]. *)
Definition entered {R} (i : nat) :=
  count_steps (R := R)
    (λ w, at_barrier w && bool_decide (index (proc w) = Z.of_nat i)).
Definition passed {R} (i : nat) :=
  count_steps (R := R)
    (λ w, at_leave w && bool_decide (index (proc w) = Z.of_nat i)).

(** The event of the [n]-th round of a job on a pool in step: the current
    event in the first round, then the two in turn. *)
Definition round_event (ev ev' : Event) (n : nat) : Event :=
  if Nat.odd n then ev else ev'.

(** A process of a job of which [r] rounds are complete, which entered
    [sync()] [e] times and left it [p] times. *)
Definition in_round {R} (ev ev' : Event) (r e p : nat) (w : Worker R)
  : Prop :=
  (r ≤ e ≤ r + 1)%nat ∧ (p ≤ r)%nat ∧
  syncEvent (proc w) = Some (round_event ev ev' (p + 1)) ∧
  syncEvent2 (proc w) = Some (round_event ev ev' p) ∧
  match st w with
  | WSyncWait _ => e = (p + 1)%nat
  | WSyncLeave _ => e = (p + 1)%nat ∧ e = r
  | _ => e = p
  end.

(** The invariant of the rounds: [r] rounds are complete, and the counter
    is the number of processes that entered the next one. *)
Record rounds_inv {R} (k : nat) (ev ev' : Event) (r : nat) (e p : nat → nat)
    (sv : Server R) : Prop := {
  rounds_running : continueRunning (shared sv) = true;
  rounds_wf : pool_wf sv;
  rounds_job : job_inv (Z.of_nat k) sv;
  rounds_size : (k ≤ length (procs sv))%nat;
  rounds_part : ∀ (i : nat) w, procs sv !! i = Some w → (i < k)%nat →
                               in_round ev ev' r (e i) (p i) w;
  rounds_rest : ∀ (i : nat) w, procs sv !! i = Some w → (k ≤ i)%nat →
                               st w = WIdle ∧ inbox w = [];
  rounds_counter : 0 ≤ syncCounter (shared sv) < Z.of_nat k;
  rounds_sum : Z.of_nat (sum_list_with e (seq 0 k))
               = Z.of_nat k * Z.of_nat r + syncCounter (shared sv);
  rounds_done : (1 ≤ r)%nat →
                is_set (round_event ev ev' r) (shared sv) = true;
  rounds_open : 0 < syncCounter (shared sv) →
                is_set (round_event ev ev' (r + 1)) (shared sv) = false }.

(** ** The processes after [stop()] *)

(** A process that found [_continueRunning()] true at the head of the loop
    of [run()] and is inside [self.recv.poll(0.01)] when [stopEvent] is set:
    it takes the job tuple at the head of its pipe whatever the event says
    by now. *)
Definition take_job {R} (w : Worker R) : option (Worker R) :=
  match st w, inbox w with
  | WIdle, m :: rest =>
      let self' := unpack (proc w) m in
      Some {| proc := self';
              st := WRun (job_target m self' (job_args m) (job_kwargs m));
              inbox := rest; rsend := rsend w |}
  | _, _ => None
  end.

(** What a process can do next once [stop()] was called: its next action as
    [wstep] gives it, an idle process being at the test of its loop; or, for
    an idle process that passed the test before, the taking of a job. *)
Inductive late_action :=
| LateWork (i : nat)
| LateTake (i : nat).

Definition late_step {R} (a : late_action) (sv : Server R)
  : option (Server R) :=
  match a with
  | LateWork i => system_step (Work i) sv
  | LateTake i =>
      w ← procs sv !! i;
      w' ← take_job w;
      Some (set_server sv (shared sv) (<[i := w']> (procs sv)) (disp sv)
                       (resolved sv))
  end.

Fixpoint run_late {R} (sched : list late_action) (sv : Server R)
  : option (Server R) :=
  match sched with
  | [] => Some sv
  | a :: rest => sv' ← late_step a sv; run_late rest sv'
  end.

(** ** A job on its way to its results *)

(** The process holds a result for the dispatch loop, or is on its way to
    one: it has a job tuple waiting, or runs its target, inside [sync()] or
    outside. *)
Definition delivers {R} (w : Worker R) : Prop :=
  rsend w ≠ [] ∨
  match st w with
  | WIdle | WFlag => inbox w ≠ []
  | WRun _ | WSyncLeave _ => True
  | WSyncWait _ => is_Some (syncEvent (proc w))
  end.

(** From [sv] the process at position [i] can act until its result pipe
    holds an object, the other processes staying as they are. *)
Definition can_deliver {R} (i : nat) (sv : Server R) : Prop :=
  ∃ sched sv',
    forallb is_work sched = true ∧
    run_schedule sched sv = Some sv' ∧
    is_Some (pipe_head sv' i) ∧
    ∀ i', i' ≠ i → procs sv' !! i' = procs sv !! i'.

(** * Properties *)

(** ** Range partitioning *)

Section partitioning.
Variables N k : Z.
Hypothesis HN : 0 ≤ N.
Hypothesis Hk : 0 < k.

Lemma part_bound_mono i j : i ≤ j → i * N / k ≤ j * N / k.
Proof. intros. apply Z.div_le_mono; nia. Qed.

Lemma part_bound_0 : 0 * N / k = 0.
Proof. by rewrite Z.mul_0_l, Z.div_0_l by lia. Qed.

Lemma part_bound_k : k * N / k = N.
Proof. rewrite Z.mul_comm. apply Z.div_mul. lia. Qed.

(** A share is the quotient [N / k] or one more. *)
Lemma part_len_bounds i :
  N / k ≤ part_len (partitionSequence N i k) ≤ N / k + 1.
Proof.
  unfold part_len, partitionSequence; simpl.
  pose proof (Z.div_mod N k ltac:(lia)) as HNk.
  pose proof (Z.mod_pos_bound N k Hk) as Hr.
  pose proof (Z.div_mod (i * N) k ltac:(lia)) as H1.
  pose proof (Z.mod_pos_bound (i * N) k Hk) as Hr1.
  pose proof (Z.div_mod ((i + 1) * N) k ltac:(lia)) as H2.
  pose proof (Z.mod_pos_bound ((i + 1) * N) k Hk) as Hr2.
  nia.
Qed.

(** Below the [n]-th bound there is a sub-range holding [x]. *)
Lemma part_find (x : Z) (n : nat) :
  0 ≤ x < Z.of_nat n * N / k →
  ∃ i, 0 ≤ i < Z.of_nat n ∧ in_part x (partitionSequence N i k).
Proof.
  induction n as [|n IH]; intros Hx.
  - simpl in Hx. rewrite Z.div_0_l in Hx by lia. lia.
  - destruct (decide (x < Z.of_nat n * N / k)) as [Hlt|Hge].
    + destruct IH as (i & Hi & Hin); [lia|]. exists i. split; [lia|done].
    + exists (Z.of_nat n). split; [lia|].
      unfold in_part, partitionSequence; simpl.
      replace (Z.of_nat n + 1) with (Z.of_nat (S n)) by lia. lia.
Qed.

Lemma part_within i x :
  0 ≤ i < k → in_part x (partitionSequence N i k) → 0 ≤ x < N.
Proof.
  unfold in_part, partitionSequence; simpl. intros Hi [Hlo Hhi].
  pose proof (part_bound_mono 0 i ltac:(lia)) as H0.
  pose proof (part_bound_mono (i + 1) k ltac:(lia)) as H1.
  rewrite part_bound_0 in H0. rewrite part_bound_k in H1. lia.
Qed.

Lemma part_disjoint i j x :
  i < j →
  in_part x (partitionSequence N i k) →
  in_part x (partitionSequence N j k) → False.
Proof.
  unfold in_part, partitionSequence; simpl. intros Hij [_ Hhi] [Hlo _].
  pose proof (part_bound_mono (i + 1) j ltac:(lia)). lia.
Qed.
End partitioning.

(** The [i]-th entry of [job_ranges] is worker [i]'s sub-range. *)
Lemma job_ranges_lookup N k (i : nat) :
  Z.of_nat i < k →
  job_ranges N k !! i = Some (partitionSequence N (Z.of_nat i) k).
Proof.
  intros Hi. unfold job_ranges. rewrite list_lookup_fmap.
  rewrite lookup_seqZ_lt by lia. simpl. by rewrite Z.add_0_l.
Qed.

Lemma job_ranges_length N k : length (job_ranges N k) = Z.to_nat k.
Proof. unfold job_ranges. by rewrite length_fmap, length_seqZ. Qed.

(** C1.  For a range size [N > 0] and [1 ≤ k ≤ N] workers, the sub-ranges
    [[floor(i·N/k), floor((i+1)·N/k))] of workers [0 ≤ i < k] cover exactly
    [[0,N)], are pairwise disjoint, and the lengths of any two of them differ
    by at most one. *)
Theorem partition_exact_cover (N k : Z) :
  0 < N → 1 ≤ k ≤ N →
  (∀ x, 0 ≤ x < N ↔
        ∃ i, 0 ≤ i < k ∧ in_part x (partitionSequence N i k)) ∧
  (∀ i j x, 0 ≤ i < k → 0 ≤ j < k →
        in_part x (partitionSequence N i k) →
        in_part x (partitionSequence N j k) → i = j) ∧
  (∀ i j, 0 ≤ i < k → 0 ≤ j < k →
        Z.abs (part_len (partitionSequence N i k)
               - part_len (partitionSequence N j k)) ≤ 1).
Proof.
  intros HN Hk. split; [|split].
  - intros x. split.
    + intros Hx.
      destruct (part_find N k ltac:(lia) x (Z.to_nat k)) as (i & Hi & Hin).
      { rewrite Z2Nat.id by lia. rewrite part_bound_k by lia. lia. }
      exists i. split; [lia|done].
    + intros (i & Hi & Hin). eapply (part_within N k); eauto; lia.
  - intros i j x Hi Hj Hxi Hxj.
    destruct (Z.lt_trichotomy i j) as [Hlt|[Heq|Hgt]]; [|done|].
    + destruct (part_disjoint N k ltac:(lia) ltac:(lia) i j x Hlt Hxi Hxj).
    + destruct (part_disjoint N k ltac:(lia) ltac:(lia) j i x Hgt Hxj Hxi).
  - intros i j Hi Hj.
    pose proof (part_len_bounds N k ltac:(lia) i).
    pose proof (part_len_bounds N k ltac:(lia) j). lia.
Qed.

Lemma partition_exact_cover_witness :
  (∀ x, 0 ≤ x < 50 ↔
        ∃ i, 0 ≤ i < 4 ∧ in_part x (partitionSequence 50 i 4)) ∧
  (∀ i j x, 0 ≤ i < 4 → 0 ≤ j < 4 →
        in_part x (partitionSequence 50 i 4) →
        in_part x (partitionSequence 50 j 4) → i = j) ∧
  (∀ i j, 0 ≤ i < 4 → 0 ≤ j < 4 →
        Z.abs (part_len (partitionSequence 50 i 4)
               - part_len (partitionSequence 50 j 4)) ≤ 1).
Proof. apply (partition_exact_cover 50 4); lia. Defined.

(** The scenario of the docstring of [callProcessFunc]: 50 units over 4
    workers. *)
Example job_ranges_50_4 :
  job_ranges 50 4 = [(0, 12); (12, 25); (25, 37); (37, 50)].
Proof. reflexivity. Qed.

(** ** [ProcessServer.prepareArgs] *)

Lemma slice_list_length {A} (l : list A) (s e : Z) :
  0 ≤ s ≤ e → e ≤ Z.of_nat (length l) →
  length (slice_list l s e) = Z.to_nat (e - s).
Proof.
  intros Hs He. unfold slice_list, slice_bound.
  rewrite length_take, length_drop.
  destruct (Z.ltb_spec s 0), (Z.ltb_spec e 0); lia.
Qed.

(** The elements of a slice are those of the list at the positions of the
    range. *)
Lemma slice_list_lookup {A} (l : list A) (s e : Z) (t : nat) :
  0 ≤ s ≤ e → e ≤ Z.of_nat (length l) →
  Z.of_nat t < e - s →
  slice_list l s e !! t = l !! (Z.to_nat s + t)%nat.
Proof.
  intros Hs He Ht. unfold slice_list, slice_bound.
  destruct (Z.ltb_spec s 0), (Z.ltb_spec e 0); try lia.
  rewrite lookup_take_lt by lia. rewrite lookup_drop. f_equal. lia.
Qed.

Lemma prepareArgs_loop_ok index numprocs partArgs args pargs :
  (∀ a, a ∈ args → a ∈ partArgs → is_seq a = true) →
  ∃ ps, prepareArgs_loop index numprocs partArgs args pargs
          = Returns (pargs ++ ps) ∧
        Forall2 (λ a p, prepareArg index numprocs partArgs a = Returns p)
                args ps.
Proof.
  revert pargs. induction args as [|a args IH]; intros pargs Hseq; simpl.
  - exists []. by rewrite app_nil_r.
  - assert (∃ p, prepareArg index numprocs partArgs a = Returns p) as [p Hp].
    { unfold prepareArg. case_bool_decide as Hin; [|by eexists].
      specialize (Hseq a ltac:(left) Hin).
      destruct a; try discriminate; simpl; by eexists. }
    rewrite Hp; simpl.
    destruct (IH (pargs ++ [p])) as (ps & Heq & Hall).
    { intros b Hb. apply Hseq. by right. }
    exists (p :: ps). split; [by rewrite Heq, <-app_assoc|by constructor].
Qed.

(** C6 (amended).  [prepareArgs] keeps the positions of the arguments; an
    argument that is not in [partArgs] is passed unchanged, and one that is
    (a sequence) is replaced by its slice over the [index]-th of [numprocs]
    shares of its own length. *)
Theorem prepareArgs_own_length (index numprocs : Z)
    (args partArgs : list pyval) :
  (∀ a, a ∈ args → a ∈ partArgs → is_seq a = true) →
  ∃ pargs, prepareArgs index numprocs args partArgs = Returns pargs ∧
    length pargs = length args ∧
    ∀ (j : nat) a, args !! j = Some a →
      ∃ p, pargs !! j = Some p ∧
        if bool_decide (a ∈ partArgs)
        then own_slice numprocs index a = Returns p
        else p = a.
Proof.
  intros Hseq.
  destruct (prepareArgs_loop_ok index numprocs partArgs args [] Hseq)
    as (ps & Heq & Hall).
  exists ps. split; [done|]. split; [symmetry; by eapply Forall2_length|].
  intros j a Hj.
  destruct (Forall2_lookup_l _ _ _ _ _ Hall Hj) as (p & Hp & Hprep).
  exists p. split; [done|].
  unfold prepareArg in Hprep. case_bool_decide.
  - unfold own_slice. by destruct (py_len a).
  - by inversion Hprep.
Qed.

Lemma prepareArgs_own_length_witness :
  ∃ pargs,
    prepareArgs 2 3
      [PyList (PyInt <$> seqZ 0 10); PyInt 7] [PyList (PyInt <$> seqZ 0 10)]
      = Returns pargs ∧
    length pargs = 2%nat ∧
    ∀ (j : nat) a,
      [PyList (PyInt <$> seqZ 0 10); PyInt 7] !! j = Some a →
      ∃ p, pargs !! j = Some p ∧
        if bool_decide (a ∈ [PyList (PyInt <$> seqZ 0 10)])
        then own_slice 3 2 a = Returns p
        else p = a.
Proof.
  apply (prepareArgs_own_length 2 3
           [PyList (PyInt <$> seqZ 0 10); PyInt 7]
           [PyList (PyInt <$> seqZ 0 10)]).
  intros a Ha Hp. apply list_elem_of_singleton in Hp. by subst a.
Defined.

(** When the flagged argument is as long as the range of the job, its share
    is the worker's sub-range of [[0,N)]. *)
Lemma own_slice_range_size (N k i : Z) (partArgs : list pyval) (a : pyval) :
  py_len a = Returns N → a ∈ partArgs →
  own_slice k i a = spec_arg N k i partArgs a.
Proof.
  intros Hlen Hin. unfold own_slice, spec_arg.
  rewrite Hlen, bool_decide_eq_true_2 by done. simpl.
  by destruct (partitionSequence N i k).
Qed.

(** The docstring example of [callProcessFunc]: ten values over three
    workers. *)
Example prepareArgs_docstring :
  (λ i, prepareArgs i 3 [PyList (PyInt <$> seqZ 0 10)]
                        [PyList (PyInt <$> seqZ 0 10)]) <$> [0; 1; 2]
  = [Returns [PyList (PyInt <$> [0; 1; 2])];
     Returns [PyList (PyInt <$> [3; 4; 5])];
     Returns [PyList (PyInt <$> [6; 7; 8; 9])]].
Proof. vm_compute. reflexivity. Qed.

(** C6, as the specification words it, fails when a flagged argument is not
    as long as the range: for a job of range size 4 over 2 workers and the
    flagged two-element list [[10, 20]], worker 0 is sent [[10]], not the
    slice [[10, 20]] over its sub-range [[0,2)]. *)
Lemma prepareArgs_not_job_range :
  prepareArgs 0 2 [PyList [PyInt 10; PyInt 20]] [PyList [PyInt 10; PyInt 20]]
    = Returns [PyList [PyInt 10]] ∧
  partitionSequence 4 0 2 = (0, 2) ∧
  spec_arg 4 2 0 [PyList [PyInt 10; PyInt 20]] (PyList [PyInt 10; PyInt 20])
    = Returns (PyList [PyInt 10; PyInt 20]) ∧
  ¬ (∀ N k i args partArgs pargs,
       0 < N → 1 ≤ k ≤ N → 0 ≤ i < k →
       prepareArgs i k args partArgs = Returns pargs →
       Forall2 (λ a p, spec_arg N k i partArgs a = Returns p) args pargs).
Proof.
  split; [by vm_compute|]. split; [by vm_compute|]. split; [by vm_compute|].
  intros H.
  specialize (H 4 2 0 [PyList [PyInt 10; PyInt 20]]
                [PyList [PyInt 10; PyInt 20]] [PyList [PyInt 10]]
                ltac:(lia) ltac:(lia) ltac:(lia) ltac:(by vm_compute)).
  apply Forall2_cons_1 in H as [H _]. vm_compute in H. discriminate H.
Qed.

(** ** The reducers over a result map *)

Lemma StronglySorted_le_lt (l : list Z) :
  StronglySorted Z.le l → NoDup l → StronglySorted Z.lt l.
Proof.
  induction 1 as [|x l Hl IH Hx]; intros Hnd; [constructor|].
  apply NoDup_cons in Hnd as [Hnotin Hnd].
  constructor; [by apply IH|].
  rewrite Forall_forall in Hx |- *. intros y Hy.
  specialize (Hx y Hy). assert (x ≠ y) by (intros ->; done). lia.
Qed.

Lemma sorted_keys_sorted {A} (m : gmap Z A) :
  StronglySorted Z.lt (sorted_keys m).
Proof.
  unfold sorted_keys. apply StronglySorted_le_lt.
  - apply StronglySorted_merge_sort; apply _.
  - rewrite merge_sort_Permutation. apply NoDup_elements.
Qed.

Lemma elem_of_sorted_keys {A} (m : gmap Z A) i :
  i ∈ sorted_keys m ↔ is_Some (m !! i).
Proof.
  unfold sorted_keys. rewrite merge_sort_Permutation, elem_of_elements.
  apply elem_of_dom.
Qed.

Lemma omap_lookup_Forall2 {A} (m : gmap Z A) (keys : list Z) :
  (∀ i, i ∈ keys → is_Some (m !! i)) →
  Forall2 (λ i v, m !! i = Some v) keys (omap (λ i, m !! i) keys).
Proof.
  induction keys as [|i keys IH]; intros Hk; simpl; [constructor|].
  destruct (Hk i ltac:(left)) as [v Hv]. rewrite Hv.
  constructor; [done|]. apply IH. intros j Hj. apply Hk. by right.
Qed.

Lemma listResults_in_index_order {A} (m : gmap Z A) :
  in_index_order m (listResults m).
Proof.
  exists (sorted_keys m). split; [apply sorted_keys_sorted|].
  split; [apply elem_of_sorted_keys|].
  apply omap_lookup_Forall2. intros i. by rewrite elem_of_sorted_keys.
Qed.

(** The loop raises the exception found at the first key holding one. *)
Lemma checkResultMap_loop_raises {A} (m : gmap Z (pyres A)) keys e :
  checkResultMap_loop m keys = Raises e ↔
  ∃ pre i post, keys = pre ++ i :: post ∧ m !! i = Some (Exc e) ∧
    ∀ j r, j ∈ pre → m !! j = Some r → isException r = false.
Proof.
  induction keys as [|i keys IH]; simpl.
  - split; [done|]. intros (pre & i & post & Heq & _).
    by destruct pre.
  - destruct (m !! i) as [[a|e']|] eqn:Hi.
    + rewrite IH. split.
      * intros (pre & i' & post & -> & Hi' & Hpre).
        exists (i :: pre), i', post. split; [done|]. split; [done|].
        intros j r [->|Hj]%elem_of_cons Hr; [|by eauto].
        rewrite Hi in Hr. by inversion Hr.
      * intros (pre & i' & post & Heq & Hi' & Hpre).
        destruct pre as [|i0 pre]; simplify_eq/=.
        exists pre, i', post. split; [done|]. split; [done|].
        intros j r Hj. apply Hpre. by right.
    + split.
      * intros [= ->]. exists [], i, keys. split; [done|]. split; [done|].
        intros j r Hj. by apply elem_of_nil in Hj.
      * intros (pre & i' & post & Heq & Hi' & Hpre).
        destruct pre as [|i0 pre]; simplify_eq/=; [done|].
        by specialize (Hpre i0 (Exc e') ltac:(left) Hi).
    + rewrite IH. split.
      * intros (pre & i' & post & -> & Hi' & Hpre).
        exists (i :: pre), i', post. split; [done|]. split; [done|].
        intros j r [->|Hj]%elem_of_cons Hr; [|by eauto].
        by rewrite Hi in Hr.
      * intros (pre & i' & post & Heq & Hi' & Hpre).
        destruct pre as [|i0 pre]; simplify_eq/=.
        exists pre, i', post. split; [done|]. split; [done|].
        intros j r Hj. apply Hpre. by right.
Qed.

Lemma checkResultMap_loop_returns {A} (m : gmap Z (pyres A)) keys :
  checkResultMap_loop m keys = Returns () ↔
  ∀ i r, i ∈ keys → m !! i = Some r → isException r = false.
Proof.
  induction keys as [|i keys IH]; simpl.
  - split; [|done]. intros _ i r Hi. by apply elem_of_nil in Hi.
  - destruct (m !! i) as [[a|e']|] eqn:Hi.
    + rewrite IH. split.
      * intros H j r [->|Hj]%elem_of_cons Hr; [|by eauto].
        rewrite Hi in Hr. by inversion Hr.
      * intros H j r Hj. apply H. by right.
    + split; [done|]. intros H.
      by specialize (H i (Exc e') ltac:(left) Hi).
    + rewrite IH. split.
      * intros H j r [->|Hj]%elem_of_cons Hr; [|by eauto].
        by rewrite Hi in Hr.
      * intros H j r Hj. apply H. by right.
Qed.

(** [checkResultMap] raises [e] exactly when [e] sits at the least key
    holding an exception. *)
Lemma checkResultMap_raises {A} (m : gmap Z (pyres A)) e :
  checkResultMap m = Raises e ↔
  ∃ i, m !! i = Some (Exc e) ∧
       ∀ j r, j < i → m !! j = Some r → isException r = false.
Proof.
  unfold checkResultMap. rewrite checkResultMap_loop_raises.
  pose proof (sorted_keys_sorted m) as Hs. split.
  - intros (pre & i & post & Heq & Hi & Hpre). exists i. split; [done|].
    intros j r Hj Hr.
    assert (j ∈ sorted_keys m) as Hin by (apply elem_of_sorted_keys; eauto).
    rewrite Heq in Hin, Hs.
    apply elem_of_app in Hin as [Hin|Hin]; [by eauto|].
    apply StronglySorted_app_1_r, StronglySorted_cons in Hs as [Hs _].
    rewrite Forall_forall in Hs.
    apply elem_of_cons in Hin as [->|Hin]; [lia|].
    specialize (Hs j Hin). lia.
  - intros (i & Hi & Hlt).
    assert (i ∈ sorted_keys m) as Hin by (apply elem_of_sorted_keys; eauto).
    apply list_elem_of_split in Hin as (pre & post & Heq).
    exists pre, i, post. split; [done|]. split; [done|].
    intros j r Hj. apply Hlt. rewrite Heq in Hs.
    eapply (StronglySorted_app_1_elem_of _ pre (i :: post)); [done|done|left].
Qed.

Lemma checkResultMap_returns {A} (m : gmap Z (pyres A)) :
  checkResultMap m = Returns () ↔
  ∀ i r, m !! i = Some r → isException r = false.
Proof.
  unfold checkResultMap. rewrite checkResultMap_loop_returns. split.
  - intros H i r Hr. apply (H i r); [|done].
    apply elem_of_sorted_keys. eauto.
  - intros H i r _. apply H.
Qed.

(** C8.  On a result map: [checkResultMap] raises the exception at the
    least worker index holding one, and returns when no value is an
    exception; [sumResultMap] is the concatenation of the per-worker lists by
    ascending worker index; [listResults] lists the values by ascending
    worker index. *)
Theorem reducers_index_order {A}
    (rm : gmap Z (pyres A)) (lm : gmap Z (list A)) (m : gmap Z A) :
  (∀ e, checkResultMap rm = Raises e ↔
        ∃ i, rm !! i = Some (Exc e) ∧
             ∀ j r, j < i → rm !! j = Some r → isException r = false) ∧
  (checkResultMap rm = Returns () ↔
        ∀ i r, rm !! i = Some r → isException r = false) ∧
  (∃ lists, in_index_order lm lists ∧ sumResultMap lm = concat lists) ∧
  in_index_order m (listResults m).
Proof.
  split; [apply checkResultMap_raises|].
  split; [apply checkResultMap_returns|].
  split; [|apply listResults_in_index_order].
  exists (listResults lm). split; [apply listResults_in_index_order|done].
Qed.

(** The reducer examples of the specification. *)
Example listResults_example :
  listResults (<[1:="b"]> (<[0:="a"]> (∅ : gmap Z string))) = ["a"; "b"].
Proof. by vm_compute. Qed.

Example sumResultMap_example :
  sumResultMap (<[1:=[3]]> (<[0:=[1; 2]]> (∅ : gmap Z (list Z)))) = [1; 2; 3].
Proof. by vm_compute. Qed.

Example checkResultMap_example e :
  checkResultMap (<[1:=Val 5]> (<[0:=Exc e]> (∅ : gmap Z (pyres Z))))
  = Raises e.
Proof. by vm_compute. Qed.

(** ** [MethodProxy] *)

(** C9.  A call of a method stub writes [(name,args,kwargs)] to its [send]
    connection and polls its [recv] connection for 10 seconds: a response
    read in time is raised when it is an exception and returned otherwise;
    without one the call raises an [IOError] that names the method. *)
Theorem MethodProxy_call_outcome {A} (self : MethodProxy A)
    (args : list pyval) (kwargs : gmap string pyval) :
  mp_send (MethodProxy_call self args kwargs).1
    = mp_send self ++ [CallMsg (mp_name self) args kwargs] ∧
  (MethodProxy_call self args kwargs).2 =
    match mp_recv self with
    | Some (t, r) =>
        if bool_decide (t ≤ 10 * 1000)
        then match r with Exc e => Raises e | Val v => Returns v end
        else Raises (Exn "IOError"
               ("Did not get result back for method call " +:+ mp_name self))
    | None =>
        Raises (Exn "IOError"
               ("Did not get result back for method call " +:+ mp_name self))
    end.
Proof.
  unfold MethodProxy_call, poll.
  destruct (mp_recv self) as [[t r]|]; [|done].
  replace (1000 * 10) with (10 * 1000) by lia.
  case_bool_decide; [|done]. by destruct r.
Qed.

Example MethodProxy_call_late :
  (MethodProxy_call
     {| mp_name := "getObjects"; mp_send := [];
        mp_recv := Some (10001, Val (PyInt 1)) |} [PyStr "x"] ∅).2
  = Raises (Exn "IOError"
              "Did not get result back for method call getObjects").
Proof. reflexivity. Qed.

(** ** [ObjectSharer] *)

(** The dict of [getObjects] holds, for every index but the excluded one,
    the object published under that index and [name]. *)
Lemma ObjectSharer_getObjects_lookup (name : string) (excl : Z)
    (m : gmap (Z * string) pyval) (i : Z) :
  ObjectSharer_getObjects name excl m !! i
  = if bool_decide (i = excl) then None else m !! (i, name).
Proof.
  unfold ObjectSharer_getObjects.
  apply (map_fold_weak_ind
    (λ (d : gmap Z pyval) (m : gmap (Z * string) pyval),
       d !! i = if bool_decide (i = excl) then None else m !! (i, name))).
  - rewrite !lookup_empty. by case_bool_decide.
  - intros [i' n'] o m' d Hfresh IH.
    destruct (decide (i = excl)) as [Hex|Hex].
    + rewrite (bool_decide_eq_true_2 (i = excl)) in IH |- * by done.
      case_bool_decide as Hsel; [|done].
      destruct Hsel as [_ Hne]. rewrite lookup_insert_ne; [done|congruence].
    + rewrite (bool_decide_eq_false_2 (i = excl)) in IH |- * by done.
      case_bool_decide as Hsel.
      * destruct Hsel as [-> Hne].
        destruct (decide (i = i')) as [->|Hii].
        -- by rewrite !lookup_insert_eq.
        -- rewrite !lookup_insert_ne; [done|congruence|congruence].
      * rewrite IH. rewrite lookup_insert_ne; [done|].
        intros [= -> ->]. by apply Hsel.
Qed.

(** ** [AlgorithmProcess.shareObject] *)

(** C10.  With a total of 1 or without a sharer, [shareObject] goes on with
    [{}] and reaches the sharer at no point; with a total other than 1, a
    sharer and [doExchange] false, its one action is to publish [obj] under
    [(self.index,name)], and it goes on with [None]. *)
Theorem shareObject_edge_cases {R} (s : Shared) (w : Worker R)
    (name : string) (obj : pyval) (doExchange : bool)
    (k : share_ret → prog R) :
  ((total (proc w) = 1 ∨ sharer (proc w) = false) →
     shareObject (proc w) name obj doExchange k = k (ShareDict ∅)) ∧
  (total (proc w) ≠ 1 → sharer (proc w) = true →
     shareObject (proc w) name obj false k
       = Publish (index (proc w)) name obj (k ShareNone) ∧
     (st w = WRun (shareObject (proc w) name obj false k) →
      wstep s w =
        Some (set_objmap (<[(index (proc w), name) := obj]> (objmap s)) s,
              set_st w (proc w) (WRun (k ShareNone))))).
Proof.
  split.
  - intros [Ht|Hs]; unfold shareObject.
    + by rewrite bool_decide_eq_true_2.
    + rewrite Hs. simpl. by rewrite orb_true_r.
  - intros Ht Hs.
    assert (shareObject (proc w) name obj false k
            = Publish (index (proc w)) name obj (k ShareNone)) as Heq.
    { unfold shareObject. rewrite bool_decide_eq_false_2 by done.
      by rewrite Hs. }
    split; [done|]. intros Hst. unfold wstep. by rewrite Hst, Heq.
Qed.

Lemma shareObject_edge_cases_witness :
  let s := shared (start_server (R := share_ret) 3) in
  let w1 := {| proc := localproc 10; st := WIdle; inbox := [];
               rsend := [] |} : Worker share_ret in
  let w3 := set_st (new_process 3 1)
              (proc (new_process (R := share_ret) 3 1))
              (WRun (shareObject (proc (new_process (R := share_ret) 3 1))
                       "x" (PyInt 1) false (λ r, Ret r))) in
  shareObject (proc w1) "x" (PyInt 0) true (λ r, Ret r)
    = Ret (ShareDict ∅) ∧
  shareObject (proc w3) "x" (PyInt 1) false (λ r, Ret r)
    = Publish 1 "x" (PyInt 1) (Ret ShareNone) ∧
  wstep s w3
    = Some (set_objmap (<[(1, "x") := PyInt 1]> (objmap s)) s,
            set_st w3 (proc w3) (WRun (Ret ShareNone))).
Proof.
  intros s w1 w3.
  destruct (shareObject_edge_cases s w1 "x" (PyInt 0) true (λ r, Ret r))
    as [H1 _].
  destruct (shareObject_edge_cases s w3 "x" (PyInt 1) false (λ r, Ret r))
    as [_ H3].
  split; [apply H1; by left|].
  destruct H3 as [Heq Hstep]; [discriminate|reflexivity|].
  split; [exact Heq|]. apply Hstep. reflexivity.
Defined.

(** ** The local branch of [ProcessServer.run] *)

Lemma start_server_single {R} (n : Z) :
  n ≤ 1 → procs (start_server (R := R) n) = [].
Proof. intros. unfold start_server; simpl. by rewrite bool_decide_eq_false_2 by lia. Qed.

(** C4.  A job whose resolved worker count is 1, or any job on a server
    without processes, is run in the calling context on the local process
    (index 0, total 1, range [[0, valrange)]): the processes are left as they
    are, nothing being sent to any of them, and the Future is set to
    [{0: v}] when the target returns [v] and to [{0: e}] when it raises
    [e].  On the local process [sync()], [getObjects] and [shareObject] do
    nothing, so that a target that calls them goes on with its routine; a
    routine that reached the lock or the sharer all the same would call a
    method on [None], and that exception is captured as well. *)
Theorem submit_local {R} (j : Job R) (sv : Server R) :
  disp sv = DIdle →
  resolve_numprocs (realnumprocs sv) (valrange j) (numprocs j) = 1
    ∨ procs sv = [] →
  let self := localproc (valrange j) in
  (index self = 0 ∧ total self = 1 ∧
   startval self = 0 ∧ endval self = valrange j) ∧
  (∀ κ : prog R, sync self κ = κ) ∧
  (∀ name (κ : gmap Z pyval → prog R), getObjects self name κ = κ ∅) ∧
  (∀ name obj doExchange (κ : share_ret → prog R),
     shareObject self name obj doExchange κ = κ (ShareDict ∅)) ∧
  ∃ sv', system_step (Submit j) sv = Some sv' ∧
    procs sv' = procs sv ∧
    disp sv' = DIdle ∧
    resolved sv'
    = resolved sv ++
        [ResultMap {[ 0 := match target j self (args j) (kwargs j) with
                           | Ret v => Val v
                           | Throw e => Exc e
                           | Barrier _ | Publish _ _ _ _ | Lookup _ _ _ =>
                               Exc none_error
                           end ]}] ∧
    (∀ v, target j self (args j) (kwargs j) = Ret v →
       resolved sv' = resolved sv ++ [ResultMap {[ 0 := Val v ]}]) ∧
    (∀ e, target j self (args j) (kwargs j) = Throw e →
       resolved sv' = resolved sv ++ [ResultMap {[ 0 := Exc e ]}]).
Proof.
  intros Hidle Hlocal self. split; [done|]. split; [done|].
  split; [done|]. split; [done|].
  unfold system_step. rewrite Hidle. eexists. split; [done|].
  unfold submit.
  assert (bool_decide
            (resolve_numprocs (realnumprocs sv) (valrange j) (numprocs j) = 1)
          || bool_decide (length (procs sv) = 0%nat) = true) as ->.
  { destruct Hlocal as [H1|Hnil].
    - by rewrite bool_decide_eq_true_2.
    - rewrite Hnil. simpl. by rewrite orb_true_r. }
  simpl. split; [done|]. split; [done|].
  unfold run_local, eval_local. fold self. split; [|split].
  - by destruct (target j self (args j) (kwargs j)).
  - intros v Hv. by rewrite Hv.
  - intros e He. by rewrite He.
Qed.

Lemma submit_local_witness :
  let j := {| valrange := 100; numprocs := 1;
              target := λ p a kw, sync p (concurrencyTestProcessValues p a kw);
              args := []; kwargs := ∅; partitionArgs := [] |} in
  let sv := start_server (R := pyval) 4 in
  ∃ sv', system_step (Submit j) sv = Some sv' ∧
    procs sv' = procs sv ∧
    resolved sv'
    = [ResultMap {[ 0 := Val (PyTuple [PyInt 0; PyInt 0; PyInt 100]) ]}].
Proof.
  intros j sv.
  destruct (submit_local j sv) as (_ & _ & _ & _ & sv' & Hstep & Hp & _ & _ & Hv & _).
  - reflexivity.
  - left. reflexivity.
  - exists sv'. split; [done|]. split; [done|].
    apply (Hv (PyTuple [PyInt 0; PyInt 0; PyInt 100])). reflexivity.
Defined.

Example submit_local_example :
  resolved <$> system_step
    (Submit {| valrange := 100; numprocs := 1; target := concurrencyTestProcessValues;
               args := []; kwargs := ∅; partitionArgs := [] |})
    (start_server 4)
  = Some [ResultMap {[ 0 := Val (PyTuple [PyInt 0; PyInt 0; PyInt 100]) ]}].
Proof. reflexivity. Qed.

(** ** The polling loop of [ProcessServer.run] *)

Lemma slice_list_prefix {A} (l : list A) (k : Z) :
  0 ≤ k → slice_list l 0 k = take (Z.to_nat k) l.
Proof.
  intros Hk. unfold slice_list.
  assert (slice_bound (Z.of_nat (length l)) 0 = 0) as ->
    by (unfold slice_bound; simpl; lia).
  rewrite Z.sub_0_r. simpl. unfold slice_bound.
  destruct (Z.ltb_spec k 0); [lia|].
  destruct (decide (k ≤ Z.of_nat (length l))).
  - f_equal. lia.
  - rewrite (take_ge l (Z.to_nat k)) by lia. apply take_ge. lia.
Qed.

Lemma py_dict_snoc {A} (pairs : list (Z * A)) (p : Z * A) :
  py_dict (pairs ++ [p]) = <[p.1 := p.2]> (py_dict pairs).
Proof. unfold py_dict. by rewrite foldl_app. Qed.

(** With distinct keys, the dict holds exactly the pairs. *)
Lemma py_dict_lookup {A} (pairs : list (Z * A)) (i : Z) (r : A) :
  NoDup pairs.*1 → py_dict pairs !! i = Some r ↔ (i, r) ∈ pairs.
Proof.
  induction pairs as [|[j x] pairs IH] using rev_ind; intros Hnd.
  - unfold py_dict; simpl. rewrite lookup_empty. split; [done|].
    intros H. by apply elem_of_nil in H.
  - rewrite py_dict_snoc. simpl.
    rewrite fmap_app in Hnd. apply NoDup_app in Hnd as (Hnd & Hdisj & _).
    rewrite elem_of_app, list_elem_of_singleton.
    destruct (decide (i = j)) as [->|Hij].
    + rewrite lookup_insert_eq. split.
      * intros [= ->]. by right.
      * intros [Hin|[= ->]]; [|done]. exfalso.
        apply (Hdisj j); [|simpl; left].
        apply list_elem_of_fmap. by exists (j, r).
    + rewrite lookup_insert_ne by done. rewrite IH by done. split.
      * by left.
      * intros [?|[= -> ->]]; done.
Qed.

(** Pairs keyed by their position have distinct keys. *)
Lemma positional_NoDup {A} (pairs : list (Z * A)) :
  (∀ (n : nat) p, pairs !! n = Some p → p.1 = Z.of_nat n) →
  NoDup pairs.*1.
Proof.
  intros Hpos. apply NoDup_alt. intros n1 n2 j Hn1 Hn2.
  rewrite list_lookup_fmap in Hn1, Hn2.
  destruct (pairs !! n1) as [p1|] eqn:Hp1; [|done].
  destruct (pairs !! n2) as [p2|] eqn:Hp2; [|done].
  simpl in *. pose proof (Hpos _ _ Hp1). pose proof (Hpos _ _ Hp2).
  simplify_eq. lia.
Qed.

Lemma positional_dict_lookup {A} (pairs : list (Z * A)) (i : Z) :
  (∀ (n : nat) p, pairs !! n = Some p → p.1 = Z.of_nat n) →
  py_dict pairs !! i
  = if bool_decide (0 ≤ i) then snd <$> pairs !! Z.to_nat i else None.
Proof.
  intros Hpos. apply option_eq. intros r.
  rewrite py_dict_lookup by by apply positional_NoDup. split.
  - intros Hin. apply list_elem_of_lookup in Hin as [n Hn].
    pose proof (Hpos _ _ Hn) as Hk. simpl in Hk. subst i.
    rewrite bool_decide_eq_true_2 by lia. by rewrite Nat2Z.id, Hn.
  - case_bool_decide as Hi; [|done].
    destruct (pairs !! Z.to_nat i) as [[j x]|] eqn:Hp; [|done].
    intros [= <-]. pose proof (Hpos _ _ Hp) as Hj. simpl in Hj.
    apply list_elem_of_lookup. exists (Z.to_nat i).
    rewrite Hp. do 2 f_equal. lia.
Qed.

(** A process keeps its index whatever it does. *)
Lemma wstep_index {R} (s s' : Shared) (w w' : Worker R) :
  wstep s w = Some (s', w') → index (proc w') = index (proc w).
Proof.
  unfold wstep. intros H.
  destruct (st w) as [|c|k|k|].
  - destruct (continueRunning s); [|done].
    destruct (inbox w); [done|]. by simplify_eq/=.
  - destruct c; simplify_eq/=; try done.
    destruct (syncEvent (proc w)); [|by simplify_eq].
    destruct (sync_locked _ _ _). by simplify_eq.
  - destruct (syncEvent (proc w)); [|done].
    destruct (negb _); [by simplify_eq|].
    destruct (sync_wait _ _); by simplify_eq.
  - by simplify_eq.
  - by simplify_eq.
Qed.

Lemma work_step_frame {R} (i : nat) (sv sv' : Server R) :
  system_step (Work i) sv = Some sv' →
  disp sv' = disp sv ∧ resolved sv' = resolved sv ∧
  realnumprocs sv' = realnumprocs sv ∧
  length (procs sv') = length (procs sv) ∧
  (pool_wf sv → pool_wf sv').
Proof.
  unfold system_step. intros H.
  destruct (procs sv !! i) as [w|] eqn:Hw; [|done]. simpl in H.
  destruct (wstep (shared sv) w) as [[s' w']|] eqn:Hstep; [|done].
  simplify_eq/=. repeat split; try done.
  - by rewrite length_insert.
  - intros Hwf n w0 Hn. simpl in Hn.
    destruct (decide (n = i)) as [->|Hne].
    + rewrite list_lookup_insert_eq in Hn
        by (by eapply lookup_lt_Some). simplify_eq.
      rewrite (wstep_index _ _ _ _ Hstep). by apply Hwf.
    + rewrite list_lookup_insert_ne in Hn by done. by apply Hwf.
Qed.

Lemma run_schedule_cons {R} (a : action R) sched (sv : Server R) :
  run_schedule (a :: sched) sv = system_step a sv ≫= run_schedule sched.
Proof. done. Qed.

Lemma run_schedule_app {R} (s1 s2 : list (action R)) (sv : Server R) :
  run_schedule (s1 ++ s2) sv = run_schedule s1 sv ≫= run_schedule s2.
Proof.
  revert sv. induction s1 as [|a s1 IH]; intros sv; [done|].
  rewrite <-app_comm_cons, !run_schedule_cons.
  destruct (system_step a sv); [apply IH|done].
Qed.


Lemma recv_all {R} (ws : list (Worker R)) :
  any_not_ready ws = false →
  Forall2 (λ w p, p.1 = index (proc w) ∧ head (rsend w) = Some p.2) ws
          ((λ '(r, w), (index (proc w), r)) <$> omap recv_result ws).
Proof.
  induction ws as [|w ws IH]; simpl; intros Hready; [constructor|].
  apply orb_false_iff in Hready as [Hw Hws].
  unfold recv_result at 1. destruct (rsend w) as [|r rest] eqn:Hr; [done|].
  simpl. constructor; [|by apply IH]. simpl. by rewrite Hr.
Qed.

(** The dict the polling loop builds: for each of the first [k] processes,
    the object at the head of its result pipe. *)
Lemma collect_spec {R} (k : Z) (sv sv' : Server R) :
  pool_wf sv → 0 ≤ k → collect k sv = Some sv' →
  disp sv' = DIdle ∧
  ∃ m, resolved sv' = resolved sv ++ [ResultMap m] ∧
       ∀ i, m !! i = if bool_decide (0 ≤ i < k)
                     then pipe_head sv (Z.to_nat i) else None.
Proof.
  intros Hwf Hk. unfold collect. rewrite slice_list_prefix by done.
  destruct (any_not_ready _) eqn:Hready; [done|]. intros [= <-].
  split; [done|]. eexists. split; [done|]. intros i.
  pose proof (recv_all _ Hready) as Hall.
  set (pairs := (λ '(r, w), (index (proc w), r)) <$> _) in *.
  assert (∀ (n : nat) p, pairs !! n = Some p → p.1 = Z.of_nat n) as Hpos.
  { intros n p Hp.
    destruct (Forall2_lookup_r _ _ _ _ _ Hall Hp) as (w & Hw & -> & _).
    apply lookup_take_Some in Hw as [Hw _]. by apply Hwf. }
  rewrite positional_dict_lookup by done. unfold pipe_head.
  destruct (decide (0 ≤ i)) as [Hi|Hi];
    [|rewrite !bool_decide_eq_false_2 by lia; done].
  rewrite (bool_decide_eq_true_2 (0 ≤ i)) by done.
  destruct (decide (i < k)) as [Hik|Hik].
  - rewrite bool_decide_eq_true_2 by lia.
    destruct (procs sv !! Z.to_nat i) as [w|] eqn:Hw; simpl.
    + assert (take (Z.to_nat k) (procs sv) !! Z.to_nat i = Some w) as Hw'
        by (rewrite lookup_take_lt by lia; done).
      destruct (Forall2_lookup_l _ _ _ _ _ Hall Hw') as (p & -> & _ & Hp).
      by rewrite Hp.
    + destruct (pairs !! Z.to_nat i) as [p|] eqn:Hp; [|done].
      destruct (Forall2_lookup_r _ _ _ _ _ Hall Hp) as (w & Hw' & _).
      apply lookup_take_Some in Hw' as [Hw' _]. congruence.
  - rewrite bool_decide_eq_false_2 by lia.
    destruct (pairs !! Z.to_nat i) as [p|] eqn:Hp; [|done].
    destruct (Forall2_lookup_r _ _ _ _ _ Hall Hp) as (w & Hw' & _).
    apply lookup_take_Some in Hw' as [_ ?]. lia.
Qed.


(** The polling loop ends as soon as each of the first [k] pipes holds an
    object. *)
Lemma collect_enabled {R} (k : Z) (sv : Server R) :
  0 ≤ k ≤ Z.of_nat (length (procs sv)) →
  (∀ i, 0 ≤ i < k → is_Some (pipe_head sv (Z.to_nat i))) →
  is_Some (collect k sv).
Proof.
  intros Hk Hheads. unfold collect. rewrite slice_list_prefix by lia.
  destruct (any_not_ready _) eqn:Hready; [|by eexists].
  apply existsb_exists in Hready as (w & Hw & Hempty).
  apply list_elem_of_In, list_elem_of_lookup in Hw as [n Hn].
  apply lookup_take_Some in Hn as [Hn Hlt].
  destruct (Hheads (Z.of_nat n) ltac:(lia)) as [r Hr].
  unfold pipe_head in Hr. rewrite Nat2Z.id, Hn in Hr. simpl in Hr.
  by destruct (rsend w).
Qed.




Example future_values :
  resolved <$> run_schedule
    [Submit {| valrange := 50; numprocs := 4;
               target := concurrencyTestProcessValues;
               args := []; kwargs := ∅; partitionArgs := [] |};
     Work 3; Work 3; Work 0; Work 1; Work 2; Work 1; Work 0; Work 2;
     Collect]%nat
    (start_server 4)
  = Some [ResultMap
            (list_to_map
               [(0, Val (PyTuple [PyInt 0; PyInt 0; PyInt 12]));
                (1, Val (PyTuple [PyInt 1; PyInt 12; PyInt 25]));
                (2, Val (PyTuple [PyInt 2; PyInt 25; PyInt 37]));
                (3, Val (PyTuple [PyInt 3; PyInt 37; PyInt 50]))])].
Proof. by vm_compute. Qed.

(** ** The barrier and the failure of a process *)

(** Case analysis on one action of a process. *)
Ltac wstep_inv H :=
  unfold wstep in H;
  repeat match type of H with
  | context [match st ?w with _ => _ end] =>
      let c := fresh "c" in destruct (st w) as [|c| | |] eqn:?; [|destruct c| | |]
  | context [continueRunning ?s] => destruct (continueRunning s) eqn:?
  | context [match inbox ?w with _ => _ end] => destruct (inbox w) eqn:?
  | context [match syncEvent ?p with _ => _ end] =>
      destruct (syncEvent p) eqn:?
  | context [sync_locked ?t ?e ?s] =>
      let d := fresh "dowait" in
      destruct (sync_locked t e s) as [? d] eqn:?; destruct d
  | context [if sync_wait ?e ?s then _ else _] =>
      destruct (sync_wait e s) eqn:?
  end;
  simplify_eq/=.

(** Once the counter is negative the locked block changes nothing and asks
    for no wait. *)
Lemma sync_locked_failed (total : Z) (ev : Event) (s : Shared) :
  syncCounter s < 0 → sync_locked total ev s = (s, false).
Proof. intros. unfold sync_locked. by rewrite bool_decide_eq_true_2. Qed.

Lemma sync_wait_failed (ev : Event) (s : Shared) :
  syncCounter s < 0 → sync_wait ev s = false.
Proof.
  intros. unfold sync_wait. rewrite (bool_decide_eq_false_2 (0 ≤ _)) by lia.
  apply andb_false_r.
Qed.

Lemma sync_check_failed (s : Shared) :
  syncCounter s < 0 → sync_check s = Some sibling_exception.
Proof. intros. unfold sync_check. by rewrite bool_decide_eq_true_2. Qed.

(** A negative counter stays negative whatever a process does. *)
Lemma wstep_counter_neg {R} (s s' : Shared) (w w' : Worker R) :
  wstep s w = Some (s', w') → 0 ≤ total (proc w) →
  syncCounter s < 0 → syncCounter s' < 0.
Proof.
  intros H Ht Hneg. wstep_inv H; try done; try lia.
  all: match goal with
       | H : sync_locked _ _ _ = _ |- _ =>
           rewrite sync_locked_failed in H by done; by simplify_eq
       end.
Qed.

Lemma wstep_total_ok {R} (s s' : Shared) (w w' : Worker R) :
  wstep s w = Some (s', w') → total_ok w → total_ok w'.
Proof.
  intros H [Ht Hin]. unfold total_ok.
  wstep_inv H; try done.
  by apply Forall_cons in Hin.
Qed.

Lemma work_step_inv {R} (i : nat) (sv sv' : Server R) :
  system_step (Work i) sv = Some sv' →
  ∃ w s' w', procs sv !! i = Some w ∧
             wstep (shared sv) w = Some (s', w') ∧
             sv' = set_server sv s' (<[i := w']> (procs sv))
                              (disp sv) (resolved sv).
Proof.
  unfold system_step. intros H.
  destruct (procs sv !! i) as [w|] eqn:Hw; [|done]. simpl in H.
  destruct (wstep (shared sv) w) as [[s' w']|] eqn:Hstep; [|done].
  simplify_eq/=. by exists w, s', w'.
Qed.

(** A property of each process that every action keeps is kept by the
    pool. *)
Lemma work_step_Forall {R} (P : Worker R → Prop) (i : nat)
    (sv sv' : Server R) :
  (∀ s s' w w', wstep s w = Some (s', w') → P w → P w') →
  system_step (Work i) sv = Some sv' →
  Forall P (procs sv) → Forall P (procs sv').
Proof.
  intros HP Hstep Hall.
  destruct (work_step_inv _ _ _ Hstep) as (w & s' & w' & Hw & Hws & ->).
  simpl. apply Forall_insert; [done|].
  eapply HP; [done|]. by eapply Forall_lookup_1.
Qed.

(** After a failure was flagged, whatever the processes do: the counter
    stays negative, and a process with nothing to do stays as it is. *)
Lemma failed_stable {R} (sched : list (action R)) (sv sv' : Server R) :
  totals_ok sv → syncCounter (shared sv) < 0 →
  forallb is_work sched = true →
  run_schedule sched sv = Some sv' →
  syncCounter (shared sv') < 0 ∧
  disp sv' = disp sv ∧ resolved sv' = resolved sv ∧
  (pool_wf sv → pool_wf sv') ∧
  ∀ (j : nat) w, procs sv !! j = Some w → (∀ s, wstep s w = None) →
                 procs sv' !! j = Some w.
Proof.
  revert sv. induction sched as [|a sched IH]; intros sv Hok Hneg Hw Hrun.
  - by simplify_eq/=.
  - simpl in Hw. apply andb_true_iff in Hw as [Ha Hw].
    rewrite run_schedule_cons in Hrun.
    destruct (system_step a sv) as [sv1|] eqn:Hstep; [|done]. simpl in Hrun.
    destruct a as [|i| |]; try done.
    destruct (work_step_frame _ _ _ Hstep) as (Hd & Hr & _ & _ & Hwf1).
    pose proof (work_step_Forall total_ok _ _ _ wstep_total_ok Hstep Hok)
      as Hok1.
    destruct (work_step_inv _ _ _ Hstep) as (w & s' & w' & Hwi & Hws & ->).
    assert (syncCounter s' < 0) as Hneg1.
    { eapply wstep_counter_neg; [done| |done].
      by apply (Forall_lookup_1 _ _ _ _ Hok Hwi). }
    destruct (IH _ Hok1 Hneg1 Hw Hrun) as (? & ? & ? & Hwf' & Hkeep).
    split; [done|]. split; [congruence|]. split; [congruence|].
    split; [by auto|].
    intros j wj Hj Hblocked. apply Hkeep; [|done]. simpl.
    destruct (decide (j = i)) as [->|Hne].
    + rewrite Hwi in Hj. simplify_eq. by rewrite Hblocked in Hws.
    + by rewrite list_lookup_insert_ne.
Qed.

(** No action of a process sets [stopEvent] or clears it. *)
Lemma wstep_continueRunning {R} (s s' : Shared) (w w' : Worker R) :
  wstep s w = Some (s', w') → continueRunning s' = continueRunning s.
Proof.
  intros H. wstep_inv H; try done; try congruence.
  all: match goal with
       | H : sync_locked _ ?ev _ = _ |- _ =>
           unfold sync_locked in H; destruct ev;
           repeat case_bool_decide; by simplify_eq/=
       end.
Qed.

(** After a failure was flagged no process is held up: each one that is on
    its way to a result can go on to it. *)
Lemma work_step_intro {R} (i : nat) (sv : Server R) (w w' : Worker R)
    (s' : Shared) :
  procs sv !! i = Some w → wstep (shared sv) w = Some (s', w') →
  system_step (Work i) sv
  = Some (set_server sv s' (<[i := w']> (procs sv)) (disp sv) (resolved sv)).
Proof. intros Hw Hws. unfold system_step. by rewrite Hw; simpl; rewrite Hws. Qed.

Lemma can_deliver_now {R} (i : nat) (sv : Server R) :
  is_Some (pipe_head sv i) → can_deliver i sv.
Proof. intros Hp. by exists [], sv. Qed.

Lemma can_deliver_step {R} (i : nat) (sv sv1 : Server R) :
  system_step (Work i) sv = Some sv1 → can_deliver i sv1 → can_deliver i sv.
Proof.
  intros Hstep (sched & sv' & Hwork & Hrun & Hp & Hfr).
  exists (Work i :: sched), sv'. split; [done|].
  split; [by rewrite run_schedule_cons, Hstep|]. split; [done|].
  intros i' Hne. rewrite (Hfr i' Hne).
  destruct (work_step_inv _ _ _ Hstep) as (w & s' & w' & _ & _ & ->).
  simpl. by rewrite list_lookup_insert_ne.
Qed.

(** A process that sends an object has one in its pipe. *)
Lemma can_deliver_send {R} (i : nat) (sv : Server R) (w : Worker R)
    (r : pyres R) (st' : wstate R) :
  procs sv !! i = Some w →
  wstep (shared sv) w = Some (shared sv, send_result w r st') →
  can_deliver i sv.
Proof.
  intros Hw Hws.
  eapply can_deliver_step; [by apply (work_step_intro i sv w)|].
  apply can_deliver_now. unfold pipe_head. simpl.
  rewrite list_lookup_insert_eq by (by eapply lookup_lt_Some). simpl.
  destruct (rsend w); by eexists.
Qed.

Lemma can_deliver_throw {R} (i : nat) (sv : Server R) (w : Worker R)
    (e : exn) :
  procs sv !! i = Some w → st w = WRun (Throw e) → can_deliver i sv.
Proof.
  intros Hw Hst. apply (can_deliver_send i sv w (Exc e) WFlag Hw).
  unfold wstep. by rewrite Hst.
Qed.

Lemma can_deliver_leave {R} (i : nat) (sv : Server R) (w : Worker R)
    (κ : prog R) :
  syncCounter (shared sv) < 0 →
  procs sv !! i = Some w → st w = WSyncLeave κ → can_deliver i sv.
Proof.
  intros Hneg Hw Hst.
  eapply can_deliver_step.
  { apply (work_step_intro i sv w); [done|]. unfold wstep. rewrite Hst.
    by rewrite sync_check_failed. }
  eapply can_deliver_throw;
    [simpl; apply list_lookup_insert_eq; by eapply lookup_lt_Some|done].
Qed.

Lemma can_deliver_run {R} (i : nat) (c : prog R) :
  ∀ (sv : Server R) (w : Worker R),
  syncCounter (shared sv) < 0 →
  procs sv !! i = Some w → st w = WRun c → can_deliver i sv.
Proof.
  induction c as [v|e|κ IH|idx n o κ IH|n x κ IH]; intros sv w Hneg Hw Hst.
  - apply (can_deliver_send i sv w (Val v) WIdle Hw).
    unfold wstep. by rewrite Hst.
  - by eapply can_deliver_throw.
  - destruct (syncEvent (proc w)) as [ev|] eqn:Hev.
    + eapply can_deliver_step.
      { apply (work_step_intro i sv w); [done|]. unfold wstep.
        rewrite Hst, Hev. by rewrite sync_locked_failed. }
      eapply can_deliver_leave;
        [done|simpl; apply list_lookup_insert_eq; by eapply lookup_lt_Some|done].
    + eapply can_deliver_step.
      { apply (work_step_intro i sv w); [done|]. unfold wstep.
        by rewrite Hst, Hev. }
      eapply can_deliver_throw;
        [simpl; apply list_lookup_insert_eq; by eapply lookup_lt_Some|done].
  - eapply can_deliver_step.
    { apply (work_step_intro i sv w); [done|]. unfold wstep. by rewrite Hst. }
    eapply IH;
      [done|simpl; apply list_lookup_insert_eq; by eapply lookup_lt_Some|done].
  - eapply can_deliver_step.
    { apply (work_step_intro i sv w); [done|]. unfold wstep. by rewrite Hst. }
    eapply IH;
      [done|simpl; apply list_lookup_insert_eq; by eapply lookup_lt_Some|done].
Qed.

Lemma can_deliver_idle {R} (i : nat) (sv : Server R) (w : Worker R) :
  syncCounter (shared sv) < 0 → continueRunning (shared sv) = true →
  procs sv !! i = Some w → st w = WIdle → inbox w ≠ [] → can_deliver i sv.
Proof.
  intros Hneg Hrun Hw Hst Hin.
  destruct (inbox w) as [|m rest] eqn:Hinbox; [done|].
  eapply can_deliver_step.
  { apply (work_step_intro i sv w); [done|]. unfold wstep.
    by rewrite Hst, Hrun, Hinbox. }
  eapply can_deliver_run;
    [done|simpl; apply list_lookup_insert_eq; by eapply lookup_lt_Some|done].
Qed.

Lemma can_deliver_delivers {R} (i : nat) (sv : Server R) (w : Worker R) :
  syncCounter (shared sv) < 0 → continueRunning (shared sv) = true →
  total_ok w →
  procs sv !! i = Some w → delivers w → can_deliver i sv.
Proof.
  intros Hneg Hrun [Htot _] Hw [Hout|Hst].
  { apply can_deliver_now. unfold pipe_head. rewrite Hw. simpl.
    destruct (rsend w); [done|by eexists]. }
  destruct (st w) as [|c|κ|κ|] eqn:Hs.
  - by eapply can_deliver_idle.
  - by eapply can_deliver_run.
  - destruct Hst as [ev Hev]. eapply can_deliver_step.
    { apply (work_step_intro i sv w); [done|]. unfold wstep.
      rewrite Hs, Hev, Hrun. simpl. by rewrite sync_wait_failed. }
    eapply can_deliver_leave;
      [done|simpl; apply list_lookup_insert_eq; by eapply lookup_lt_Some|done].
  - by eapply can_deliver_leave.
  - eapply can_deliver_step.
    { apply (work_step_intro i sv w); [done|]. unfold wstep. by rewrite Hs. }
    eapply can_deliver_idle;
      [simpl; lia|done
      |simpl; apply list_lookup_insert_eq; by eapply lookup_lt_Some
      |done|done].
Qed.

(** What a process does keeps it on its way to a result. *)
Lemma wstep_delivers {R} (s s' : Shared) (w w' : Worker R) :
  wstep s w = Some (s', w') → delivers w → delivers w'.
Proof.
  intros H [Hout|Hst]; unfold delivers in *.
  - left. wstep_inv H; simpl; try done.
    all: by destruct (rsend w).
  - wstep_inv H; simpl; try (by right); try (by left; destruct (rsend w)).
    all: right; simpl; by eauto.
Qed.

(** After a failure was flagged, whatever the processes do, they stay
    as fit to deliver as they were, and what is in a pipe stays there. *)
Lemma after_failure_sched {R} (k : Z) (sched : list (action R))
    (sv sv' : Server R) :
  totals_ok sv → syncCounter (shared sv) < 0 →
  continueRunning (shared sv) = true →
  (∀ (i : nat) w, procs sv !! i = Some w → Z.of_nat i < k → delivers w) →
  forallb is_work sched = true →
  run_schedule sched sv = Some sv' →
  totals_ok sv' ∧ syncCounter (shared sv') < 0 ∧
  continueRunning (shared sv') = true ∧
  length (procs sv') = length (procs sv) ∧
  (∀ (i : nat) w, procs sv' !! i = Some w → Z.of_nat i < k → delivers w).
Proof.
  revert sv. induction sched as [|a sched IH];
    intros sv Hok Hneg Hrun Hdel Hwork Hsched.
  - by simplify_eq/=.
  - simpl in Hwork. apply andb_true_iff in Hwork as [Ha Hwork].
    rewrite run_schedule_cons in Hsched.
    destruct (system_step a sv) as [sv1|] eqn:Hstep; [|done].
    simpl in Hsched. destruct a as [|i| |]; try done.
    pose proof (work_step_Forall total_ok _ _ _ wstep_total_ok Hstep Hok)
      as Hok1.
    destruct (work_step_frame _ _ _ Hstep) as (_ & _ & _ & Hlen & _).
    destruct (work_step_inv _ _ _ Hstep) as (w & s' & w' & Hwi & Hws & ->).
    destruct (IH _ Hok1) as (? & ? & ? & Hlen' & ?); try done.
    + simpl. eapply wstep_counter_neg; [done| |done].
      by apply (Forall_lookup_1 _ _ _ _ Hok Hwi).
    + simpl. by rewrite (wstep_continueRunning _ _ _ _ Hws).
    + intros n wn Hn Hnk. simpl in Hn.
      destruct (decide (n = i)) as [->|Hne].
      * rewrite list_lookup_insert_eq in Hn by (by eapply lookup_lt_Some).
        simplify_eq. eapply wstep_delivers; [done|]. by apply (Hdel i).
      * rewrite list_lookup_insert_ne in Hn by done. by apply (Hdel n).
    + repeat split; try done. by rewrite Hlen'.
Qed.

(** After a failure was flagged the processes of the job can go on until
    each of their pipes holds an object. *)
Lemma after_failure_complete {R} (k : Z) (n : nat) (sv : Server R) :
  totals_ok sv → syncCounter (shared sv) < 0 →
  continueRunning (shared sv) = true →
  k ≤ Z.of_nat (length (procs sv)) →
  (∀ (i : nat) w, procs sv !! i = Some w → Z.of_nat i < k → delivers w) →
  Z.of_nat n ≤ k →
  ∃ sched sv',
    forallb is_work sched = true ∧
    run_schedule sched sv = Some sv' ∧
    ∀ i : nat, (i < n)%nat → is_Some (pipe_head sv' i).
Proof.
  intros Hok Hneg Hrun Hsize Hdel. induction n as [|n IH]; intros Hn.
  - exists [], sv. split; [done|]. split; [done|]. intros i Hi. lia.
  - destruct IH as (sched & sv1 & Hwork & Hsched & Hpipes); [lia|].
    destruct (after_failure_sched k sched sv sv1 Hok Hneg Hrun Hdel Hwork Hsched)
      as (Hok1 & Hneg1 & Hrun1 & Hlen1 & Hdel1).
    destruct (lookup_lt_is_Some_2 (procs sv1) n ltac:(lia)) as [w Hw].
    destruct (can_deliver_delivers n sv1 w Hneg1 Hrun1
                (Forall_lookup_1 _ _ _ _ Hok1 Hw) Hw (Hdel1 n w Hw ltac:(lia)))
      as (sched2 & sv2 & Hwork2 & Hsched2 & Hp & Hfr).
    exists (sched ++ sched2), sv2.
    split; [by rewrite forallb_app, Hwork, Hwork2|].
    split; [by rewrite run_schedule_app, Hsched|].
    intros i Hi. destruct (decide (i = n)) as [->|Hne]; [done|].
    unfold pipe_head. rewrite (Hfr i Hne). apply Hpipes. lia.
Qed.

(** C2.  In a job over [k] processes, when the target of process [j]
    raised [e]: process [j] sends [e] back as its result, then sets the
    counter to [-(k+1)].  From then on, whatever the processes do, the counter
    is negative; a process that calls [sync()] leaves the locked block without
    waiting, one inside the wait loop leaves it, and both raise the
    sibling-failure exception; whenever the polling loop ends, the dict the
    Future of the job is set to holds [e] under [j]; and the polling loop can
    end: each process of the job being on its way to a result, the processes
    can go on until every pipe holds an object, and the Future is then set
    to a dict that holds [e] under [j]. *)
Theorem failure_fan_out {R} (sv : Server R) (k : Z) (j : nat)
    (w : Worker R) (e : exn) :
  disp sv = DPolling k → pool_wf sv → totals_ok sv →
  continueRunning (shared sv) = true →
  k ≤ Z.of_nat (length (procs sv)) →
  (∀ (i : nat) wi, procs sv !! i = Some wi → Z.of_nat i < k → delivers wi) →
  Z.of_nat j < k →
  procs sv !! j = Some w →
  st w = WRun (Throw e) → total (proc w) = k →
  inbox w = [] → rsend w = [] →
  ∃ sv1 sv2,
    system_step (Work j) sv = Some sv1 ∧
    pipe_head sv1 j = Some (Exc e) ∧
    shared sv1 = shared sv ∧
    system_step (Work j) sv1 = Some sv2 ∧
    syncCounter (shared sv2) = - (k + 1) ∧
    ∀ sched sv',
      forallb is_work sched = true →
      run_schedule sched sv2 = Some sv' →
      syncCounter (shared sv') < 0 ∧
      (∀ (i : nat) wi ev κ,
         procs sv' !! i = Some wi → syncEvent (proc wi) = Some ev →
         (st wi = WRun (Barrier κ) ∨ st wi = WSyncWait κ →
          wstep (shared sv') wi
          = Some (shared sv', set_st wi (proc wi) (WSyncLeave κ))) ∧
         (st wi = WSyncLeave κ →
          wstep (shared sv') wi
          = Some (shared sv',
                  set_st wi (swap_events (proc wi))
                         (WRun (Throw sibling_exception))))) ∧
      (∀ sv'', system_step Collect sv' = Some sv'' →
         ∃ m, resolved sv'' = resolved sv' ++ [ResultMap m] ∧
              m !! Z.of_nat j = Some (Exc e)) ∧
      ∃ sched' sv1' sv'' m,
        forallb is_work sched' = true ∧
        run_schedule sched' sv' = Some sv1' ∧
        system_step Collect sv1' = Some sv'' ∧
        resolved sv'' = resolved sv ++ [ResultMap m] ∧
        m !! Z.of_nat j = Some (Exc e).
Proof.
  intros Hpoll Hwf Hok Hrunning Hsize Hdel Hjk Hw Hst Htot Hin Hout.
  set (w1 := send_result w (Exc e) WFlag).
  set (sv1 := set_server sv (shared sv) (<[j := w1]> (procs sv))
                         (disp sv) (resolved sv)).
  set (w2 := set_st w1 (proc w1) WIdle).
  set (sv2 := set_server sv1 (set_counter (- total (proc w1) - 1) (shared sv1))
                         (<[j := w2]> (procs sv1))
                         (disp sv1) (resolved sv1)).
  assert (j < length (procs sv))%nat as Hlt by (by eapply lookup_lt_Some).
  assert (system_step (Work j) sv = Some sv1) as Hs1.
  { unfold system_step. rewrite Hw. simpl. unfold wstep. by rewrite Hst. }
  assert (procs sv1 !! j = Some w1) as Hw1
    by (simpl; by rewrite list_lookup_insert_eq).
  assert (system_step (Work j) sv1 = Some sv2) as Hs2.
  { unfold system_step. rewrite Hw1. done. }
  assert (procs sv2 !! j = Some w2) as Hw2.
  { simpl. rewrite list_lookup_insert_eq; [done|]. by rewrite length_insert. }
  exists sv1, sv2. split; [done|].
  split. { unfold pipe_head. rewrite Hw1. simpl. by rewrite Hout. }
  split; [done|]. split; [done|].
  split. { simpl. rewrite Htot. lia. }
  destruct (work_step_frame _ _ _ Hs1) as (_ & _ & _ & _ & Hwf1).
  destruct (work_step_frame _ _ _ Hs2) as (_ & _ & _ & _ & Hwf2).
  pose proof (work_step_Forall total_ok _ _ _ wstep_total_ok Hs1 Hok) as Hok1.
  pose proof (work_step_Forall total_ok _ _ _ wstep_total_ok Hs2 Hok1) as Hok2.
  assert (syncCounter (shared sv2) < 0) as Hneg2.
  { simpl. pose proof (Forall_lookup_1 _ _ _ _ Hok Hw) as [? _]. lia. }
  assert (∀ (i : nat) wi, procs sv2 !! i = Some wi → Z.of_nat i < k →
                          delivers wi) as Hdel2.
  { intros i wi Hi Hik. simpl in Hi.
    destruct (decide (i = j)) as [->|Hne].
    - rewrite list_lookup_insert_eq in Hi by (by rewrite length_insert).
      simplify_eq. left. simpl. by rewrite Hout.
    - rewrite !list_lookup_insert_ne in Hi by done. by apply (Hdel i). }
  assert (∀ sched sv',
            forallb is_work sched = true →
            run_schedule sched sv2 = Some sv' →
            ∀ sv'', system_step Collect sv' = Some sv'' →
              ∃ m, resolved sv'' = resolved sv' ++ [ResultMap m] ∧
                   m !! Z.of_nat j = Some (Exc e)) as Hmap.
  { intros sched sv' Hwork Hrun sv'' Hcollect.
    destruct (failed_stable _ _ _ Hok2 Hneg2 Hwork Hrun)
      as (_ & Hd & _ & Hwf' & Hkeep).
    unfold system_step in Hcollect.
    rewrite Hd in Hcollect. simpl in Hcollect. rewrite Hpoll in Hcollect.
    destruct (collect_spec k sv' sv'' (Hwf' (Hwf2 (Hwf1 Hwf)))
                ltac:(lia) Hcollect) as (_ & m & Hm & Hlook).
    exists m. split; [done|]. rewrite Hlook.
    rewrite bool_decide_eq_true_2 by lia. rewrite Nat2Z.id.
    unfold pipe_head. rewrite (Hkeep j w2 Hw2).
    + simpl. by rewrite Hout.
    + intros s. unfold wstep. simpl. rewrite Hin.
      by destruct (continueRunning s). }
  intros sched sv' Hwork Hrun.
  destruct (failed_stable _ _ _ Hok2 Hneg2 Hwork Hrun)
    as (Hneg & Hd & Hr & Hwf' & Hkeep).
  split; [done|]. split; [|split].
  - intros i wi ev κ Hwi Hev. split.
    + intros [Hb|Hb]; unfold wstep; rewrite Hb, Hev.
      * by rewrite sync_locked_failed.
      * rewrite sync_wait_failed by done. by destruct (negb _).
    + intros Hb. unfold wstep. rewrite Hb.
      by rewrite sync_check_failed.
  - by apply (Hmap sched sv').
  - destruct (after_failure_sched k sched sv2 sv' Hok2 Hneg2 Hrunning Hdel2
                Hwork Hrun) as (Hok' & _ & Hrun' & Hlen' & Hdel').
    assert (length (procs sv2) = length (procs sv)) as Hlen2
      by (simpl; by rewrite !length_insert).
    destruct (after_failure_complete k (Z.to_nat k) sv' Hok' Hneg Hrun'
                ltac:(lia) Hdel' ltac:(lia))
      as (sched' & sv1' & Hwork' & Hrun1 & Hpipes).
    destruct (after_failure_sched k sched' sv' sv1' Hok' Hneg Hrun' Hdel'
                Hwork' Hrun1) as (_ & Hneg1 & _ & Hlen1 & _).
    destruct (failed_stable _ _ _ Hok' Hneg Hwork' Hrun1)
      as (_ & Hd1 & Hr1 & _ & _).
    destruct (collect_enabled k sv1') as [sv'' Hcollect].
    { lia. }
    { intros i Hi. apply Hpipes. lia. }
    assert (system_step Collect sv1' = Some sv'') as Hstep.
    { unfold system_step. rewrite Hd1, Hd. simpl. by rewrite Hpoll. }
    destruct (Hmap (sched ++ sched') sv1') with (sv'' := sv'')
      as (m & Hm & Hlook).
    { by rewrite forallb_app, Hwork, Hwork'. }
    { by rewrite run_schedule_app, Hrun. }
    { done. }
    exists sched', sv1', sv'', m. split; [done|]. split; [done|].
    split; [done|]. split; [|done].
    rewrite Hm, Hr1, Hr. done.
Qed.

Lemma failure_fan_out_witness :
  let e := Exn "ValueError" "bad value" in
  let sv := state_after 2 [Submit (plain_job (fail_or_sync e) 2); Work 0%nat] in
  ∃ sv1 sv2,
    system_step (Work 0) sv = Some sv1 ∧
    pipe_head sv1 0 = Some (Exc e) ∧
    shared sv1 = shared sv ∧
    system_step (Work 0) sv1 = Some sv2 ∧
    syncCounter (shared sv2) = - (2 + 1) ∧
    ∀ sched sv',
      forallb is_work sched = true →
      run_schedule sched sv2 = Some sv' →
      syncCounter (shared sv') < 0 ∧
      (∀ (i : nat) wi ev κ,
         procs sv' !! i = Some wi → syncEvent (proc wi) = Some ev →
         (st wi = WRun (Barrier κ) ∨ st wi = WSyncWait κ →
          wstep (shared sv') wi
          = Some (shared sv', set_st wi (proc wi) (WSyncLeave κ))) ∧
         (st wi = WSyncLeave κ →
          wstep (shared sv') wi
          = Some (shared sv',
                  set_st wi (swap_events (proc wi))
                         (WRun (Throw sibling_exception))))) ∧
      (∀ sv'', system_step Collect sv' = Some sv'' →
         ∃ m, resolved sv'' = resolved sv' ++ [ResultMap m] ∧
              m !! Z.of_nat 0 = Some (Exc e)) ∧
      ∃ sched' sv1' sv'' m,
        forallb is_work sched' = true ∧
        run_schedule sched' sv' = Some sv1' ∧
        system_step Collect sv1' = Some sv'' ∧
        resolved sv'' = resolved sv ++ [ResultMap m] ∧
        m !! Z.of_nat 0 = Some (Exc e).
Proof.
  intros e sv.
  eapply (failure_fan_out sv 2 0 _ e).
  - reflexivity.
  - intros [|[|i]] w Hw; vm_compute in Hw; by simplify_eq.
  - repeat constructor; vm_compute; discriminate.
  - reflexivity.
  - vm_compute. discriminate.
  - intros [|[|i]] w Hw Hi; vm_compute in Hw; simplify_eq;
      right; simpl; done.
  - lia.
  - reflexivity.
  - reflexivity.
  - reflexivity.
  - reflexivity.
  - reflexivity.
Defined.

(** A run to the end: process 1, which calls [sync()] after the failure of
    process 0 was flagged, ends with the sibling-failure exception. *)
Example failure_fan_out_run :
  resolved <$> run_schedule
    [Submit (plain_job (fail_or_sync (Exn "ValueError" "bad value")) 2);
     Work 0; Work 0; Work 0; Work 1; Work 1; Work 1; Work 1; Work 1;
     Collect]%nat
    (start_server 2)
  = Some [ResultMap (list_to_map
            [(0, Exc (Exn "ValueError" "bad value"));
             (1, Exc sibling_exception)])].
Proof. by vm_compute. Qed.

(** ** The counter of the barrier *)

Lemma set_event_counter (ev : Event) (b : bool) (s : Shared) :
  syncCounter (set_event ev b s) = syncCounter s.
Proof. by destruct ev. Qed.

Lemma is_set_set_event (ev ev' : Event) (b : bool) (s : Shared) :
  is_set ev' (set_event ev b s) = if decide (ev' = ev) then b else is_set ev' s.
Proof. by destruct ev, ev'. Qed.

Lemma is_set_set_counter (ev : Event) (v : Z) (s : Shared) :
  is_set ev (set_counter v s) = is_set ev s.
Proof. by destruct ev. Qed.

(** An arrival moves the counter one step around [0 .. k-1]. *)
Lemma sync_locked_counter (k : Z) (ev : Event) (s : Shared) :
  0 ≤ syncCounter s < k →
  syncCounter (sync_locked k ev s).1 = (syncCounter s + 1) mod k.
Proof.
  intros Hc. unfold sync_locked.
  rewrite bool_decide_eq_false_2 by lia.
  case_bool_decide as Hlast; simpl in *.
  - destruct (bool_decide (syncCounter s = 0));
      rewrite ?set_event_counter in *; rewrite Z.mod_small; lia.
  - destruct (bool_decide (syncCounter s = 0));
      rewrite ?set_event_counter in *;
      replace (syncCounter s + 1) with k by lia;
      by rewrite Z_mod_same_full.
Qed.

(** The first arrival of a round clears the event and waits. *)
Lemma sync_locked_first (k : Z) (ev : Event) (s : Shared) :
  syncCounter s = 0 → 1 < k →
  sync_locked k ev s = (set_counter 1 (set_event ev false s), true).
Proof.
  intros Hc Hk. unfold sync_locked.
  rewrite bool_decide_eq_false_2 by lia.
  rewrite (bool_decide_eq_true_2 (syncCounter s = 0)) by done.
  simpl. rewrite set_event_counter, Hc. simpl.
  by rewrite bool_decide_eq_true_2 by lia.
Qed.

(** A later arrival that is not the last counts itself and waits. *)
Lemma sync_locked_middle (k : Z) (ev : Event) (s : Shared) :
  0 < syncCounter s → syncCounter s + 1 < k →
  sync_locked k ev s = (set_counter (syncCounter s + 1) s, true).
Proof.
  intros Hc Hk. unfold sync_locked.
  rewrite bool_decide_eq_false_2 by lia.
  rewrite (bool_decide_eq_false_2 (syncCounter s = 0)) by lia.
  simpl. by rewrite bool_decide_eq_true_2 by lia.
Qed.

(** The last arrival sets the event, resets the counter and does not wait. *)
Lemma sync_locked_last (k : Z) (ev : Event) (s : Shared) :
  0 < syncCounter s → syncCounter s + 1 = k →
  sync_locked k ev s
  = (set_counter 0 (set_event ev true (set_counter k s)), false).
Proof.
  intros Hc Hk. unfold sync_locked.
  rewrite bool_decide_eq_false_2 by lia.
  rewrite (bool_decide_eq_false_2 (syncCounter s = 0)) by lia.
  simpl. rewrite bool_decide_eq_false_2 by lia. by rewrite Hk.
Qed.

Lemma wstep_on_job {R} (k : Z) (s s' : Shared) (w w' : Worker R) :
  wstep s w = Some (s', w') → on_job k w → on_job k w'.
Proof.
  intros H [Ht Hin]. unfold on_job.
  wstep_inv H; try (split; [by (left + right)|done]);
    try (destruct Ht as [Ht|Ht]; [congruence|]; split; [by right|done]).
  apply Forall_cons in Hin as [? ?]. split; [by right|done].
Qed.

(** Unless it flags a failure, a process on a job over [k] processes moves
    the counter by one when it arrives at the barrier, and leaves it alone
    otherwise. *)
Lemma wstep_counter_law {R} (k : Z) (s s' : Shared) (w w' : Worker R) :
  wstep s w = Some (s', w') → at_flag w = false → on_job k w →
  0 ≤ syncCounter s < k →
  syncCounter s'
  = (syncCounter s + if at_barrier w then 1 else 0) mod k.
Proof.
  intros H Hflag [Ht _] Hc. unfold at_flag, at_barrier in *.
  wstep_inv H;
    repeat match goal with
    | H : st w = _ |- _ => rewrite H in *
    | H : syncEvent _ = _ |- _ => rewrite H in *
    end; simpl; try done;
    rewrite ?Z.add_0_r; try (rewrite Z.mod_small; [done|lia]).
  all: destruct Ht as [Ht|Ht]; [done|]; rewrite Ht in *;
    match goal with
    | H : sync_locked _ ?ev ?s = _ |- _ =>
        pose proof (sync_locked_counter k ev s Hc) as Hlaw;
        by rewrite H in Hlaw
    end.
Qed.

Lemma count_steps_cons {R} (P : Worker R → bool) (a : action R) sched
    (sv sv' : Server R) :
  system_step a sv = Some sv' →
  count_steps P (a :: sched) sv
  = ((if from_option P false (acting a sv) then 1 else 0)
     + count_steps P sched sv')%nat.
Proof. intros H. simpl. by rewrite H. Qed.

(** Along a schedule without a flagged failure, the counter is the number
    of arrivals modulo [k]. *)
Lemma counter_law {R} (k : Z) (sched : list (action R)) (sv sv' : Server R) :
  job_inv k sv → 0 ≤ syncCounter (shared sv) < k →
  forallb is_work sched = true →
  run_schedule sched sv = Some sv' →
  failures sched sv = 0%nat →
  syncCounter (shared sv')
  = (syncCounter (shared sv) + Z.of_nat (arrivals sched sv)) mod k.
Proof.
  revert sv. induction sched as [|a sched IH];
    intros sv Hinv Hc Hwork Hrun Hfail.
  - simplify_eq/=. rewrite Z.add_0_r. by rewrite Z.mod_small.
  - simpl in Hwork. apply andb_true_iff in Hwork as [Ha Hwork].
    rewrite run_schedule_cons in Hrun.
    destruct (system_step a sv) as [sv1|] eqn:Hstep; [|done]. simpl in Hrun.
    unfold failures, arrivals in *.
    rewrite (count_steps_cons _ _ _ _ _ Hstep) in Hfail.
    rewrite (count_steps_cons _ _ _ _ _ Hstep).
    destruct a as [|i| |]; try done.
    pose proof (work_step_Forall (on_job k) _ _ _ (wstep_on_job k) Hstep Hinv)
      as Hinv1.
    destruct (work_step_inv _ _ _ Hstep) as (w & s' & w' & Hwi & Hws & ->).
    simpl in Hfail |- *. rewrite Hwi in Hfail |- *. simpl in Hfail |- *.
    destruct (at_flag w) eqn:Hflag; [done|]. simpl in Hfail.
    pose proof (wstep_counter_law k _ _ _ _ Hws Hflag
                  (Forall_lookup_1 _ _ _ _ Hinv Hwi) Hc) as Hlaw.
    assert (0 < k) as Hk by lia.
    rewrite (IH _ Hinv1); [|simpl; rewrite Hlaw; by apply Z.mod_pos_bound
                           |done|done|done].
    simpl. rewrite Hlaw. rewrite Zplus_mod_idemp_l. f_equal.
    destruct (at_barrier w); lia.
Qed.

Lemma send_jobs_idle {R} (j : Job R) (k : Z) (indices : list Z)
    (ps : list (Worker R)) :
  Forall (λ w, st w = WIdle ∧ Forall (λ m, job_total m = k) (inbox w)) ps →
  Forall (λ w, st w = WIdle ∧ Forall (λ m, job_total m = k) (inbox w))
         (send_jobs j k indices ps).1.
Proof.
  revert ps. induction indices as [|i indices IH]; intros ps Hps; [done|].
  simpl. destruct (prepareArgs _ _ _ _) as [pargs|e]; [|done].
  destruct (ps !! Z.to_nat i) as [w|] eqn:Hw; [|done].
  apply IH. apply Forall_insert; [done|].
  destruct (Forall_lookup_1 _ _ _ _ Hps Hw) as [Hst Hin].
  split; [done|]. simpl. apply Forall_app. split; [done|].
  by repeat constructor.
Qed.

(** The shared state and the processes after [submit] in the branch that
    uses the processes. *)
Lemma submit_multi {R} (j : Job R) (sv : Server R) :
  resolve_numprocs (realnumprocs sv) (valrange j) (numprocs j) ≠ 1 →
  procs sv ≠ [] →
  shared (submit j sv) = set_counter 0 (set_objmap ∅ (shared sv)) ∧
  procs (submit j sv)
  = (send_jobs j (resolve_numprocs (realnumprocs sv) (valrange j) (numprocs j))
       (seqZ 0 (resolve_numprocs (realnumprocs sv) (valrange j) (numprocs j)))
       (procs sv)).1.
Proof.
  intros Hk Hps. unfold submit.
  rewrite (bool_decide_eq_false_2 (_ = 1)) by done.
  rewrite bool_decide_eq_false_2 by (by destruct (procs sv)).
  simpl. by destruct (send_jobs _ _ _ _) as [ps [e|]].
Qed.

Lemma submit_job_inv {R} (j : Job R) (sv : Server R) :
  quiescent sv →
  resolve_numprocs (realnumprocs sv) (valrange j) (numprocs j) ≠ 1 →
  procs sv ≠ [] →
  job_inv (resolve_numprocs (realnumprocs sv) (valrange j) (numprocs j))
          (submit j sv).
Proof.
  intros Hq Hk Hps. unfold job_inv.
  destruct (submit_multi j sv Hk Hps) as [_ ->].
  eapply Forall_impl; [apply send_jobs_idle|].
  - eapply Forall_impl; [exact Hq|]. intros w [-> ->]. by split.
  - intros w [Hst Hin]. split; [by left|done].
Qed.

Lemma job_inv_sched {R} (k : Z) (sched : list (action R)) (sv sv' : Server R) :
  job_inv k sv → forallb is_work sched = true →
  run_schedule sched sv = Some sv' → job_inv k sv'.
Proof.
  revert sv. induction sched as [|a sched IH]; intros sv Hinv Hwork Hrun.
  - by simplify_eq/=.
  - simpl in Hwork. apply andb_true_iff in Hwork as [Ha Hwork].
    rewrite run_schedule_cons in Hrun.
    destruct (system_step a sv) as [sv1|] eqn:Hstep; [|done]. simpl in Hrun.
    destruct a as [|i| |]; try done.
    eapply IH; [|done|done].
    by eapply (work_step_Forall (on_job k)); [apply wstep_on_job| |].
Qed.

(** C3.  The dispatch loop resets the counter to 0 before it sends a job
    to the processes.  Along any execution of the job over [k] processes in
    which no failure is flagged, the counter is the number of arrivals at the
    barrier modulo [k]: it is 0 exactly between the rounds of [k] arrivals.
    A process that arrives then does as follows: the first of a round clears
    its event, sets the counter to 1 and waits; a later one that is not the
    [k]-th adds one to the counter and waits; the [k]-th sets its event,
    resets the counter to 0 and does not wait. *)
Theorem barrier_counter {R} (sv : Server R) (j : Job R) (k : Z)
    (sched : list (action R)) (sv' : Server R) :
  disp sv = DIdle → quiescent sv → procs sv ≠ [] →
  resolve_numprocs (realnumprocs sv) (valrange j) (numprocs j) = k →
  1 < k →
  forallb is_work sched = true →
  run_schedule (Submit j :: sched) sv = Some sv' →
  failures sched (submit j sv) = 0%nat →
  let n := Z.of_nat (arrivals sched (submit j sv)) mod k in
  syncCounter (shared (submit j sv)) = 0 ∧
  syncCounter (shared sv') = n ∧
  ∀ (i : nat) w ev κ,
    procs sv' !! i = Some w →
    st w = WRun (Barrier κ) → syncEvent (proc w) = Some ev →
    wstep (shared sv') w =
      if bool_decide (n = 0) then
        Some (set_counter 1 (set_event ev false (shared sv')),
              set_st w (proc w) (WSyncWait κ))
      else if bool_decide (n + 1 < k) then
        Some (set_counter (n + 1) (shared sv'),
              set_st w (proc w) (WSyncWait κ))
      else
        Some (set_counter 0 (set_event ev true (set_counter k (shared sv'))),
              set_st w (proc w) (WSyncLeave κ)).
Proof.
  intros Hidle Hq Hps Hk Hk1 Hwork Hrun Hfail n.
  rewrite run_schedule_cons in Hrun. unfold system_step in Hrun.
  rewrite Hidle in Hrun. simpl in Hrun.
  destruct (submit_multi j sv ltac:(lia) Hps) as [Hshared _].
  assert (syncCounter (shared (submit j sv)) = 0) as Hc0
    by (by rewrite Hshared).
  pose proof (submit_job_inv j sv Hq ltac:(lia) Hps) as Hinv.
  rewrite Hk in Hinv.
  pose proof (counter_law k sched _ _ Hinv ltac:(lia) Hwork Hrun Hfail) as Hlaw.
  rewrite Hc0, Z.add_0_l in Hlaw. fold n in Hlaw.
  split; [done|]. split; [done|].
  intros i w ev κ Hw Hst Hev.
  pose proof (job_inv_sched k sched _ _ Hinv Hwork Hrun) as Hinv'.
  destruct (Forall_lookup_1 _ _ _ _ Hinv' Hw) as [[Hi|Ht] _];
    [congruence|].
  assert (0 ≤ n < k) as Hn by (apply Z.mod_pos_bound; lia).
  unfold wstep. rewrite Hst, Hev, Ht.
  case_bool_decide as H0.
  - rewrite sync_locked_first by lia. done.
  - case_bool_decide as H1.
    + rewrite sync_locked_middle by lia. by rewrite Hlaw.
    + rewrite sync_locked_last by lia. done.
Qed.

Lemma barrier_counter_witness :
  let j := plain_job sync_once 2 in
  let sv := start_server (R := share_ret) 2 in
  let sched := [Work 0; Work 0; Work 1; Work 1]%nat in
  ∃ sv', run_schedule (Submit j :: sched) sv = Some sv' ∧
  let n := Z.of_nat (arrivals sched (submit j sv)) mod 2 in
  syncCounter (shared (submit j sv)) = 0 ∧
  syncCounter (shared sv') = n ∧
  ∀ (i : nat) w ev κ,
    procs sv' !! i = Some w →
    st w = WRun (Barrier κ) → syncEvent (proc w) = Some ev →
    wstep (shared sv') w =
      if bool_decide (n = 0) then
        Some (set_counter 1 (set_event ev false (shared sv')),
              set_st w (proc w) (WSyncWait κ))
      else if bool_decide (n + 1 < 2) then
        Some (set_counter (n + 1) (shared sv'),
              set_st w (proc w) (WSyncWait κ))
      else
        Some (set_counter 0 (set_event ev true (set_counter 2 (shared sv'))),
              set_st w (proc w) (WSyncLeave κ)).
Proof.
  intros j sv sched. eexists. split; [by vm_compute|].
  apply (barrier_counter sv j 2 sched).
  - reflexivity.
  - repeat constructor.
  - discriminate.
  - reflexivity.
  - lia.
  - reflexivity.
  - by vm_compute.
  - by vm_compute.
Defined.

(** Two rounds of the barrier on three processes: the counter after each
    arrival. *)
Example barrier_counter_rounds :
  (λ sched, syncCounter ∘ shared <$>
      run_schedule (Submit (plain_job sync_once 3) :: sched)
                   (start_server 3))
    <$> [[Work 0; Work 0]; [Work 0; Work 0; Work 1; Work 1];
         [Work 0; Work 0; Work 1; Work 1; Work 2; Work 2]]%nat
  = [Some 1; Some 2; Some 0].
Proof. by vm_compute. Qed.

(** ** Object sharing across jobs *)

(** C5 fails on a pool whose processes do not hold the same current event.
    On a pool of three, a first job over two processes calls [sync()] once:
    processes 0 and 1 swap their events, process 2 does not, and the first
    event stays set.  In a second job the three processes call
    [shareObject("x", index)]: process 0 arrives first and waits on the
    second event; process 2 arrives, finds its own current event (the first)
    still set, leaves the barrier before process 1 has published, and is
    given [{0: 0}] instead of [{0: 0, 1: 1}]. *)
Theorem shareObject_stale_event :
  let first_job :=
    [Submit (plain_job sync_once 2);
     Work 0; Work 0; Work 1; Work 1; Work 1; Work 1; Work 0; Work 0; Work 0;
     Collect]%nat in
  let second_job :=
    [Submit (plain_job (share_own_index "x") 3);
     Work 0; Work 0; Work 0;
     Work 2; Work 2; Work 2; Work 2; Work 2; Work 2; Work 2;
     Work 1; Work 1; Work 1; Work 1; Work 1; Work 1;
     Work 0; Work 0; Work 0; Work 0;
     Collect]%nat in
  ∃ sv m,
    run_schedule (first_job ++ second_job) (start_server 3) = Some sv ∧
    resolved sv = [ResultMap (list_to_map [(0, Val ShareNone);
                                           (1, Val ShareNone)]);
                   ResultMap m] ∧
    m !! 0 = Some (Val (ShareDict (others 3 0))) ∧
    m !! 1 = Some (Val (ShareDict (others 3 1))) ∧
    m !! 2 = Some (Val (ShareDict {[ 0 := PyInt 0 ]})) ∧
    others 3 2 = {[ 0 := PyInt 0; 1 := PyInt 1 ]} ∧
    ({[ 0 := PyInt 0 ]} : gmap Z pyval) ≠ others 3 2.
Proof.
  intros first_job second_job. eexists. eexists.
  split; [by vm_compute|]. split; [by vm_compute|].
  split; [by vm_compute|]. split; [by vm_compute|].
  split; [by vm_compute|]. split; [by vm_compute|].
  intros Heq. apply (f_equal (λ d : gmap Z pyval, d !! 1)) in Heq.
  vm_compute in Heq. discriminate Heq.
Qed.

(** When process 2 arrives first in the second job instead, it clears and
    waits on the first event, which nobody will set: the two others finish,
    process 2 stays in the wait loop, and the polling loop never ends. *)
Example shareObject_stale_event_deadlock :
  ∃ sv,
    run_schedule
      ([Submit (plain_job sync_once 2);
        Work 0; Work 0; Work 1; Work 1; Work 1; Work 1; Work 0; Work 0; Work 0;
        Collect;
        Submit (plain_job (share_own_index "x") 3);
        Work 2; Work 2; Work 2;
        Work 0; Work 0; Work 0;
        Work 1; Work 1; Work 1; Work 1; Work 1; Work 1;
        Work 0; Work 0; Work 0; Work 0]%nat)
      (start_server 3) = Some sv ∧
    disp sv = DPolling 3 ∧
    waiting <$> procs sv = [false; false; true] ∧
    (∀ i, system_step (Work i) sv = None) ∧
    system_step Collect sv = None.
Proof.
  eexists. split; [by vm_compute|]. split; [by vm_compute|].
  split; [by vm_compute|]. split; [|by vm_compute].
  intros [|[|[|i]]]; by vm_compute.
Qed.

(** On a pool as created the same second job cannot go that way: process 2
    has to wait. *)
Example shareObject_fresh_pool_waits :
  run_schedule
    [Submit (plain_job (share_own_index "x") 3);
     Work 0; Work 0; Work 0; Work 2; Work 2; Work 2; Work 2]%nat
    (start_server 3)
  = None.
Proof. by vm_compute. Qed.

(** ** One round of object sharing on an aligned pool *)

Lemma count_if_le {A} (f : A → bool) (l : list A) :
  (count_if f l ≤ length l)%nat.
Proof. induction l as [|x l IH]; simpl; [lia|]. destruct (f x); lia. Qed.

Lemma count_if_all {A} (f : A → bool) (l : list A) :
  count_if f l = length l → ∀ x, x ∈ l → f x = true.
Proof.
  induction l as [|y l IH]; simpl; intros Hc x Hx.
  - by apply elem_of_nil in Hx.
  - pose proof (count_if_le f l).
    destruct (f y) eqn:Hy; [|lia].
    apply elem_of_cons in Hx as [->|Hx]; [done|]. apply IH; [lia|done].
Qed.

Lemma count_if_none {A} (f : A → bool) (l : list A) :
  (∀ x, x ∈ l → f x = false) → count_if f l = 0%nat.
Proof.
  induction l as [|y l IH]; simpl; intros Hf; [done|].
  rewrite (Hf y) by left. rewrite IH; [done|]. intros x Hx. apply Hf. by right.
Qed.

Lemma count_if_app {A} (f : A → bool) (l1 l2 : list A) :
  count_if f (l1 ++ l2) = (count_if f l1 + count_if f l2)%nat.
Proof. induction l1 as [|x l1 IH]; simpl; [done|]. rewrite IH. lia. Qed.

(** Replacing one element moves the count by the difference of the two. *)
Lemma count_if_insert {A} (f : A → bool) (l : list A) (i : nat) (x y : A) :
  l !! i = Some x →
  (count_if f (<[i := y]> l) + (if f x then 1 else 0)
   = count_if f l + (if f y then 1 else 0))%nat.
Proof.
  revert i. induction l as [|a l IH]; intros [|i] Hi; simplify_eq/=.
  - lia.
  - specialize (IH i Hi). lia.
Qed.

(** When all but one satisfy [f] and [x] does not, all the others do. *)
Lemma count_if_short {A} (f : A → bool) (l : list A) (i0 : nat) (x : A) :
  (count_if f l + 1 = length l)%nat → l !! i0 = Some x → f x = false →
  ∀ i y, i ≠ i0 → l !! i = Some y → f y = true.
Proof.
  revert i0. induction l as [|a l IH]; intros i0 Hc Hx Hfx i y Hne Hy;
    [done|].
  simpl in Hc. destruct i0 as [|j]; simplify_eq/=.
  - rewrite Hfx in Hc. destruct i as [|i]; [done|]. simpl in Hy.
    eapply count_if_all; [|by eapply list_elem_of_lookup_2]. lia.
  - pose proof (count_if_le f l). destruct (f a) eqn:Hfa.
    + destruct i as [|i]; simplify_eq/=; [done|].
      eapply (IH j); [lia|done|done| |done]. lia.
    + assert (f x = true); [|congruence].
      eapply count_if_all; [|by eapply list_elem_of_lookup_2]. lia.
Qed.

Lemma count_if_exists {A} (f : A → bool) (l : list A) :
  (count_if f l < length l)%nat → ∃ i x, l !! i = Some x ∧ f x = false.
Proof.
  induction l as [|a l IH]; simpl; intros Hc; [lia|].
  destruct (f a) eqn:Hfa.
  - destruct IH as (i & x & Hi & Hx); [lia|]. by exists (S i), x.
  - by exists 0%nat, a.
Qed.

Lemma sum_list_with_insert {A} (g : A → nat) (l : list A) (i : nat)
    (x y : A) :
  l !! i = Some x →
  (sum_list_with g (<[i := y]> l) + g x = sum_list_with g l + g y)%nat.
Proof.
  revert i. induction l as [|a l IH]; intros [|i] Hi; simplify_eq/=.
  - lia.
  - specialize (IH i Hi). lia.
Qed.

(** In a process of a job over [k > 1] processes that has a sharer and an
    event, [share_own_index] is [share_prog]. *)
Lemma share_own_index_prog (name : string) (self : AlgorithmProcess)
    (ev : Event) args kwargs :
  total self ≠ 1 → sharer self = true → syncEvent self = Some ev →
  share_own_index name self args kwargs = share_prog name (index self).
Proof.
  intros Ht Hs Hev.
  unfold share_own_index, shareObject, sync, getObjects, share_prog, share_kont.
  rewrite bool_decide_eq_false_2 by done. by rewrite Hs, Hev.
Qed.

(** The processes after the loop that sends a job without arguments: those
    of the indices got the job tuple, the others are as before. *)
Lemma send_jobs_plain {R}
    (f : AlgorithmProcess → list pyval → gmap string pyval → prog R)
    (N k : Z) (n : nat) (a : nat) (ps : list (Worker R)) :
  (a + n ≤ length ps)%nat →
  ∃ ps', send_jobs (plain_job f N) k (seqZ (Z.of_nat a) (Z.of_nat n)) ps
         = (ps', None) ∧
    length ps' = length ps ∧
    ∀ (i : nat) w, ps !! i = Some w →
      ps' !! i = Some
        (if bool_decide (a ≤ i < a + n)%nat
         then send_to (plain_msg f N k (Z.of_nat i)) w
         else w).
Proof.
  revert a ps. induction n as [|n IH]; intros a ps Hlen.
  - exists ps. split; [done|]. split; [done|]. intros i w Hw.
    by rewrite bool_decide_eq_false_2 by lia.
  - rewrite seqZ_cons by lia. simpl.
    rewrite Nat2Z.id.
    destruct (ps !! a) as [wa|] eqn:Hwa;
      [|apply lookup_ge_None in Hwa; lia].
    replace (Z.succ (Z.of_nat a)) with (Z.of_nat (S a)) by lia.
    replace (Z.pred (Z.of_nat (S n))) with (Z.of_nat n) by lia.
    destruct (IH (S a) (<[a := send_to (plain_msg f N k (Z.of_nat a)) wa]> ps))
      as (ps' & Heq & Hlen' & Hlook); [rewrite length_insert; lia|].
    exists ps'. split; [exact Heq|].
    rewrite length_insert in Hlen'. split; [done|].
    intros i w Hw. destruct (decide (i = a)) as [->|Hne].
    + rewrite (Hlook a (send_to (plain_msg f N k (Z.of_nat a)) wa))
        by (rewrite list_lookup_insert_eq; [done|by eapply lookup_lt_Some]).
      rewrite bool_decide_eq_false_2 by lia.
      rewrite bool_decide_eq_true_2 by lia. by simplify_eq.
    + rewrite (Hlook i w) by (by rewrite list_lookup_insert_ne).
      destruct (decide (S a ≤ i < S a + n)%nat).
      * by rewrite !bool_decide_eq_true_2 by lia.
      * by rewrite !bool_decide_eq_false_2 by lia.
Qed.

(** The job of sharing, sent to an aligned pool, establishes the
    invariant. *)
Lemma submit_share_inv (k : Z) (name : string) (ev ev' : Event) (N : Z)
    (sv : Server share_ret) :
  aligned ev ev' sv → 1 < k →
  resolve_numprocs (realnumprocs sv) N 0 = k →
  k ≤ Z.of_nat (length (procs sv)) →
  disp (submit (plain_job (share_own_index name) N) sv) = DPolling k ∧
  resolved (submit (plain_job (share_own_index name) N) sv) = resolved sv ∧
  pool_wf (submit (plain_job (share_own_index name) N) sv) ∧
  share_inv k name ev ev' (submit (plain_job (share_own_index name) N) sv).
Proof.
  intros (Hidle & Hwf & Hrun & Hall) Hk Hres Hsize.
  destruct (send_jobs_plain (share_own_index name) N k (Z.to_nat k) 0
              (procs sv) ltac:(lia)) as (ps' & Hsend & Hlen & Hlook).
  rewrite Z2Nat.id in Hsend by lia. change (Z.of_nat 0) with 0 in Hsend.
  assert (∀ (i : nat) w', ps' !! i = Some w' →
            ∃ w, procs sv !! i = Some w ∧
                 w' = if bool_decide (Z.of_nat i < k)
                      then send_to (plain_msg (share_own_index name) N k
                                              (Z.of_nat i)) w
                      else w) as Hback.
  { intros i w' Hw'.
    destruct (procs sv !! i) as [w|] eqn:Hw.
    - exists w. split; [done|]. rewrite (Hlook i w Hw) in Hw'.
      injection Hw' as <-. destruct (decide (Z.of_nat i < k)).
      + by rewrite !bool_decide_eq_true_2 by lia.
      + by rewrite !bool_decide_eq_false_2 by lia.
    - apply lookup_ge_None in Hw. apply lookup_lt_Some in Hw'. lia. }
  assert (submit (plain_job (share_own_index name) N) sv
          = set_server sv (set_counter 0 (set_objmap ∅ (shared sv))) ps'
                       (DPolling k) (resolved sv)) as ->.
  { unfold submit. simpl. rewrite Hres.
    rewrite (bool_decide_eq_false_2 (k = 1)) by lia.
    rewrite bool_decide_eq_false_2 by lia. simpl.
    by rewrite Hsend. }
  split; [done|]. split; [done|]. split.
  { intros i w' Hw'. simpl in Hw'.
    destruct (Hback i w' Hw') as (w & Hw & ->).
    destruct (bool_decide _); simpl; by apply Hwf. }
  split; simpl.
  - done.
  - lia.
  - intros i w' Hw' Hik. destruct (Hback i w' Hw') as (w & Hw & ->).
    rewrite bool_decide_eq_true_2 by done.
    destruct (Forall_lookup_1 _ _ _ _ Hall Hw)
      as (Hst & Hin & Hout & Hsh & Hev & Hev').
    unfold sharing. simpl. rewrite Hst.
    split; [by apply Hwf|]. split; [done|]. left.
    eexists. rewrite Hin. by repeat split.
  - intros i w' Hw' Hik. destruct (Hback i w' Hw') as (w & Hw & ->).
    rewrite bool_decide_eq_false_2 by lia.
    by destruct (Forall_lookup_1 _ _ _ _ Hall Hw) as (Hst & Hin & _).
  - intros i' n'. rewrite lookup_empty.
    unfold published. simpl.
    destruct (ps' !! Z.to_nat i') as [w'|] eqn:Hw'; simpl;
      [|by rewrite !andb_false_r].
    destruct (Hback _ w' Hw') as (w & Hw & ->).
    destruct (Forall_lookup_1 _ _ _ _ Hall Hw) as (Hst & Hin & Hout & _).
    assert (stage_of (if bool_decide (Z.of_nat (Z.to_nat i') < k)
                      then send_to (plain_msg (share_own_index name) N k
                                      (Z.of_nat (Z.to_nat i'))) w
                      else w) = 0%nat) as ->.
    { unfold stage_of. destruct (bool_decide _); simpl; by rewrite Hst, Hout. }
    by rewrite !andb_false_r.
  - left. split; [|split; [|split]].
    + intros i w' Hw' Hik. destruct (Hback i w' Hw') as (w & Hw & ->).
      destruct (Forall_lookup_1 _ _ _ _ Hall Hw) as (Hst & Hin & Hout & _).
      unfold stage_of. destruct (bool_decide _); simpl; rewrite Hst, Hout; lia.
    + rewrite count_if_none; [done|]. intros w' Hin'.
      apply list_elem_of_lookup in Hin' as [i Hw'].
      destruct (Hback i w' Hw') as (w & Hw & ->).
      destruct (Forall_lookup_1 _ _ _ _ Hall Hw) as (Hst & _).
      unfold waiting. destruct (bool_decide _); simpl; by rewrite Hst.
    + lia.
    + lia.
Qed.

Section sharing_round.
Variables (k : Z) (name : string) (ev ev' : Event).
Hypothesis Hk : 1 < k.

(** The processes of the job, and the others, after process [i] of the job
    moved to [w']. *)
Lemma part_update (ps : list (Worker share_ret)) (i : nat)
    (w' : Worker share_ret) :
  Z.of_nat i < k →
  sharing k name ev ev' (Z.of_nat i) w' →
  (∀ (j : nat) w, ps !! j = Some w → Z.of_nat j < k →
                  sharing k name ev ev' (Z.of_nat j) w) →
  (∀ (j : nat) w, ps !! j = Some w → k ≤ Z.of_nat j →
                  st w = WIdle ∧ inbox w = []) →
  (∀ (j : nat) w, <[i := w']> ps !! j = Some w → Z.of_nat j < k →
                  sharing k name ev ev' (Z.of_nat j) w) ∧
  (∀ (j : nat) w, <[i := w']> ps !! j = Some w → k ≤ Z.of_nat j →
                  st w = WIdle ∧ inbox w = []).
Proof.
  intros Hik Hsh Hpart Hrest. split.
  - intros j w [(-> & <- & _)|[Hne Hj]]%list_lookup_insert_Some Hjk;
      [done|by apply (Hpart j)].
  - intros j w [(-> & <- & _)|[Hne Hj]]%list_lookup_insert_Some Hjk;
      [lia|by apply (Hrest j)].
Qed.

(** Who has published is the same after a move that does not pass the
    publication. *)
Lemma published_update (sv : Server share_ret) (s' : Shared) (i : nat)
    (w w' : Worker share_ret) (d : dstate) r (i' : Z) :
  procs sv !! i = Some w →
  bool_decide (2 ≤ stage_of w')%nat = bool_decide (2 ≤ stage_of w)%nat →
  published k (set_server sv s' (<[i := w']> (procs sv)) d r) i'
  = published k sv i'.
Proof.
  intros Hw Hst. unfold published. simpl. f_equal.
  destruct (decide (Z.to_nat i' = i)) as [->|Hne].
  - rewrite list_lookup_insert_eq by (by eapply lookup_lt_Some).
    rewrite Hw. done.
  - by rewrite list_lookup_insert_ne.
Qed.

(** The phase before the round is complete is kept by a move that changes
    neither the counter, nor the event, nor who waits. *)
Lemma pre_update (sv : Server share_ret) (s' : Shared) (i : nat)
    (w w' : Worker share_ret) (d : dstate) r :
  procs sv !! i = Some w →
  syncCounter s' = syncCounter (shared sv) →
  is_set ev s' = is_set ev (shared sv) →
  waiting w' = waiting w → (stage_of w' ≤ 3)%nat →
  (∀ (j : nat) w, procs sv !! j = Some w → Z.of_nat j < k →
                  (stage_of w ≤ 3)%nat) ∧
  syncCounter (shared sv) = Z.of_nat (count_if waiting (procs sv)) ∧
  syncCounter (shared sv) < k ∧
  (0 < syncCounter (shared sv) → is_set ev (shared sv) = false) →
  let sv' := set_server sv s' (<[i := w']> (procs sv)) d r in
  (∀ (j : nat) w, procs sv' !! j = Some w → Z.of_nat j < k →
                  (stage_of w ≤ 3)%nat) ∧
  syncCounter (shared sv') = Z.of_nat (count_if waiting (procs sv')) ∧
  syncCounter (shared sv') < k ∧
  (0 < syncCounter (shared sv') → is_set ev (shared sv') = false).
Proof.
  intros Hw Hc Hev Hwait Hst (Hstages & Hcount & Hlt & Hclear). simpl.
  split; [|split; [|split]].
  - intros j wj [(-> & <- & _)|[Hne Hj]]%list_lookup_insert_Some Hjk;
      [done|by eapply Hstages].
  - pose proof (count_if_insert waiting _ _ _ w' Hw) as Hins.
    rewrite Hwait in Hins. rewrite Hc, Hcount. lia.
  - by rewrite Hc.
  - rewrite Hc, Hev. done.
Qed.

(** The phase after the round is complete is kept by a move that leaves
    the shared state alone and stays past the barrier. *)
Lemma post_update (sv : Server share_ret) (i : nat)
    (w' : Worker share_ret) (d : dstate) r :
  (3 ≤ stage_of w')%nat →
  (∀ (j : nat) w, procs sv !! j = Some w → Z.of_nat j < k →
                  (3 ≤ stage_of w)%nat) ∧
  syncCounter (shared sv) = 0 ∧ is_set ev (shared sv) = true →
  let sv' := set_server sv (shared sv) (<[i := w']> (procs sv)) d r in
  (∀ (j : nat) w, procs sv' !! j = Some w → Z.of_nat j < k →
                  (3 ≤ stage_of w)%nat) ∧
  syncCounter (shared sv') = 0 ∧ is_set ev (shared sv') = true.
Proof.
  intros Hst (Hstages & Hc & Hev). simpl. split; [|done].
  intros j wj [(-> & <- & _)|[Hne Hj]]%list_lookup_insert_Some Hjk;
    [done|by eapply Hstages].
Qed.

(** What is left to do gets less when a process of the job moves on. *)
Lemma stages_left_update (sv : Server share_ret) (s' : Shared) (i : nat)
    (w w' : Worker share_ret) (d : dstate) r :
  procs sv !! i = Some w → Z.of_nat i < k →
  (stage_of w < stage_of w')%nat → (stage_of w' ≤ 7)%nat →
  (stages_left k (set_server sv s' (<[i := w']> (procs sv)) d r)
   < stages_left k sv)%nat.
Proof.
  intros Hw Hik Hlt Hle. unfold stages_left. simpl.
  rewrite take_insert_lt by lia.
  assert (take (Z.to_nat k) (procs sv) !! i = Some w) as Hw'
    by (rewrite lookup_take_lt by lia; done).
  pose proof (sum_list_with_insert (λ w, 7 - stage_of w)%nat _ _ _ w' Hw').
  simpl in *. lia.
Qed.

Lemma count_if_pos {A} (f : A → bool) (l : list A) (i : nat) (x : A) :
  l !! i = Some x → f x = true → (1 ≤ count_if f l)%nat.
Proof.
  revert i. induction l as [|a l IH]; intros [|i] Hi Hx; simplify_eq/=.
  - rewrite Hx. lia.
  - specialize (IH i Hi Hx). lia.
Qed.

Lemma objmap_set_event (e : Event) (b : bool) (s : Shared) :
  objmap (set_event e b s) = objmap s.
Proof. by destruct e. Qed.

Lemma continueRunning_set_event (e : Event) (b : bool) (s : Shared) :
  continueRunning (set_event e b s) = continueRunning s.
Proof. by destruct e. Qed.

(** When all but one of the [k] processes of the job wait, and process [i]
    of the job does not, every other process of the job waits. *)
Lemma all_others_wait (ps : list (Worker share_ret)) (i : nat)
    (w : Worker share_ret) :
  k ≤ Z.of_nat (length ps) →
  (∀ (j : nat) w, ps !! j = Some w → k ≤ Z.of_nat j → st w = WIdle) →
  Z.of_nat (count_if waiting ps) + 1 = k →
  ps !! i = Some w → Z.of_nat i < k → waiting w = false →
  ∀ (j : nat) wj, ps !! j = Some wj → Z.of_nat j < k → j ≠ i →
                  waiting wj = true.
Proof.
  intros Hlen Hrest Hcount Hw Hik Hnw j wj Hj Hjk Hne.
  rewrite <-(take_drop (Z.to_nat k) ps), count_if_app in Hcount.
  rewrite (count_if_none waiting (drop _ _)) in Hcount.
  2: { intros x Hx. apply list_elem_of_lookup in Hx as [n Hn].
       rewrite lookup_drop in Hn. unfold waiting.
       rewrite (Hrest _ _ Hn); [done|lia]. }
  eapply (count_if_short waiting (take (Z.to_nat k) ps) i w).
  - rewrite length_take. lia.
  - by rewrite lookup_take_lt by lia.
  - done.
  - exact Hne.
  - by rewrite lookup_take_lt by lia.
Qed.

(** Every action of a process keeps the invariant and brings the job
    nearer to its end. *)
Lemma share_inv_step (sv sv' : Server share_ret) (i : nat) :
  share_inv k name ev ev' sv →
  system_step (Work i) sv = Some sv' →
  share_inv k name ev ev' sv' ∧ (stages_left k sv' < stages_left k sv)%nat.
Proof.
  intros [Hrun Hsize Hpart Hrest Hobj Hphase] Hstep.
  destruct (work_step_inv _ _ _ Hstep) as (w & s' & w' & Hw & Hws & ->).
  destruct (decide (Z.of_nat i < k)) as [Hik|Hik].
  2: { destruct (Hrest i w Hw ltac:(lia)) as [Hst Hin].
       unfold wstep in Hws. by rewrite Hst, Hrun, Hin in Hws. }
  pose proof (Hpart i w Hw Hik) as (Hidx & Hshr & Hshape).
  unfold wstep in Hws.
  destruct (st w) as [|c|κ|κ|] eqn:Hst.
  - (* the job is received *)
    rewrite Hrun in Hws.
    destruct Hshape as [(m & Hin & Hout & Htgt & Htot & He & He')
                       |(d & Hin & Hout & Hd)];
      rewrite Hin in Hws; [|done].
    injection Hws as <- <-.
    rewrite Htgt.
    rewrite (share_own_index_prog name (unpack (proc w) m) ev)
      by (simpl; first [lia | done]).
    simpl index. rewrite Hidx.
    set (w' := {| proc := unpack (proc w) m;
                  st := WRun (share_prog name (Z.of_nat i));
                  inbox := []; rsend := rsend w |}).
    assert (stage_of w = 0%nat) as Hs0
      by (unfold stage_of; by rewrite Hst, Hout).
    assert (stage_of w' = 1%nat) as Hs1 by done.
    assert (sharing k name ev ev' (Z.of_nat i) w') as Hsh'.
    { unfold sharing. simpl. repeat split; try done. left. by repeat split;
        first [left|idtac]. }
    destruct (part_update _ _ _ Hik Hsh' Hpart Hrest) as [Hpart' Hrest'].
    split; [|eapply (stages_left_update _ _ _ w); [done|done|lia|lia]].
    split; simpl; try done.
    + by rewrite length_insert.
    + intros i' n'. rewrite (published_update _ _ _ w w') by
        (done || (rewrite Hs0, Hs1; done)). apply Hobj.
    + destruct Hphase as [Hpre|(Hpost & _)].
      * left. apply (pre_update sv (shared sv) i w w' (disp sv) (resolved sv));
          try done.
        -- unfold waiting. by rewrite Hst.
        -- lia.
      * specialize (Hpost i w Hw Hik). lia.
  - destruct Hshape as (Hin & Hout & Htot &
      [[[-> | ->] [He He']] | [-> | (d & -> & Hd)]]).
    + (* the index is published *)
      simpl in Hws. injection Hws as <- <-.
      set (w' := set_st w (proc w)
                   (WRun (Barrier (share_kont name (Z.of_nat i))))).
      assert (stage_of w = 1%nat) as Hs1
        by (unfold stage_of; by rewrite Hst).
      assert (stage_of w' = 2%nat) as Hs2 by done.
      assert (sharing k name ev ev' (Z.of_nat i) w') as Hsh'.
      { unfold sharing. simpl. repeat split; try done.
        left. split; [by right|done]. }
      destruct (part_update _ _ _ Hik Hsh' Hpart Hrest) as [Hpart' Hrest'].
      split; [|eapply (stages_left_update _ _ _ w); [done|done|lia|lia]].
      split; simpl; try done.
      * by rewrite length_insert.
      * intros i' n'. unfold ObjectSharer_shareObject.
        destruct (decide ((i', n') = (Z.of_nat i, name))) as [[= -> ->]|Hne].
        -- rewrite lookup_insert_eq. rewrite bool_decide_eq_true_2 by done.
           unfold published. simpl. rewrite bool_decide_eq_true_2 by lia.
           rewrite Nat2Z.id.
           rewrite list_lookup_insert_eq by (by eapply lookup_lt_Some).
           done.
        -- rewrite lookup_insert_ne by done. rewrite Hobj.
           destruct (decide (n' = name)) as [->|Hn];
             [|by rewrite !bool_decide_eq_false_2 by done].
           rewrite !bool_decide_eq_true_2 by done. simpl.
           assert (i' ≠ Z.of_nat i) by congruence.
           assert (published k
                     (set_server sv
                        (set_objmap
                           (<[(Z.of_nat i, name):=PyInt (Z.of_nat i)]>
                              (objmap (shared sv))) (shared sv))
                        (<[i:=w']> (procs sv)) (disp sv) (resolved sv)) i'
                   = published k sv i') as ->; [|done].
           unfold published. simpl.
           destruct (decide (0 ≤ i' < k));
             [|by rewrite !bool_decide_eq_false_2 by done].
           by rewrite list_lookup_insert_ne by lia.
      * destruct Hphase as [Hpre|(Hpost & _)].
        -- left.
           apply (pre_update sv
                    (set_objmap
                       (<[(Z.of_nat i, name):=PyInt (Z.of_nat i)]>
                          (objmap (shared sv))) (shared sv))
                    i w w' (disp sv) (resolved sv)); try done.
           ++ unfold waiting. by rewrite Hst.
           ++ lia.
        -- specialize (Hpost i w Hw Hik). lia.
    + (* the process arrives at the barrier *)
      simpl in Hws. rewrite He, Htot in Hws.
      assert (stage_of w = 2%nat) as Hs2
        by (unfold stage_of; by rewrite Hst).
      assert (waiting w = false) as Hnw by (unfold waiting; by rewrite Hst).
      destruct Hphase as [(Hstages & Hcount & Hlt & Hclear)|(Hpost & _)];
        [|specialize (Hpost i w Hw Hik); lia].
      pose proof (Nat2Z.is_nonneg (count_if waiting (procs sv))) as Hc0.
      destruct (decide (syncCounter (shared sv) + 1 < k)) as [Hmid|Hlast].
      * (* not the last: it waits *)
        set (s1 := if bool_decide (syncCounter (shared sv) = 0)
                   then set_event ev false (shared sv) else shared sv).
        assert (sync_locked k ev (shared sv)
                = (set_counter (syncCounter (shared sv) + 1) s1, true)) as Hl.
        { unfold sync_locked. rewrite bool_decide_eq_false_2 by lia.
          fold s1. simpl.
          assert (syncCounter s1 = syncCounter (shared sv)) as ->
            by (unfold s1; destruct (bool_decide _);
                by rewrite ?set_event_counter).
          by rewrite bool_decide_eq_true_2 by lia. }
        rewrite Hl in Hws. injection Hws as <- <-.
        set (w' := set_st w (proc w) (WSyncWait (share_kont name (Z.of_nat i)))).
        assert (stage_of w' = 3%nat) as Hs3 by done.
        assert (sharing k name ev ev' (Z.of_nat i) w') as Hsh'.
        { unfold sharing. simpl. by repeat split. }
        destruct (part_update _ _ _ Hik Hsh' Hpart Hrest) as [Hpart' Hrest'].
        split; [|eapply (stages_left_update _ _ _ w); [done|done|lia|lia]].
        split; simpl; try done.
        -- unfold s1. destruct (bool_decide _);
             by rewrite ?continueRunning_set_event.
        -- by rewrite length_insert.
        -- intros i' n'.
           rewrite (published_update _ _ _ w w') by
             (done || (rewrite Hs2, Hs3; done)).
           unfold s1. destruct (bool_decide _);
             rewrite ?objmap_set_event; apply Hobj.
        -- left. split; [|split; [|split]].
           ++ intros j wj [(-> & <- & _)|[Hne Hj]]%list_lookup_insert_Some Hjk;
                [lia|by eapply Hstages].
           ++ pose proof (count_if_insert waiting _ _ _ w' Hw) as Hins.
              rewrite Hnw in Hins. simpl in Hins. rewrite Hcount. lia.
           ++ lia.
           ++ intros _. rewrite is_set_set_counter. unfold s1.
              case_bool_decide as Hz.
              ** rewrite is_set_set_event. by rewrite decide_True.
              ** apply Hclear. lia.
      * (* the last: it releases the others *)
        rewrite sync_locked_last in Hws by lia.
        injection Hws as <- <-.
        set (w' := set_st w (proc w) (WSyncLeave (share_kont name (Z.of_nat i)))).
        assert (stage_of w' = 4%nat) as Hs4 by done.
        assert (sharing k name ev ev' (Z.of_nat i) w') as Hsh'.
        { unfold sharing. simpl. by repeat split. }
        destruct (part_update _ _ _ Hik Hsh' Hpart Hrest) as [Hpart' Hrest'].
        split; [|eapply (stages_left_update _ _ _ w); [done|done|lia|lia]].
        split; simpl; try done.
        -- by rewrite continueRunning_set_event.
        -- by rewrite length_insert.
        -- intros i' n'.
           rewrite (published_update _ _ _ w w') by
             (done || (rewrite Hs2, Hs4; done)).
           rewrite objmap_set_event. apply Hobj.
        -- right. split; [|split].
           ++ intros j wj [(-> & <- & _)|[Hne Hj]]%list_lookup_insert_Some Hjk;
                [lia|].
              assert (waiting wj = true) as Hwj.
              { eapply (all_others_wait (procs sv) i w); try done.
                - intros n wn Hn Hkn. by destruct (Hrest n wn Hn Hkn).
                - lia. }
              unfold waiting in Hwj. unfold stage_of.
              by destruct (st wj).
           ++ done.
           ++ rewrite is_set_set_counter, is_set_set_event.
              by rewrite decide_True.
    + (* the objects of the others are looked up *)
      simpl in Hws. injection Hws as <- <-.
      assert (stage_of w = 5%nat) as Hs5
        by (unfold stage_of; by rewrite Hst).
      destruct Hphase as [(Hstages & _)|(Hpost & Hc & Hset)];
        [specialize (Hstages i w Hw Hik); lia|].
      set (d := ObjectSharer_getObjects name (Z.of_nat i) (objmap (shared sv))).
      set (w' := set_st w (proc w) (WRun (Ret (ShareDict d)))).
      assert (stage_of w' = 6%nat) as Hs6 by done.
      assert (is_others k (Z.of_nat i) d) as Hd.
      { intros idx. unfold d. rewrite ObjectSharer_getObjects_lookup.
        destruct (decide (idx = Z.of_nat i)) as [->|Hne].
        - rewrite bool_decide_eq_true_2 by done.
          by rewrite bool_decide_eq_false_2 by tauto.
        - rewrite (bool_decide_eq_false_2 (idx = _)) by done.
          rewrite Hobj. rewrite bool_decide_eq_true_2 by done. simpl.
          unfold published.
          destruct (decide (0 ≤ idx < k)) as [Hin'|Hout'].
          + rewrite !bool_decide_eq_true_2 by tauto. simpl.
            destruct (procs sv !! Z.to_nat idx) as [wj|] eqn:Hwj.
            * simpl. specialize (Hpost _ wj Hwj ltac:(lia)).
              by rewrite bool_decide_eq_true_2 by lia.
            * apply lookup_ge_None in Hwj. lia.
          + by rewrite !bool_decide_eq_false_2 by tauto. }
      assert (sharing k name ev ev' (Z.of_nat i) w') as Hsh'.
      { unfold sharing. simpl. repeat split; try done.
        right. right. by exists d. }
      destruct (part_update _ _ _ Hik Hsh' Hpart Hrest) as [Hpart' Hrest'].
      split; [|eapply (stages_left_update _ _ _ w); [done|done|lia|lia]].
      split; simpl; try done.
      * by rewrite length_insert.
      * intros i' n'.
        rewrite (published_update _ _ _ w w') by
          (done || (rewrite Hs5, Hs6; done)).
        apply Hobj.
      * right. apply (post_update sv i w' (disp sv) (resolved sv)); [lia|done].
    + (* the result is sent *)
      simpl in Hws. injection Hws as <- <-.
      assert (stage_of w = 6%nat) as Hs6
        by (unfold stage_of; by rewrite Hst).
      destruct Hphase as [(Hstages & _)|Hpost];
        [specialize (Hstages i w Hw Hik); lia|].
      set (w' := send_result w (Val (ShareDict d)) WIdle).
      assert (stage_of w' = 7%nat) as Hs7.
      { unfold stage_of, w'. simpl. by rewrite Hout. }
      assert (sharing k name ev ev' (Z.of_nat i) w') as Hsh'.
      { unfold sharing. simpl. repeat split; try done.
        right. exists d. by rewrite Hout. }
      destruct (part_update _ _ _ Hik Hsh' Hpart Hrest) as [Hpart' Hrest'].
      split; [|eapply (stages_left_update _ _ _ w); [done|done|lia|lia]].
      split; simpl; try done.
      * by rewrite length_insert.
      * intros i' n'.
        rewrite (published_update _ _ _ w w') by
          (done || (rewrite Hs6, Hs7; done)).
        apply Hobj.
      * right. apply (post_update sv i w' (disp sv) (resolved sv)); [lia|done].
  - (* the process leaves the wait loop *)
    destruct Hshape as (Hin & Hout & Htot & -> & He & He').
    rewrite He, Hrun in Hws. simpl in Hws.
    assert (stage_of w = 3%nat) as Hs3
      by (unfold stage_of; by rewrite Hst).
    assert (waiting w = true) as Hwt by (unfold waiting; by rewrite Hst).
    destruct Hphase as [(Hstages & Hcount & Hlt & Hclear)|Hpost].
    { pose proof (count_if_pos waiting _ _ _ Hw Hwt).
      unfold sync_wait in Hws. rewrite Hclear in Hws by lia.
      by rewrite bool_decide_eq_true_2 in Hws by lia. }
    unfold sync_wait in Hws. destruct Hpost as (Hpost & Hc & Hset).
    rewrite Hset in Hws. simpl in Hws. injection Hws as <- <-.
    set (w' := set_st w (proc w) (WSyncLeave (share_kont name (Z.of_nat i)))).
    assert (stage_of w' = 4%nat) as Hs4 by done.
    assert (sharing k name ev ev' (Z.of_nat i) w') as Hsh'.
    { unfold sharing. simpl. by repeat split. }
    destruct (part_update _ _ _ Hik Hsh' Hpart Hrest) as [Hpart' Hrest'].
    split; [|eapply (stages_left_update _ _ _ w); [done|done|lia|lia]].
    split; simpl; try done.
    + by rewrite length_insert.
    + intros i' n'.
      rewrite (published_update _ _ _ w w') by
        (done || (rewrite Hs3, Hs4; done)).
      apply Hobj.
    + right. apply (post_update sv i w' (disp sv) (resolved sv)); [lia|done].
  - (* the process leaves sync() *)
    destruct Hshape as (Hin & Hout & Htot & -> & He & He').
    assert (stage_of w = 4%nat) as Hs4
      by (unfold stage_of; by rewrite Hst).
    destruct Hphase as [(Hstages & _)|Hpost];
      [specialize (Hstages i w Hw Hik); lia|].
    assert (sync_check (shared sv) = None) as Hcheck.
    { unfold sync_check. destruct Hpost as (_ & -> & _).
      rewrite bool_decide_eq_false_2 by lia. by rewrite Hrun. }
    rewrite Hcheck in Hws. injection Hws as <- <-.
    set (w' := set_st w (swap_events (proc w))
                 (WRun (share_kont name (Z.of_nat i)))).
    assert (stage_of w' = 5%nat) as Hs5 by done.
    assert (sharing k name ev ev' (Z.of_nat i) w') as Hsh'.
    { unfold sharing. simpl. repeat split; try done. right. by left. }
    destruct (part_update _ _ _ Hik Hsh' Hpart Hrest) as [Hpart' Hrest'].
    split; [|eapply (stages_left_update _ _ _ w); [done|done|lia|lia]].
    split; simpl; try done.
    + by rewrite length_insert.
    + intros i' n'.
      rewrite (published_update _ _ _ w w') by
        (done || (rewrite Hs4, Hs5; done)).
      apply Hobj.
    + right. apply (post_update sv i w' (disp sv) (resolved sv)); [lia|done].
  - done.
Qed.

Lemma others_lookup (i idx : Z) :
  others k i !! idx = if bool_decide (0 ≤ idx < k ∧ idx ≠ i)
                      then Some (PyInt idx) else None.
Proof.
  unfold others.
  set (l := filter (λ idx, idx ≠ i) (seqZ 0 k)).
  assert (NoDup l) as Hnd by (apply NoDup_filter, NoDup_seqZ).
  assert (∀ x, x ∈ l ↔ 0 ≤ x < k ∧ x ≠ i) as Hin.
  { intros x. unfold l. rewrite list_elem_of_filter, elem_of_seqZ. lia. }
  case_bool_decide as Hc.
  - apply elem_of_list_to_map.
    + rewrite <-list_fmap_compose. simpl. by rewrite list_fmap_id.
    + apply list_elem_of_fmap. exists idx. split; [done|by apply Hin].
  - apply not_elem_of_list_to_map. rewrite <-list_fmap_compose. simpl.
    rewrite list_fmap_id. by rewrite Hin.
Qed.

Lemma is_others_eq (i : Z) (d : gmap Z pyval) :
  is_others k i d → d = others k i.
Proof. intros Hd. apply map_eq. intros idx. by rewrite Hd, others_lookup. Qed.

(** The result pipe of a process of the job is empty or holds the dict of
    the others, and nothing else. *)
Lemma sharing_pipe (i : Z) (w : Worker share_ret) :
  sharing k name ev ev' i w →
  rsend w = [] ∧ (stage_of w < 7)%nat ∨
  rsend w = [Val (ShareDict (others k i))] ∧ stage_of w = 7%nat.
Proof.
  intros (Hidx & Hshr & Hshape). unfold stage_of.
  destruct (st w) as [|c|κ|κ|] eqn:Hst.
  - destruct Hshape as [(m & Hin & Hout & _)|(d & Hin & Hout & Hd)].
    + left. rewrite Hout. split; [done|lia].
    + right. rewrite Hout. by rewrite (is_others_eq _ _ Hd).
  - destruct Hshape as (Hin & Hout & Htot &
      [[[-> | ->] _] | [-> | (d & -> & Hd)]]); left; simpl;
      (split; [done|lia]).
  - destruct Hshape as (Hin & Hout & _). left. split; [done|lia].
  - destruct Hshape as (Hin & Hout & _). left. split; [done|lia].
  - done.
Qed.

(** Along any schedule of the processes the invariant holds, and the
    schedule is no longer than what was left to do. *)
Lemma share_inv_sched (sched : list (action share_ret))
    (sv sv' : Server share_ret) :
  share_inv k name ev ev' sv →
  forallb is_work sched = true →
  run_schedule sched sv = Some sv' →
  share_inv k name ev ev' sv' ∧
  (length sched + stages_left k sv' ≤ stages_left k sv)%nat ∧
  disp sv' = disp sv ∧ resolved sv' = resolved sv ∧
  (pool_wf sv → pool_wf sv').
Proof.
  revert sv. induction sched as [|a sched IH]; intros sv Hinv Hwork Hrun.
  - simplify_eq/=. split; [done|]. split; [lia|done].
  - simpl in Hwork. apply andb_true_iff in Hwork as [Ha Hwork].
    rewrite run_schedule_cons in Hrun.
    destruct (system_step a sv) as [sv1|] eqn:Hstep; [|done]. simpl in Hrun.
    destruct a as [|i| |]; try done.
    destruct (share_inv_step _ _ _ Hinv Hstep) as [Hinv1 Hless].
    destruct (work_step_frame _ _ _ Hstep) as (Hd & Hr & _ & _ & Hwf1).
    destruct (IH _ Hinv1 Hwork Hrun) as (Hinv' & Hlen & Hd' & Hr' & Hwf').
    split; [done|]. split; [simpl; lia|].
    split; [congruence|]. split; [congruence|]. auto.
Qed.

Lemma sum_list_with_pos {A} (g : A → nat) (l : list A) :
  (0 < sum_list_with g l)%nat → ∃ i x, l !! i = Some x ∧ (0 < g x)%nat.
Proof.
  induction l as [|a l IH]; simpl; intros Hs; [lia|].
  destruct (decide (0 < g a)%nat).
  - by exists 0%nat, a.
  - destruct IH as (i & x & Hi & Hx); [lia|]. by exists (S i), x.
Qed.

Lemma sum_list_with_zero {A} (g : A → nat) (l : list A) :
  sum_list_with g l = 0%nat → ∀ x, x ∈ l → g x = 0%nat.
Proof.
  induction l as [|a l IH]; simpl; intros Hs x Hx.
  - by apply elem_of_nil in Hx.
  - apply elem_of_cons in Hx as [->|Hx]; [lia|]. apply IH; [lia|done].
Qed.

(** As long as something is left to do, some process can act. *)
Lemma share_inv_enabled (sv : Server share_ret) :
  share_inv k name ev ev' sv → (0 < stages_left k sv)%nat →
  ∃ i, is_Some (system_step (Work i) sv).
Proof.
  intros [Hrun Hsize Hpart Hrest Hobj Hphase] Hleft.
  assert (∀ (i : nat) w, procs sv !! i = Some w →
            is_Some (wstep (shared sv) w) →
            is_Some (system_step (Work i) sv)) as Hact.
  { intros i w Hw [[s' w'] Hws]. unfold system_step.
    rewrite Hw. simpl. rewrite Hws. by eexists. }
  destruct Hphase as [(Hstages & Hcount & Hlt & Hclear)|(Hpost & Hc & Hset)].
  - (* the round is not complete: a process that does not wait acts *)
    destruct (count_if_exists waiting (take (Z.to_nat k) (procs sv)))
      as (i & w & Hw & Hnw).
    { rewrite length_take.
      rewrite <-(take_drop (Z.to_nat k) (procs sv)), count_if_app in Hcount.
      lia. }
    apply lookup_take_Some in Hw as [Hw Hik].
    exists i. apply (Hact i w Hw).
    destruct (Hpart i w Hw ltac:(lia)) as (Hidx & Hshr & Hshape).
    specialize (Hstages i w Hw ltac:(lia)).
    unfold wstep. unfold waiting in Hnw. unfold stage_of in Hstages.
    destruct (st w) as [|c|κ|κ|] eqn:Hst; try done; try lia.
    + rewrite Hrun.
      destruct Hshape as [(m & Hin & _)|(d & Hin & Hout & Hd)].
      * rewrite Hin. by eexists.
      * rewrite Hout in Hstages. lia.
    + destruct Hshape as (Hin & Hout & Htot &
        [[[-> | ->] [He He']] | [-> | (d & -> & Hd)]]); simpl in *;
        try lia; [by eexists|].
      rewrite He. destruct (sync_locked _ _ _). by eexists.
  - (* the round is complete: any process that is not done acts *)
    destruct (sum_list_with_pos _ _ Hleft) as (i & w & Hw & Hpos).
    apply lookup_take_Some in Hw as [Hw Hik].
    exists i. apply (Hact i w Hw).
    destruct (Hpart i w Hw ltac:(lia)) as (Hidx & Hshr & Hshape).
    specialize (Hpost i w Hw ltac:(lia)).
    unfold wstep. unfold stage_of in Hpost, Hpos.
    destruct (st w) as [|c|κ|κ|] eqn:Hst; try done.
    + destruct (rsend w); simpl in *; lia.
    + destruct Hshape as (Hin & Hout & Htot &
        [[[-> | ->] [He He']] | [-> | (d & -> & Hd)]]); simpl in *;
        try lia; by eexists.
    + destruct Hshape as (Hin & Hout & Htot & -> & He & He').
      rewrite He, Hrun. simpl. unfold sync_wait. rewrite Hset. simpl.
      by eexists.
Qed.

(** From every state of the job the processes can bring it to its end. *)
Lemma share_inv_complete (n : nat) (sv : Server share_ret) :
  share_inv k name ev ev' sv → (stages_left k sv ≤ n)%nat →
  ∃ sched sv', forallb is_work sched = true ∧
               run_schedule sched sv = Some sv' ∧
               share_inv k name ev ev' sv' ∧
               stages_left k sv' = 0%nat.
Proof.
  revert sv. induction n as [|n IH]; intros sv Hinv Hn.
  - exists [], sv. split; [done|]. split; [done|]. split; [done|lia].
  - destruct (decide (stages_left k sv = 0)%nat) as [Hz|Hnz].
    { exists [], sv. split; [done|]. split; [done|]. by split. }
    destruct (share_inv_enabled sv Hinv ltac:(lia)) as (i & sv1 & Hstep).
    destruct (share_inv_step _ _ _ Hinv Hstep) as [Hinv1 Hless].
    destruct (IH sv1 Hinv1 ltac:(lia)) as (sched & sv' & Hw & Hrun & Hinv' & Hz).
    exists (Work i :: sched), sv'. split; [done|].
    split; [by rewrite run_schedule_cons, Hstep|done].
Qed.

End sharing_round.

Lemma stages_left_bound (k : Z) (sv : Server share_ret) :
  (stages_left k sv ≤ 7 * Z.to_nat k)%nat.
Proof.
  unfold stages_left.
  assert (∀ l : list (Worker share_ret),
            (sum_list_with (λ w, 7 - stage_of w) l ≤ 7 * length l)%nat) as Hsum.
  { induction l as [|a l IH]; simpl; lia. }
  etrans; [apply Hsum|]. rewrite length_take. lia.
Qed.

(** X1.  On a pool whose processes hold the same current event, as a pool
    is created, a job in which each of [k > 1] processes calls
    [shareObject(name, index)] with the exchange goes as the specification
    says, whatever the order in which the processes act: what a process sends
    back is the dict [{idx: idx for idx in 0..k-1 if idx != self}] that
    [shareObject] returned to it; no execution takes more than [7k] actions;
    and from every state reached the processes can finish, after which the
    Future of the job is set to the dict of these dicts. *)
Theorem shareObject_round_trip (k N : Z) (name : string) (ev ev' : Event)
    (sv : Server share_ret) (sched : list (action share_ret))
    (sv' : Server share_ret) :
  aligned ev ev' sv → 1 < k →
  resolve_numprocs (realnumprocs sv) N 0 = k →
  k ≤ Z.of_nat (length (procs sv)) →
  forallb is_work sched = true →
  run_schedule (Submit (plain_job (share_own_index name) N) :: sched) sv
    = Some sv' →
  (∀ (i : nat) r, Z.of_nat i < k → pipe_head sv' i = Some r →
                  r = Val (ShareDict (others k (Z.of_nat i)))) ∧
  (length sched ≤ 7 * Z.to_nat k)%nat ∧
  ∃ sched' sv'' m,
    forallb is_work sched' = true ∧
    run_schedule (sched' ++ [Collect]) sv' = Some sv'' ∧
    resolved sv'' = resolved sv ++ [ResultMap m] ∧
    ∀ i, m !! i = if bool_decide (0 ≤ i < k)
                  then Some (Val (ShareDict (others k i))) else None.
Proof.
  intros Hal Hk Hres Hsize Hwork Hrun.
  pose proof Hal as (Hidle & _).
  rewrite run_schedule_cons in Hrun. unfold system_step in Hrun.
  rewrite Hidle in Hrun. simpl in Hrun.
  destruct (submit_share_inv k name ev ev' N sv Hal Hk Hres Hsize)
    as (Hd0 & Hr0 & Hwf0 & Hinv0).
  destruct (share_inv_sched k name ev ev' Hk sched _ _ Hinv0 Hwork Hrun)
    as (Hinv & Hlen & Hd & Hr & Hwf).
  assert (∀ sv1 : Server share_ret, share_inv k name ev ev' sv1 →
            ∀ (i : nat) r, Z.of_nat i < k → pipe_head sv1 i = Some r →
              r = Val (ShareDict (others k (Z.of_nat i)))) as Hpipe.
  { intros sv1 Hinv1 i r Hik Hhead. unfold pipe_head in Hhead.
    destruct (procs sv1 !! i) as [w|] eqn:Hw; [|done]. simpl in Hhead.
    destruct (sharing_pipe k name ev ev' _ w (inv_part _ _ _ _ _ Hinv1 i w Hw Hik))
      as [[Hout _]|[Hout _]]; rewrite Hout in Hhead; by simplify_eq/=. }
  split; [by apply Hpipe|]. split.
  { pose proof (stages_left_bound k (submit (plain_job (share_own_index name) N) sv)).
    lia. }
  destruct (share_inv_complete k name ev ev' Hk _ sv' Hinv (le_n _))
    as (sched' & sv1 & Hwork' & Hrun' & Hinv1 & Hz).
  destruct (share_inv_sched k name ev ev' Hk sched' _ _ Hinv Hwork' Hrun')
    as (_ & _ & Hd1 & Hr1 & Hwf1).
  assert (∀ i, 0 ≤ i < k →
            pipe_head sv1 (Z.to_nat i)
            = Some (Val (ShareDict (others k i)))) as Hheads.
  { intros i Hi. unfold pipe_head.
    pose proof (inv_size _ _ _ _ _ Hinv1) as Hsz.
    destruct (procs sv1 !! Z.to_nat i) as [w|] eqn:Hw;
      [|apply lookup_ge_None in Hw; lia].
    simpl.
    pose proof (inv_part _ _ _ _ _ Hinv1 _ w Hw ltac:(lia)) as Hsh.
    rewrite Z2Nat.id in Hsh by lia.
    destruct (sharing_pipe k name ev ev' _ w Hsh) as [[_ Hlt]|[Hout _]];
      [|by rewrite Hout].
    unfold stages_left in Hz.
    pose proof (sum_list_with_zero _ _ Hz w) as Hw0. simpl in Hw0.
    assert (w ∈ take (Z.to_nat k) (procs sv1)) as Hin.
    { apply list_elem_of_lookup. exists (Z.to_nat i).
      rewrite lookup_take_lt by lia. done. }
    specialize (Hw0 Hin). lia. }
  assert (disp sv1 = DPolling k) as Hpoll by congruence.
  destruct (collect_enabled k sv1) as [sv2 Hcollect].
  { pose proof (inv_size _ _ _ _ _ Hinv1). lia. }
  { intros i Hi. rewrite Hheads by done. by eexists. }
  destruct (collect_spec k sv1 sv2 (Hwf1 (Hwf Hwf0)) ltac:(lia) Hcollect)
    as (_ & m & Hm & Hlook).
  exists sched', sv2, m. split; [done|]. split.
  { rewrite run_schedule_app, Hrun'. simpl. unfold system_step.
    rewrite Hpoll. by rewrite Hcollect. }
  split; [congruence|].
  intros i. rewrite Hlook. case_bool_decide; [|done]. by apply Hheads.
Qed.

(** A pool as [run()] creates it is aligned on the first event. *)
Lemma start_server_aligned (n : Z) :
  aligned Event1 Event2 (start_server n).
Proof.
  unfold aligned, start_server. simpl. split; [done|]. split; [|split; [done|]].
  - intros i w Hw. simpl in Hw. case_bool_decide; [|done].
    rewrite list_lookup_fmap in Hw.
    destruct (seqZ 0 n !! i) as [z|] eqn:Hz; [|done].
    apply lookup_seqZ in Hz as [-> _]. by simplify_eq/=.
  - case_bool_decide; [|constructor].
    apply Forall_fmap, Forall_forall. intros z _. by repeat split.
Qed.

Lemma shareObject_round_trip_witness :
  let sched := [Work 0; Work 0; Work 0; Work 2; Work 2; Work 1]%nat in
  ∃ sv',
    run_schedule (Submit (plain_job (share_own_index "x") 3) :: sched)
                 (start_server 3) = Some sv' ∧
    (∀ (i : nat) r, Z.of_nat i < 3 → pipe_head sv' i = Some r →
                    r = Val (ShareDict (others 3 (Z.of_nat i)))) ∧
    (length sched ≤ 7 * Z.to_nat 3)%nat ∧
    ∃ sched' sv'' m,
      forallb is_work sched' = true ∧
      run_schedule (sched' ++ [Collect]) sv' = Some sv'' ∧
      resolved sv'' = resolved (start_server (R := share_ret) 3)
                        ++ [ResultMap m] ∧
      ∀ i, m !! i = if bool_decide (0 ≤ i < 3)
                    then Some (Val (ShareDict (others 3 i))) else None.
Proof.
  intros sched. eexists. split; [by vm_compute|].
  apply (shareObject_round_trip 3 3 "x" Event1 Event2 (start_server 3) sched).
  - apply start_server_aligned.
  - lia.
  - reflexivity.
  - simpl. lia.
  - reflexivity.
  - by vm_compute.
Defined.

(** * More of the module *)

(** ** [ObjectSharer]: publishing and looking up *)

(** X2.  Looking up after publishing: [getObjects(name,excludeIndex)] after
    [shareObject(i,n,o)] is the earlier dict with [o] put under [i] when
    [n] is [name] and [i] is not excluded, and the earlier dict otherwise; an
    object published twice under the same index and name is replaced; the
    excluded index never has an entry; with the default [excludeIndex=-1]
    every process index has its entry; after [clear()] the dict is empty. *)
Theorem ObjectSharer_laws (objmap : gmap (Z * string) pyval)
    (i : Z) (n name : string) (o o' : pyval) (excl : Z) :
  ObjectSharer_getObjects name excl (ObjectSharer_shareObject i n o objmap)
  = (if bool_decide (n = name ∧ i ≠ excl)
     then <[i := o]> (ObjectSharer_getObjects name excl objmap)
     else ObjectSharer_getObjects name excl objmap) ∧
  ObjectSharer_shareObject i n o' (ObjectSharer_shareObject i n o objmap)
  = ObjectSharer_shareObject i n o' objmap ∧
  ObjectSharer_getObjects name excl objmap !! excl = None ∧
  (0 ≤ i →
   ObjectSharer_getObjects name (-1) (ObjectSharer_shareObject i name o objmap)
     !! i = Some o) ∧
  ObjectSharer_getObjects name excl (ObjectSharer_clear objmap) = ∅.
Proof.
  split; [|split; [|split; [|split]]].
  - apply map_eq. intros i'. unfold ObjectSharer_shareObject.
    rewrite ObjectSharer_getObjects_lookup.
    destruct (decide (i' = excl)) as [->|Hex].
    + rewrite bool_decide_eq_true_2 by done.
      case_bool_decide as Hsel.
      * destruct Hsel as [_ Hne]. rewrite lookup_insert_ne by done.
        rewrite ObjectSharer_getObjects_lookup.
        by rewrite bool_decide_eq_true_2.
      * rewrite ObjectSharer_getObjects_lookup.
        by rewrite bool_decide_eq_true_2.
    + rewrite (bool_decide_eq_false_2 (i' = excl)) by done.
      case_bool_decide as Hsel.
      * destruct Hsel as [-> Hne].
        destruct (decide (i' = i)) as [->|Hii].
        -- by rewrite !lookup_insert_eq.
        -- rewrite !lookup_insert_ne; [|done|congruence].
           rewrite ObjectSharer_getObjects_lookup.
           by rewrite bool_decide_eq_false_2.
      * rewrite ObjectSharer_getObjects_lookup.
        rewrite bool_decide_eq_false_2 by done.
        apply lookup_insert_ne. intros [= -> ->]. by apply Hsel.
  - unfold ObjectSharer_shareObject. apply insert_insert_eq.
  - rewrite ObjectSharer_getObjects_lookup. by rewrite bool_decide_eq_true_2.
  - intros Hi. rewrite ObjectSharer_getObjects_lookup.
    rewrite bool_decide_eq_false_2 by lia.
    unfold ObjectSharer_shareObject. apply lookup_insert_eq.
  - apply map_eq. intros i'. rewrite ObjectSharer_getObjects_lookup.
    unfold ObjectSharer_clear. rewrite !lookup_empty. by case_bool_decide.
Qed.

Lemma ObjectSharer_laws_witness :
  ObjectSharer_getObjects "x" (-1)
    (ObjectSharer_shareObject 2 "x" (PyInt 7) ∅) !! 2 = Some (PyInt 7).
Proof.
  destruct (ObjectSharer_laws ∅ 2 "x" "x" (PyInt 7) (PyInt 7) 0)
    as (_ & _ & _ & H & _).
  apply H. lia.
Defined.

(** ** [chooseProcCount] and the number of processes of a job *)

(** X3.  The number of processes of a job of [numelems > 0] elements whose
    process count is chosen by [chooseProcCount], on a pool of
    [realprocs > 0] processes: one when the adjusted number of elements is
    under the threshold, and otherwise as many as there are elements or
    processes, whichever is less. *)
Theorem chooseProcCount_resolved (realprocs numelems : Z) (refine : option Z)
    (threshold : Z) :
  0 < realprocs → 0 < numelems →
  resolve_numprocs realprocs numelems
    (chooseProcCount realprocs numelems refine threshold)
  = if bool_decide
         (match refine with Some r => numelems * (r + 1) | None => numelems end
          < threshold)
    then 1
    else Z.min numelems realprocs.
Proof.
  intros Hr Hn. unfold chooseProcCount, resolve_numprocs.
  destruct refine as [r|]; repeat case_bool_decide; lia.
Qed.

Lemma chooseProcCount_resolved_witness :
  resolve_numprocs 4 100 (chooseProcCount 4 100 (Some 0) 50)
  = if bool_decide (100 * (0 + 1) < 50) then 1 else Z.min 100 4.
Proof. apply (chooseProcCount_resolved 4 100 (Some 0) 50); lia. Defined.

(** ** The shares of a job put together again *)

Lemma seqZ_snoc (m : nat) : seqZ 0 (Z.of_nat (S m)) = seqZ 0 (Z.of_nat m) ++ [Z.of_nat m].
Proof.
  replace (Z.of_nat (S m)) with (Z.of_nat m + 1) by lia.
  rewrite seqZ_app by lia. by rewrite Z.add_0_l.
Qed.

(** Slices between consecutive cut points, concatenated. *)
Lemma cuts_concat {A} (l : list A) (b : Z → Z) (m : nat) :
  b 0 = 0 →
  (∀ i, 0 ≤ i < Z.of_nat m → 0 ≤ b i ≤ b (i + 1) ∧ b (i + 1) ≤ Z.of_nat (length l)) →
  concat ((λ i, slice_list l (b i) (b (i + 1))) <$> seqZ 0 (Z.of_nat m))
  = take (Z.to_nat (b (Z.of_nat m))) l.
Proof.
  intros H0 Hb. induction m as [|m IH].
  - change (Z.of_nat 0) with 0. by rewrite H0.
  - rewrite seqZ_snoc, fmap_app, concat_app, IH by (intros; apply Hb; lia).
    simpl. rewrite app_nil_r.
    destruct (Hb (Z.of_nat m)) as [[Hlo Hle] Hhi]; [lia|].
    replace (Z.of_nat (S m)) with (Z.of_nat m + 1) by lia.
    unfold slice_list, slice_bound.
    destruct (Z.ltb_spec (b (Z.of_nat m)) 0); [lia|].
    destruct (Z.ltb_spec (b (Z.of_nat m + 1)) 0); [lia|].
    rewrite !Z.min_r, !Z.max_r by lia.
    rewrite take_take_drop. f_equal. lia.
Qed.

(** Integer ranges between consecutive cut points, concatenated. *)
Lemma cuts_seqZ (b : Z → Z) (m : nat) :
  b 0 = 0 →
  (∀ i, 0 ≤ i < Z.of_nat m → 0 ≤ b i ≤ b (i + 1)) →
  concat ((λ i, seqZ (b i) (b (i + 1) - b i)) <$> seqZ 0 (Z.of_nat m))
  = seqZ 0 (b (Z.of_nat m)).
Proof.
  intros H0 Hb. induction m as [|m IH].
  - change (Z.of_nat 0) with 0. by rewrite H0.
  - rewrite seqZ_snoc, fmap_app, concat_app, IH by (intros; apply Hb; lia).
    simpl. rewrite app_nil_r.
    destruct (Hb (Z.of_nat m)) as [Hlo Hle]; [lia|].
    replace (Z.of_nat (S m)) with (Z.of_nat m + 1) by lia.
    rewrite <- (Z.add_0_l (b (Z.of_nat m))) at 2.
    rewrite <- seqZ_app by lia. f_equal. lia.
Qed.

(** X4.  The slices [prepareArgs] cuts a flagged list into for the processes
    [0 .. numprocs-1] of a job, concatenated in index order by [listSum],
    give the list back: nothing is lost, repeated or reordered. *)
Theorem list_shares_listSum {A} (l : list A) (numprocs : Z) :
  0 < numprocs → listSum (list_shares l numprocs) = l.
Proof.
  intros Hk. unfold listSum, list_shares.
  set (n := Z.of_nat (length l)).
  pose proof (cuts_concat l (λ i, i * n / numprocs) (Z.to_nat numprocs)) as H.
  simpl in H. rewrite Z2Nat.id in H by lia.
  rewrite part_bound_k in H by lia.
  unfold partitionSequence. rewrite H.
  - unfold n. rewrite Nat2Z.id. apply firstn_all.
  - apply Z.div_0_l. lia.
  - intros i Hi. split; [split|].
    + apply Z.div_pos; [|lia]. unfold n. nia.
    + apply part_bound_mono; unfold n; lia.
    + etransitivity; [apply (part_bound_mono n numprocs) with (j := numprocs)|];
        [unfold n; lia|lia|lia|].
      by rewrite part_bound_k by lia.
Qed.

Lemma list_shares_listSum_witness :
  listSum (list_shares [1; 2; 3; 4; 5] 3) = [1; 2; 3; 4; 5].
Proof. apply (list_shares_listSum [1; 2; 3; 4; 5] 3). lia. Defined.

(** ** Dispatch of a job to the processes *)

(** Whether [prepareArgs] raises does not depend on the process it prepares
    for: it raises on the first flagged argument that has no length. *)
Lemma prepareArg_returns (i k i' k' : Z) (partArgs : list pyval) (a p : pyval) :
  prepareArg i k partArgs a = Returns p →
  ∃ p', prepareArg i' k' partArgs a = Returns p'.
Proof.
  unfold prepareArg. case_bool_decide; [|by eauto].
  destruct a; simpl; try done; eauto.
Qed.

Lemma prepareArg_raises (i k i' k' : Z) (partArgs : list pyval) (a : pyval) e :
  prepareArg i k partArgs a = Raises e →
  prepareArg i' k' partArgs a = Raises e.
Proof.
  unfold prepareArg. case_bool_decide; [|done].
  destruct a; simpl; done.
Qed.

Lemma prepareArgs_loop_raises (i k i' k' : Z) (partArgs args : list pyval) e :
  ∀ pargs pargs',
  prepareArgs_loop i k partArgs args pargs = Raises e →
  prepareArgs_loop i' k' partArgs args pargs' = Raises e.
Proof.
  induction args as [|a args IH]; intros pargs pargs'; [done|].
  simpl. destruct (prepareArg i k partArgs a) as [p|e0] eqn:Ha; simpl.
  - destruct (prepareArg_returns i k i' k' _ _ _ Ha) as [p' ->]. simpl.
    apply IH.
  - intros [= ->]. by rewrite (prepareArg_raises i k i' k' _ _ _ Ha).
Qed.

Lemma prepareArgs_raises (i k i' k' : Z) (args partArgs : list pyval) e :
  prepareArgs i k args partArgs = Raises e →
  prepareArgs i' k' args partArgs = Raises e.
Proof. apply prepareArgs_loop_raises. Qed.

(** The send loop of [run()] when [prepareArgs] returns: every process of
    the range is sent its job tuple, the others nothing. *)
Lemma send_jobs_ok {R} (j : Job R) (k : Z) (n : nat) (a : nat)
    (ps : list (Worker R)) :
  (∀ i, ∃ pargs, prepareArgs i k (args j) (partitionArgs j) = Returns pargs) →
  (a + n ≤ length ps)%nat →
  ∃ ps', send_jobs j k (seqZ (Z.of_nat a) (Z.of_nat n)) ps = (ps', None) ∧
    length ps' = length ps ∧
    ∀ (i : nat) w, ps !! i = Some w →
      ps' !! i = Some
        (if bool_decide (a ≤ i < a + n)%nat
         then send_to (job_msg j k (Z.of_nat i)) w
         else w).
Proof.
  intros Hok. revert a ps. induction n as [|n IH]; intros a ps Hlen.
  - exists ps. split; [done|]. split; [done|]. intros i w Hw.
    by rewrite bool_decide_eq_false_2 by lia.
  - rewrite seqZ_cons by lia. simpl.
    rewrite Nat2Z.id.
    destruct (Hok (Z.of_nat a)) as [pargs Hp].
    assert (Hm : {| job_target := target j; job_args := pargs;
                    job_kwargs := kwargs j;
                    job_start := Z.of_nat a * valrange j / k;
                    job_end := (Z.of_nat a + 1) * valrange j / k;
                    job_maxval := valrange j; job_total := k |}
                 = job_msg j k (Z.of_nat a)).
    { unfold job_msg. by rewrite Hp. }
    rewrite Hp, Hm.
    destruct (ps !! a) as [wa|] eqn:Hwa;
      [|apply lookup_ge_None in Hwa; lia].
    replace (Z.succ (Z.of_nat a)) with (Z.of_nat (S a)) by lia.
    replace (Z.pred (Z.of_nat (S n))) with (Z.of_nat n) by lia.
    destruct (IH (S a) (<[a := send_to (job_msg j k (Z.of_nat a)) wa]> ps))
      as (ps' & Hsend & Hlen' & Hget).
    { rewrite length_insert. lia. }
    exists ps'. split; [done|]. rewrite length_insert in Hlen'.
    split; [done|]. intros i w Hw.
    destruct (decide (i = a)) as [->|Hia].
    + rewrite (Hget a (send_to (job_msg j k (Z.of_nat a)) wa)).
      * rewrite bool_decide_eq_false_2 by lia.
        rewrite bool_decide_eq_true_2 by lia. congruence.
      * rewrite list_lookup_insert_eq; [done|].
        by apply lookup_lt_is_Some_1.
    + rewrite (Hget i w) by (by rewrite list_lookup_insert_ne).
      f_equal. repeat case_bool_decide; try done; lia.
Qed.

(** X6.  A job for more than one process is sent to all of its processes or
    to none.  On a pool that holds its [realnumprocs] processes, the turn of
    the dispatch loop for a job whose process count is not 1 ends in one of
    two ways.  Either [prepareArgs] raises, for every process alike; then
    no process is sent anything and the exception leaves the [with result:]
    block.  Or each of the first [numprocs] processes is sent its job tuple
    (target, its own arguments, [kwargs], its sub-range, [valrange],
    [numprocs]), the other processes nothing, and the loop goes on to poll;
    [self.procs[i]] is never out of range. *)
Theorem dispatch_all_or_none {R} (j : Job R) (sv : Server R) :
  let k := resolve_numprocs (realnumprocs sv) (valrange j) (numprocs j) in
  let s := set_counter 0
             (set_objmap (ObjectSharer_clear (objmap (shared sv))) (shared sv)) in
  1 ≤ realnumprocs sv ≤ Z.of_nat (length (procs sv)) →
  k ≠ 1 →
  (∃ e, (∀ i numprocs',
           prepareArgs i numprocs' (args j) (partitionArgs j) = Raises e) ∧
        submit j sv
        = set_server sv s (procs sv) DIdle (resolved sv ++ [BlockError e])) ∨
  (∃ ps, submit j sv = set_server sv s ps (DPolling k) (resolved sv) ∧
         length ps = length (procs sv) ∧
         ∀ (i : nat) w, procs sv !! i = Some w →
           ps !! i = Some (if bool_decide (Z.of_nat i < k)
                           then send_to (job_msg j k (Z.of_nat i)) w
                           else w)).
Proof.
  intros k s Hreal Hk.
  assert (Hkle : k ≤ Z.of_nat (length (procs sv))).
  { unfold k, resolve_numprocs. case_bool_decide; lia. }
  unfold submit. fold k.
  rewrite (bool_decide_eq_false_2 (k = 1)) by done.
  rewrite bool_decide_eq_false_2 by lia. simpl. fold s.
  destruct (decide (0 < k)) as [Hpos|Hneg].
  - destruct (prepareArgs 0 k (args j) (partitionArgs j)) as [p0|e] eqn:H0.
    + right.
      destruct (send_jobs_ok j k (Z.to_nat k) 0 (procs sv))
        as (ps & Hsend & Hlen & Hget).
      { intros i.
        destruct (prepareArgs i k (args j) (partitionArgs j)) as [p|e] eqn:Hi;
          [by eauto|].
        apply (prepareArgs_raises i k 0 k) in Hi. congruence. }
      { lia. }
      rewrite Z2Nat.id in Hsend by lia. change (Z.of_nat 0) with 0 in Hsend.
      rewrite Hsend. exists ps. split; [done|]. split; [done|].
      intros i w Hw. rewrite (Hget i w Hw). f_equal.
      repeat case_bool_decide; try done; lia.
    + left. exists e. split.
      { intros i k'. by apply (prepareArgs_raises 0 k i k'). }
      rewrite seqZ_cons by lia. simpl.
      change (prepareArgs_loop 0 k (partitionArgs j) (args j) [])
        with (prepareArgs 0 k (args j) (partitionArgs j)).
      by rewrite H0.
  - right. exists (procs sv). rewrite seqZ_nil by lia. simpl.
    split; [done|]. split; [done|]. intros i w Hw.
    by rewrite bool_decide_eq_false_2 by lia.
Qed.

Lemma dispatch_all_or_none_witness :
  disp (submit {| valrange := 4; numprocs := 0;
                  target := λ _ _ _, Ret 0;
                  args := [PyList [PyInt 1; PyInt 2]]; kwargs := ∅;
                  partitionArgs := [PyList [PyInt 1; PyInt 2]] |}
               (start_server 2))
  = DPolling 2.
Proof.
  destruct (dispatch_all_or_none
              {| valrange := 4; numprocs := 0;
                 target := λ _ _ _, Ret 0;
                 args := [PyList [PyInt 1; PyInt 2]]; kwargs := ∅;
                 partitionArgs := [PyList [PyInt 1; PyInt 2]] |}
              (start_server 2))
    as [(e & He & _)|(ps & Hs & _)].
  - vm_compute. split; discriminate.
  - vm_compute. discriminate.
  - specialize (He 0 2). vm_compute in He. discriminate.
  - rewrite Hs. reflexivity.
Defined.

(** ** A job whose target neither synchronises nor shares *)

(** The turn of the dispatch loop when [prepareArgs] returns. *)
Lemma submit_ok {R} (j : Job R) (sv : Server R) :
  let k := resolve_numprocs (realnumprocs sv) (valrange j) (numprocs j) in
  1 ≤ realnumprocs sv ≤ Z.of_nat (length (procs sv)) →
  k ≠ 1 →
  (∃ pargs, prepareArgs 0 k (args j) (partitionArgs j) = Returns pargs) →
  ∃ ps, submit j sv
        = set_server sv
            (set_counter 0
               (set_objmap (ObjectSharer_clear (objmap (shared sv)))
                           (shared sv)))
            ps (DPolling k) (resolved sv) ∧
        length ps = length (procs sv) ∧
        ∀ (i : nat) w, procs sv !! i = Some w →
          ps !! i = Some (if bool_decide (Z.of_nat i < k)
                          then send_to (job_msg j k (Z.of_nat i)) w
                          else w).
Proof.
  intros k Hreal Hk [p0 H0].
  assert (Hkle : k ≤ Z.of_nat (length (procs sv))).
  { unfold k, resolve_numprocs. case_bool_decide; lia. }
  unfold submit. fold k.
  rewrite (bool_decide_eq_false_2 (k = 1)) by done.
  rewrite bool_decide_eq_false_2 by lia. simpl.
  destruct (send_jobs_ok j k (Z.to_nat k) 0 (procs sv))
    as (ps & Hsend & Hlen & Hget).
  { intros i.
    destruct (prepareArgs i k (args j) (partitionArgs j)) as [p|e] eqn:Hi;
      [by eauto|].
    apply (prepareArgs_raises i k 0 k) in Hi. congruence. }
  { lia. }
  destruct (decide (0 < k)) as [Hpos|Hneg].
  - rewrite Z2Nat.id in Hsend by lia. change (Z.of_nat 0) with 0 in Hsend.
    rewrite Hsend. exists ps. split; [done|]. split; [done|].
    intros i w Hw. rewrite (Hget i w Hw). f_equal.
    repeat case_bool_decide; try done; lia.
  - exists (procs sv). rewrite seqZ_nil by lia. simpl.
    split; [done|]. split; [done|]. intros i w Hw.
    by rewrite bool_decide_eq_false_2 by lia.
Qed.

(** A pool as [run()] creates it is at rest. *)
Lemma start_server_at_rest {R} (n : Z) : at_rest (start_server (R := R) n).
Proof.
  unfold at_rest, start_server. simpl. split; [done|]. split; [|split; [done|]].
  - intros i w Hw. simpl in Hw. case_bool_decide; [|done].
    rewrite list_lookup_fmap in Hw.
    destruct (seqZ 0 n !! i) as [z|] eqn:Hz; [|done].
    apply lookup_seqZ in Hz as [-> _]. by simplify_eq/=.
  - case_bool_decide; [|constructor].
    apply Forall_fmap, Forall_forall. intros z _. by repeat split.
Qed.

(** X5.  The ranges the processes of a job iterate over cover the range of
    the job.  A job for a range that is not negative and a process count
    [numprocs] other than 1 is sent to a pool at rest, [prepareArgs]
    returning; each of the first [numprocs] processes then has its job tuple
    in its pipe, and [nrange()] of these processes, once each has unpacked
    its tuple in [run()], taken in index order one after the other, is
    [0, 1, ..., valrange-1]: no value is left out or visited twice. *)
Theorem nrange_cover {R} (j : Job R) (sv : Server R) :
  let k := resolve_numprocs (realnumprocs sv) (valrange j) (numprocs j) in
  at_rest sv →
  1 ≤ realnumprocs sv ≤ Z.of_nat (length (procs sv)) →
  0 ≤ valrange j → k ≠ 1 →
  (∃ pargs, prepareArgs 0 k (args j) (partitionArgs j) = Returns pargs) →
  Forall (λ w, ∃ m, inbox w = [m])
         (take (Z.to_nat k) (procs (submit j sv))) ∧
  concat ((λ w, match inbox w with
                | m :: _ => nrange (unpack (proc w) m)
                | [] => []
                end) <$> take (Z.to_nat k) (procs (submit j sv)))
  = seqZ 0 (valrange j).
Proof.
  intros k (_ & _ & _ & Hall) Hreal HN Hk Hp.
  assert (Hk0 : 0 ≤ k ≤ Z.of_nat (length (procs sv))).
  { unfold k, resolve_numprocs. case_bool_decide; lia. }
  destruct (submit_ok j sv Hreal Hk Hp) as (ps & -> & Hlen & Hget).
  fold k in Hget. cbn [procs set_server].
  assert (∀ i : nat, (i < Z.to_nat k)%nat →
            ∃ w, procs sv !! i = Some w ∧ inbox w = [] ∧
                 ps !! i = Some (send_to (job_msg j k (Z.of_nat i)) w))
    as Hsent.
  { intros i Hi.
    destruct (lookup_lt_is_Some_2 (procs sv) i ltac:(lia)) as [w Hw].
    exists w. split; [done|].
    destruct (Forall_lookup_1 _ _ _ _ Hall Hw) as (_ & Hin & _).
    split; [done|]. rewrite (Hget i w Hw).
    by rewrite bool_decide_eq_true_2 by lia. }
  split.
  - apply Forall_lookup. intros i w' Hw'.
    apply lookup_take_Some in Hw' as [Hw' Hi].
    destruct (Hsent i Hi) as (w & _ & Hin & Hps).
    rewrite Hps in Hw'. injection Hw' as <-. simpl. rewrite Hin. by eexists.
  - pose proof (cuts_seqZ (λ i, i * valrange j / k) (Z.to_nat k)) as H.
    simpl in H. rewrite Z2Nat.id in H by lia.
    destruct (decide (k = 0)) as [Hz|Hnz].
    + rewrite Hz. simpl.
      assert (valrange j = 0) as ->; [|done].
      unfold k, resolve_numprocs in Hz. case_bool_decide; lia.
    + rewrite part_bound_k in H by lia. rewrite <- H.
      * f_equal. apply list_eq. intros i.
        rewrite !list_lookup_fmap.
        destruct (decide (i < Z.to_nat k)%nat) as [Hi|Hi].
        -- destruct (Hsent i Hi) as (w & _ & Hin & Hps).
           rewrite lookup_take_lt, Hps by done.
           rewrite lookup_seqZ_lt by lia. simpl. rewrite Hin. simpl.
           unfold nrange. simpl. by rewrite Z.add_0_l.
        -- rewrite lookup_take_ge by lia.
           by rewrite lookup_seqZ_ge by lia.
      * apply Z.div_0_l. lia.
      * intros i Hi. split.
        -- apply Z.div_pos; [nia|lia].
        -- apply part_bound_mono; lia.
Qed.

Lemma nrange_cover_witness :
  let j := {| valrange := 50; numprocs := 4;
              target := concurrencyTestProcessValues;
              args := []; kwargs := ∅; partitionArgs := [] |} in
  Forall (λ w, ∃ m, inbox w = [m])
         (take (Z.to_nat 4) (procs (submit j (start_server 6)))) ∧
  concat ((λ w, match inbox w with
                | m :: _ => nrange (unpack (proc w) m)
                | [] => []
                end) <$> take (Z.to_nat 4) (procs (submit j (start_server 6))))
  = seqZ 0 50.
Proof.
  intros j.
  apply (nrange_cover j (start_server 6)).
  - apply start_server_at_rest.
  - simpl. lia.
  - simpl. lia.
  - vm_compute. discriminate.
  - by eexists.
Defined.

Section pure_job.
Context {R : Type}.
Variable g : AlgorithmProcess → list pyval → gmap string pyval → outcome R.
Variable j : Job R.
Variable k : Z.
Hypothesis Hg : ∀ p a kw, target j p a kw = lift_outcome (g p a kw).

(** An action of a process of the job keeps its place in the job and
    brings it nearer to its end. *)
Lemma pure_at_step (s s' : Shared) (w0 w w' : Worker R) :
  continueRunning s = true →
  pure_at g j k w0 w → wstep s w = Some (s', w') →
  pure_at g j k w0 w' ∧ continueRunning s' = true ∧
  (pure_left w' < pure_left w)%nat ∧ 0 ≤ index (proc w0) < k.
Proof.
  intros Hrun [Hidx Hat] Hstep. unfold pure_at.
  case_bool_decide as Hik.
  - unfold wstep in Hstep. unfold pure_left.
    destruct (st w) as [|c|κ|κ|] eqn:Hst; try done.
    + rewrite Hrun in Hstep.
      destruct Hat as [(Hin & Hout & Hp)|(Hin & Hout)];
        rewrite Hin in Hstep; [|done].
      simplify_eq/=. rewrite Hout, Hp. split; [|split; [done|split; [lia|done]]].
      split; [done|].
      split; [done|]. split; [done|]. apply Hg.
    + destruct Hat as (Hin & Hout & ->). unfold job_result.
      destruct (g _ _ _) as [v|e]; simpl in Hstep;
        injection Hstep as <- <-; simpl; rewrite Hout; simpl.
      * split; [|split; [done|split; [lia|done]]].
        split; [done|]. right. by split.
      * split; [|split; [done|split; [lia|done]]].
        split; [done|]. by split.
    + destruct Hat as (Hin & Hout). simplify_eq/=. rewrite Hout.
      split; [|split; [done|split; [lia|done]]].
      split; [done|].
      right. by split.
  - destruct Hat as (Hst & Hin & _). unfold wstep in Hstep.
    rewrite Hst, Hin in Hstep. by destruct (continueRunning s).
Qed.

Lemma pure_inv_step (ps0 : list (Worker R)) (sv sv' : Server R) (i : nat) :
  pure_inv g j k ps0 sv →
  system_step (Work i) sv = Some sv' →
  pure_inv g j k ps0 sv' ∧ (jobs_left k sv' < jobs_left k sv)%nat.
Proof.
  intros (Hrun & Hwf & Hall) Hstep.
  destruct (work_step_frame _ _ _ Hstep) as (_ & _ & _ & _ & Hwf').
  destruct (work_step_inv _ _ _ Hstep) as (w & s' & w' & Hw & Hws & ->).
  destruct (Forall2_lookup_r _ _ _ _ _ Hall Hw) as (w0 & Hw0 & Hat).
  destruct (pure_at_step _ _ _ _ _ Hrun Hat Hws) as (Hat' & Hrun' & Hlt & Hik).
  split; [split; [done|split; [by apply Hwf'|]]|].
  - simpl. rewrite <- (list_insert_id ps0 i w0) by done.
    by apply Forall2_insert.
  - unfold jobs_left. simpl.
    assert (index (proc w) = Z.of_nat i) as Hi by (by apply Hwf).
    destruct Hat as [Hidx _].
    rewrite take_insert_lt by lia.
    assert (take (Z.to_nat k) (procs sv) !! i = Some w) as Hw'
      by (rewrite lookup_take_lt by lia; done).
    pose proof (sum_list_with_insert pure_left _ _ _ w' Hw'). lia.
Qed.

Lemma pure_inv_sched (ps0 : list (Worker R)) (sched : list (action R))
    (sv sv' : Server R) :
  pure_inv g j k ps0 sv →
  forallb is_work sched = true →
  run_schedule sched sv = Some sv' →
  pure_inv g j k ps0 sv' ∧
  (length sched + jobs_left k sv' ≤ jobs_left k sv)%nat ∧
  disp sv' = disp sv ∧ resolved sv' = resolved sv.
Proof.
  revert sv. induction sched as [|a sched IH]; intros sv Hinv Hwork Hrun.
  - simplify_eq/=. split; [done|]. split; [lia|done].
  - simpl in Hwork. apply andb_true_iff in Hwork as [Ha Hwork].
    rewrite run_schedule_cons in Hrun.
    destruct (system_step a sv) as [sv1|] eqn:Hstep; [|done]. simpl in Hrun.
    destruct a as [|i| |]; try done.
    destruct (pure_inv_step _ _ _ _ Hinv Hstep) as [Hinv1 Hless].
    destruct (work_step_frame _ _ _ Hstep) as (Hd & Hr & _).
    destruct (IH _ Hinv1 Hwork Hrun) as (Hinv' & Hlen & Hd' & Hr').
    split; [done|]. split; [simpl; lia|].
    split; congruence.
Qed.

(** As long as a process of the job has something left to do, it can
    act. *)
Lemma pure_inv_enabled (ps0 : list (Worker R)) (sv : Server R) :
  pure_inv g j k ps0 sv → (0 < jobs_left k sv)%nat →
  ∃ i, is_Some (system_step (Work i) sv).
Proof.
  intros (Hrun & Hwf & Hall) Hleft.
  destruct (sum_list_with_pos _ _ Hleft) as (i & w & Hw & Hpos).
  apply lookup_take_Some in Hw as [Hw Hik].
  destruct (Forall2_lookup_r _ _ _ _ _ Hall Hw) as (w0 & Hw0 & Hidx & Hat).
  exists i. unfold system_step. rewrite Hw. simpl.
  assert (is_Some (wstep (shared sv) w)) as [[s' w'] ->]; [|by eexists].
  unfold wstep. unfold pure_left in Hpos.
  case_bool_decide as Hi.
  - destruct (st w) as [|c|κ|κ|] eqn:Hst; try done.
    + rewrite Hrun.
      destruct Hat as [(-> & _)|(_ & Hout)]; [by eexists|].
      rewrite Hout in Hpos. lia.
    + destruct Hat as (_ & _ & ->). by destruct (g _ _ _).
  - exfalso. apply Hi. rewrite <- Hidx, (Hwf i w Hw). lia.
Qed.

(** From every state of the job the processes can bring it to its end. *)
Lemma pure_inv_complete (ps0 : list (Worker R)) (n : nat) (sv : Server R) :
  pure_inv g j k ps0 sv → (jobs_left k sv ≤ n)%nat →
  ∃ sched sv', forallb is_work sched = true ∧
               run_schedule sched sv = Some sv' ∧
               pure_inv g j k ps0 sv' ∧
               jobs_left k sv' = 0%nat.
Proof.
  revert sv. induction n as [|n IH]; intros sv Hinv Hn.
  - exists [], sv. split; [done|]. split; [done|]. split; [done|lia].
  - destruct (decide (jobs_left k sv = 0)%nat) as [Hz|Hnz].
    { exists [], sv. split; [done|]. split; [done|]. by split. }
    destruct (pure_inv_enabled _ sv Hinv ltac:(lia)) as (i & sv1 & Hstep).
    destruct (pure_inv_step _ _ _ _ Hinv Hstep) as [Hinv1 Hless].
    destruct (IH sv1 Hinv1 ltac:(lia)) as (sched & sv' & Hw & Hrun & Hinv' & Hz).
    exists (Work i :: sched), sv'. split; [done|].
    split; [by rewrite run_schedule_cons, Hstep|done].
Qed.

(** What a process of the job has in its result pipe is its result. *)
Lemma pure_inv_pipe (ps0 : list (Worker R)) (sv : Server R) (i : nat)
    (w0 : Worker R) (r : pyres R) :
  pure_inv g j k ps0 sv → ps0 !! i = Some w0 → Z.of_nat i < k →
  pipe_head sv i = Some r → r = job_result g j k (proc w0).
Proof.
  intros (Hrun & Hwf & Hall) Hw0 Hik Hhead. unfold pipe_head in Hhead.
  destruct (Forall2_lookup_l _ _ _ _ _ Hall Hw0) as (w & Hw & Hidx & Hat).
  rewrite Hw in Hhead. simpl in Hhead.
  rewrite bool_decide_eq_true_2 in Hat
    by (rewrite <- Hidx, (Hwf i w Hw); lia).
  destruct (st w) as [|c|κ|κ|]; try done.
  - destruct Hat as [(_ & Hout & _)|(_ & Hout)];
      rewrite Hout in Hhead; by simplify_eq/=.
  - destruct Hat as (_ & Hout & _). by rewrite Hout in Hhead.
  - destruct Hat as (_ & Hout). rewrite Hout in Hhead. by simplify_eq/=.
Qed.

(** At the end of the job every process of it has its result in its
    pipe. *)
Lemma pure_inv_done (ps0 : list (Worker R)) (sv : Server R) (i : nat)
    (w0 : Worker R) :
  pure_inv g j k ps0 sv → jobs_left k sv = 0%nat →
  ps0 !! i = Some w0 → Z.of_nat i < k →
  pipe_head sv i = Some (job_result g j k (proc w0)).
Proof.
  intros (Hrun & Hwf & Hall) Hz Hw0 Hik. unfold pipe_head.
  destruct (Forall2_lookup_l _ _ _ _ _ Hall Hw0) as (w & Hw & Hidx & Hat).
  rewrite Hw. simpl.
  rewrite bool_decide_eq_true_2 in Hat
    by (rewrite <- Hidx, (Hwf i w Hw); lia).
  assert (w ∈ take (Z.to_nat k) (procs sv)) as Hin.
  { apply list_elem_of_lookup. exists i. rewrite lookup_take_lt by lia. done. }
  pose proof (sum_list_with_zero _ _ Hz w Hin) as Hw0'.
  unfold pure_left in Hw0'.
  destruct (st w) as [|c|κ|κ|]; try done.
  destruct Hat as [(_ & Hout & _)|(_ & Hout)]; rewrite Hout in *; [lia|done].
Qed.
End pure_job.

Lemma pure_left_bound {R} (l : list (Worker R)) :
  (sum_list_with pure_left l ≤ 3 * length l)%nat.
Proof.
  induction l as [|w l IH]; simpl; [lia|].
  assert (pure_left w ≤ 3)%nat; [|lia].
  unfold pure_left. destruct (st w); try lia. destruct (rsend w); lia.
Qed.

(** The job, sent to a pool at rest, establishes the invariant. *)
Lemma submit_pure_inv {R}
    (g : AlgorithmProcess → list pyval → gmap string pyval → outcome R)
    (j : Job R) (sv : Server R) :
  let k := resolve_numprocs (realnumprocs sv) (valrange j) (numprocs j) in
  at_rest sv →
  1 ≤ realnumprocs sv ≤ Z.of_nat (length (procs sv)) →
  k ≠ 1 →
  (∃ pargs, prepareArgs 0 k (args j) (partitionArgs j) = Returns pargs) →
  disp (submit j sv) = DPolling k ∧
  resolved (submit j sv) = resolved sv ∧
  realnumprocs (submit j sv) = realnumprocs sv ∧
  pure_inv g j k (procs sv) (submit j sv).
Proof.
  intros k (Hidle & Hwf & Hrun & Hall) Hreal Hk Hp.
  destruct (submit_ok j sv Hreal Hk Hp) as (ps & -> & Hlen & Hget).
  fold k in Hget |- *. simpl.
  split; [done|]. split; [done|]. split; [done|].
  split; [done|]. split.
  - intros i w Hw. simpl in Hw.
    destruct (procs sv !! i) as [w0|] eqn:Hw0.
    + rewrite (Hget i w0 Hw0) in Hw. simplify_eq.
      rewrite <- (Hwf i w0 Hw0). by case_bool_decide.
    + apply lookup_ge_None in Hw0. apply lookup_lt_Some in Hw. lia.
  - simpl. apply Forall2_same_length_lookup. split; [done|].
    intros i w0 w Hw0 Hw. rewrite (Hget i w0 Hw0) in Hw. simplify_eq.
    destruct (Forall_lookup_1 _ _ _ _ Hall Hw0) as (Hst & Hin & Hout).
    pose proof (Hwf i w0 Hw0) as Hidx.
    unfold pure_at. split; [by case_bool_decide|].
    rewrite Hidx.
    destruct (decide (Z.of_nat i < k)) as [Hik|Hik].
    + rewrite !bool_decide_eq_true_2 by lia. simpl. rewrite Hst, Hin, Hout.
      by left.
    + rewrite !bool_decide_eq_false_2 by lia. done.
Qed.

(** The processes after the polling loop has received the results: the
    first [k] with the head of their result pipe taken off. *)
Lemma collect_procs {R} (k : Z) (sv sv' : Server R) :
  0 ≤ k → collect k sv = Some sv' →
  shared sv' = shared sv ∧ realnumprocs sv' = realnumprocs sv ∧
  length (procs sv') = length (procs sv) ∧
  ∀ (i : nat) w, procs sv !! i = Some w →
    procs sv' !! i
    = Some (if bool_decide (Z.of_nat i < k)
            then {| proc := proc w; st := st w; inbox := inbox w;
                    rsend := tail (rsend w) |}
            else w).
Proof.
  intros Hk. unfold collect. rewrite slice_list_prefix by done.
  destruct (any_not_ready _) eqn:Hready; [done|]. intros [= <-]. simpl.
  assert (∀ ws : list (Worker R), any_not_ready ws = false →
            snd <$> omap recv_result ws
            = (λ w, {| proc := proc w; st := st w; inbox := inbox w;
                       rsend := tail (rsend w) |}) <$> ws) as Hgot.
  { induction ws as [|w ws IH]; simpl; intros Hr; [done|].
    apply orb_false_iff in Hr as [Hw Hws].
    unfold recv_result at 1. destruct (rsend w) as [|r rest]; [done|].
    simpl. f_equal. by apply IH. }
  rewrite Hgot by done.
  split; [done|]. split; [done|]. split.
  - rewrite length_app, length_fmap, length_drop, !length_take. lia.
  - intros i w Hw. rewrite length_take.
    destruct (decide (Z.of_nat i < k)) as [Hik|Hik].
    + rewrite bool_decide_eq_true_2 by done.
      rewrite lookup_app_l
        by (rewrite length_fmap, length_take;
            apply lookup_lt_Some in Hw; lia).
      rewrite list_lookup_fmap, lookup_take_lt by lia. by rewrite Hw.
    + rewrite bool_decide_eq_false_2 by done.
      apply lookup_lt_Some in Hw as Hlt.
      rewrite lookup_app_r by (rewrite length_fmap, length_take; lia).
      rewrite length_fmap, length_take, lookup_drop.
      rewrite <- Hw. f_equal. lia.
Qed.

Lemma work_sched_realnumprocs {R} (sched : list (action R))
    (sv sv' : Server R) :
  forallb is_work sched = true → run_schedule sched sv = Some sv' →
  realnumprocs sv' = realnumprocs sv.
Proof.
  revert sv. induction sched as [|a sched IH]; intros sv Hwork Hrun.
  - by simplify_eq/=.
  - simpl in Hwork. apply andb_true_iff in Hwork as [Ha Hwork].
    rewrite run_schedule_cons in Hrun.
    destruct (system_step a sv) as [sv1|] eqn:Hstep; [|done]. simpl in Hrun.
    destruct a as [|i| |]; try done.
    destruct (work_step_frame _ _ _ Hstep) as (_ & _ & Hn & _).
    rewrite (IH _ Hwork Hrun). done.
Qed.

(** X7.  A job whose target neither synchronises nor shares, sent to a pool
    at rest for a range that is not negative and a process count that is not
    1, [prepareArgs] returning: whatever the order in which the processes
    act, what process [i] sends back is the value or the exception of the
    target called on the process, with [total], [startval], [endval] and
    [maxval] set from the job tuple, and on its own arguments; no execution
    takes more than [3·numprocs] actions; and from every state reached the
    processes can finish, after which the Future of the job is set to the
    dict of these results by index and the pool is at rest again, with as
    many processes as before. *)
Theorem pure_job_result {R}
    (g : AlgorithmProcess → list pyval → gmap string pyval → outcome R)
    (j : Job R) (sv : Server R) (sched : list (action R)) (sv' : Server R) :
  let k := resolve_numprocs (realnumprocs sv) (valrange j) (numprocs j) in
  at_rest sv →
  1 ≤ realnumprocs sv ≤ Z.of_nat (length (procs sv)) →
  0 ≤ valrange j → k ≠ 1 →
  (∀ p a kw, target j p a kw = lift_outcome (g p a kw)) →
  (∃ pargs, prepareArgs 0 k (args j) (partitionArgs j) = Returns pargs) →
  forallb is_work sched = true →
  run_schedule (Submit j :: sched) sv = Some sv' →
  (∀ (i : nat) w0 r, Z.of_nat i < k → procs sv !! i = Some w0 →
     pipe_head sv' i = Some r → r = job_result g j k (proc w0)) ∧
  (length sched ≤ 3 * Z.to_nat k)%nat ∧
  ∃ sched' sv'' m,
    forallb is_work sched' = true ∧
    run_schedule (sched' ++ [Collect]) sv' = Some sv'' ∧
    resolved sv'' = resolved sv ++ [ResultMap m] ∧
    (∀ i, m !! i = if bool_decide (0 ≤ i < k)
                   then job_result g j k ∘ proc <$> procs sv !! Z.to_nat i
                   else None) ∧
    at_rest sv'' ∧
    realnumprocs sv'' = realnumprocs sv ∧
    length (procs sv'') = length (procs sv).
Proof.
  intros k Hrest Hreal HN Hk Hg Hp Hwork Hrun.
  pose proof Hrest as (Hidle & Hwf0 & _ & Hall0).
  assert (Hk0 : 0 ≤ k ≤ Z.of_nat (length (procs sv))).
  { unfold k, resolve_numprocs. case_bool_decide; lia. }
  rewrite run_schedule_cons in Hrun. unfold system_step in Hrun.
  rewrite Hidle in Hrun. simpl in Hrun.
  destruct (submit_pure_inv g j sv Hrest Hreal Hk Hp)
    as (Hd0 & Hr0 & Hn0 & Hinv0).
  fold k in Hd0, Hinv0.
  destruct (pure_inv_sched g j k Hg _ sched _ _ Hinv0 Hwork Hrun)
    as (Hinv & Hlen & Hd & Hr).
  split.
  { intros i w0 r Hik Hw0 Hhead. by eapply pure_inv_pipe. }
  split.
  { pose proof (pure_left_bound (take (Z.to_nat k) (procs (submit j sv)))) as Hb.
    rewrite length_take in Hb. unfold jobs_left in Hlen. lia. }
  destruct (pure_inv_complete g j k Hg _ _ sv' Hinv (le_n _))
    as (sched' & sv1 & Hwork' & Hrun' & Hinv1 & Hz).
  destruct (pure_inv_sched g j k Hg _ sched' _ _ Hinv Hwork' Hrun')
    as (_ & _ & Hd1 & Hr1).
  pose proof Hinv1 as (Hrun1 & Hwf1 & Hall1).
  pose proof (Forall2_length _ _ _ Hall1) as Hlen1.
  assert (disp sv1 = DPolling k) as Hpoll by congruence.
  destruct (collect_enabled k sv1) as [sv2 Hcollect].
  { lia. }
  { intros i Hi.
    destruct (procs sv !! Z.to_nat i) as [w0|] eqn:Hw0;
      [|apply lookup_ge_None in Hw0; lia].
    rewrite (pure_inv_done g j k _ sv1 _ w0 Hinv1 Hz Hw0) by lia.
    by eexists. }
  destruct (collect_spec k sv1 sv2 Hwf1 (proj1 Hk0) Hcollect)
    as (Hd2 & m & Hm & Hlook).
  destruct (collect_procs k sv1 sv2 (proj1 Hk0) Hcollect)
    as (Hs2 & Hn2 & Hlen2 & Hget2).
  exists sched', sv2, m. split; [done|]. split.
  { rewrite run_schedule_app, Hrun'. simpl. unfold system_step.
    rewrite Hpoll. by rewrite Hcollect. }
  split; [congruence|]. split.
  { intros i. rewrite Hlook. case_bool_decide as Hi; [|done].
    destruct (procs sv !! Z.to_nat i) as [w0|] eqn:Hw0;
      [|apply lookup_ge_None in Hw0; lia].
    simpl. apply (pure_inv_done g j k _ sv1 _ w0 Hinv1 Hz Hw0). lia. }
  split; [|split; [|lia]].
  - split; [done|]. split; [|split; [by rewrite Hs2|]].
    + intros i w Hw.
      destruct (procs sv1 !! i) as [w1|] eqn:Hw1.
      * rewrite (Hget2 i w1 Hw1) in Hw. simplify_eq.
        rewrite <- (Hwf1 i w1 Hw1). by case_bool_decide.
      * apply lookup_ge_None in Hw1. apply lookup_lt_Some in Hw. lia.
    + apply Forall_lookup. intros i w Hw.
      destruct (procs sv1 !! i) as [w1|] eqn:Hw1;
        [|apply lookup_ge_None in Hw1; apply lookup_lt_Some in Hw; lia].
      rewrite (Hget2 i w1 Hw1) in Hw. simplify_eq.
      destruct (Forall2_lookup_r _ _ _ _ _ Hall1 Hw1) as (w0 & Hw0 & Hidx & Hat).
      rewrite <- Hidx, (Hwf1 i w1 Hw1) in Hat.
      destruct (decide (Z.of_nat i < k)) as [Hik|Hik].
      * rewrite bool_decide_eq_true_2 by done. simpl.
        rewrite bool_decide_eq_true_2 in Hat by lia.
        assert (w1 ∈ take (Z.to_nat k) (procs sv1)) as Hin.
        { apply list_elem_of_lookup. exists i.
          rewrite lookup_take_lt by lia. done. }
        pose proof (sum_list_with_zero _ _ Hz w1 Hin) as Hleft.
        unfold pure_left in Hleft.
        destruct (st w1) as [|c|κ|κ|]; try done.
        destruct Hat as [(_ & Hout & _)|(Hin1 & Hout)];
          rewrite Hout in *; [lia|done].
      * rewrite bool_decide_eq_false_2 by done.
        rewrite bool_decide_eq_false_2 in Hat by lia. done.
  - rewrite Hn2, (work_sched_realnumprocs _ _ _ Hwork' Hrun').
    by rewrite (work_sched_realnumprocs _ _ _ Hwork Hrun).
Qed.

Lemma pure_job_result_witness :
  let j := {| valrange := 50; numprocs := 2;
              target := concurrencyTestProcessValues;
              args := []; kwargs := ∅; partitionArgs := [] |} in
  let g := λ p (_ : list pyval) (_ : gmap string pyval),
             Returns (PyTuple [PyInt (index p); PyInt (startval p);
                               PyInt (endval p)]) in
  let sched := [Work 1; Work 0; Work 1]%nat in
  ∃ sv', run_schedule (Submit j :: sched) (start_server 3) = Some sv' ∧
    (∀ (i : nat) w0 r, Z.of_nat i < 2 →
       procs (start_server (R := pyval) 3) !! i = Some w0 →
       pipe_head sv' i = Some r → r = job_result g j 2 (proc w0)) ∧
    (length sched ≤ 3 * Z.to_nat 2)%nat ∧
    ∃ sched' sv'' m,
      forallb is_work sched' = true ∧
      run_schedule (sched' ++ [Collect]) sv' = Some sv'' ∧
      resolved sv'' = resolved (start_server (R := pyval) 3)
                        ++ [ResultMap m] ∧
      (∀ i, m !! i = if bool_decide (0 ≤ i < 2)
                     then job_result g j 2 ∘ proc
                            <$> procs (start_server (R := pyval) 3)
                                  !! Z.to_nat i
                     else None) ∧
      at_rest sv'' ∧
      realnumprocs sv'' = realnumprocs (start_server (R := pyval) 3) ∧
      length (procs sv'') = length (procs (start_server (R := pyval) 3)).
Proof.
  intros j g sched. eexists. split; [by vm_compute|].
  apply (pure_job_result g j (start_server 3) sched).
  - split; [done|]. split; [|split; [done|]].
    + intros [|[|[|i]]] w Hw; simpl in Hw; by simplify_eq.
    + by repeat constructor.
  - simpl. lia.
  - simpl. lia.
  - vm_compute. discriminate.
  - done.
  - by eexists.
  - reflexivity.
  - by vm_compute.
Defined.

(** ** The failure flag and the next job *)

Lemma sent_more_refl {R} (k : Z) (ps : list (Worker R)) :
  Forall2 (sent_more k) ps ps.
Proof.
  apply Forall2_same_length_lookup. split; [done|].
  intros n w w' Hw Hw'. simplify_eq. repeat split; try done.
  exists []. by rewrite app_nil_r.
Qed.

(** The send loop changes nothing of a process but the job tuples waiting
    for it. *)
Lemma send_jobs_frame {R} (j : Job R) (k : Z) (indices : list Z)
    (ps : list (Worker R)) :
  Forall2 (sent_more k) ps (send_jobs j k indices ps).1.
Proof.
  revert ps. induction indices as [|i indices IH]; intros ps;
    [apply sent_more_refl|].
  simpl. destruct (prepareArgs _ _ _ _) as [pargs|e]; [|apply sent_more_refl].
  destruct (ps !! Z.to_nat i) as [w|] eqn:Hw; [|apply sent_more_refl].
  match goal with
  | |- context [send_jobs j k indices (<[_ := ?w']> ps)] =>
      pose proof (IH (<[Z.to_nat i := w']> ps)) as H2
  end.
  apply Forall2_same_length_lookup in H2 as [Hlen H2].
  rewrite length_insert in Hlen.
  apply Forall2_same_length_lookup. split; [done|].
  intros n w1 w3 Hw1 Hw3.
  destruct (decide (n = Z.to_nat i)) as [->|Hne].
  - simplify_eq.
    destruct (H2 (Z.to_nat i) _ w3
                (list_lookup_insert_eq _ _ _ (lookup_lt_Some _ _ _ Hw)) Hw3)
      as (Hp & Hs & Hr & ms & Hin & Hms).
    split; [done|]. split; [done|]. split; [done|].
    eexists (_ :: ms). simpl in Hin. rewrite Hin, <- app_assoc.
    split; [done|]. by constructor.
  - apply (H2 n); [|done]. by rewrite list_lookup_insert_ne.
Qed.

(** X8.  The handler of [run()] sends the exception before it writes the
    failure flag.  When the dispatch loop has taken the results of the job and
    sends the next job, for more than one process, while process [i] has its
    flag still to write, the flag lands in the next job: the dispatch loop
    resets [syncCounter] to 0, process [i] then sets it to [-(total+1)], and
    from then on, whatever the processes do, the counter is negative and each
    process that calls [sync()] in the new job, or is inside it, leaves it
    with the sibling-failure exception. *)
Theorem late_failure_flag {R} (sv : Server R) (j : Job R) (i : nat)
    (w : Worker R) :
  let k := resolve_numprocs (realnumprocs sv) (valrange j) (numprocs j) in
  disp sv = DIdle → totals_ok sv →
  k ≠ 1 → 0 ≤ k →
  procs sv !! i = Some w → st w = WFlag →
  ∃ sv1 sv2,
    system_step (Submit j) sv = Some sv1 ∧
    syncCounter (shared sv1) = 0 ∧
    system_step (Work i) sv1 = Some sv2 ∧
    syncCounter (shared sv2) = - total (proc w) - 1 ∧
    ∀ sched sv',
      forallb is_work sched = true →
      run_schedule sched sv2 = Some sv' →
      syncCounter (shared sv') < 0 ∧
      ∀ (n : nat) wn ev κ,
        procs sv' !! n = Some wn → syncEvent (proc wn) = Some ev →
        (st wn = WRun (Barrier κ) ∨ st wn = WSyncWait κ →
         wstep (shared sv') wn
         = Some (shared sv', set_st wn (proc wn) (WSyncLeave κ))) ∧
        (st wn = WSyncLeave κ →
         wstep (shared sv') wn
         = Some (shared sv',
                 set_st wn (swap_events (proc wn))
                        (WRun (Throw sibling_exception)))).
Proof.
  intros k Hidle Hok Hk Hk0 Hw Hst.
  assert (procs sv ≠ []) as Hne by (intros Heq; by rewrite Heq in Hw).
  destruct (submit_multi j sv Hk Hne) as [Hs1 Hp1]. fold k in Hp1.
  pose proof (send_jobs_frame j k (seqZ 0 k) (procs sv)) as Hfr.
  rewrite <- Hp1 in Hfr.
  destruct (Forall2_lookup_l _ _ _ _ _ Hfr Hw)
    as (w1 & Hw1 & Hproc & Hst1 & _).
  assert (totals_ok (submit j sv)) as Hok1.
  { apply Forall_lookup. intros n wn' Hn'.
    destruct (Forall2_lookup_r _ _ _ _ _ Hfr Hn')
      as (wn & Hn & Hp & _ & _ & ms & Hin & Hms).
    destruct (Forall_lookup_1 _ _ _ _ Hok Hn) as [Ht Hi].
    split; [by rewrite Hp|]. rewrite Hin. apply Forall_app. split; [done|].
    eapply Forall_impl; [exact Hms|]. simpl. intros m ->. done. }
  set (sv1 := submit j sv) in *.
  set (sv2 := set_server sv1 (set_counter (- total (proc w1) - 1) (shared sv1))
                (<[i := set_st w1 (proc w1) WIdle]> (procs sv1))
                (disp sv1) (resolved sv1)).
  assert (system_step (Work i) sv1 = Some sv2) as Hstep.
  { unfold system_step. rewrite Hw1. simpl. unfold wstep. by rewrite Hst1, Hst. }
  exists sv1, sv2.
  split; [unfold system_step; by rewrite Hidle|].
  split; [by rewrite Hs1|]. split; [done|].
  split; [simpl; by rewrite Hproc|].
  intros sched sv' Hwork Hrun.
  pose proof (work_step_Forall total_ok _ _ _ wstep_total_ok Hstep Hok1) as Hok2.
  assert (syncCounter (shared sv2) < 0) as Hneg2.
  { simpl. destruct (Forall_lookup_1 _ _ _ _ Hok1 Hw1) as [? _]. lia. }
  destruct (failed_stable _ _ _ Hok2 Hneg2 Hwork Hrun) as (Hneg & _).
  split; [done|].
  intros n wn ev κ Hwn Hev. split.
  - intros [Hb|Hb]; unfold wstep; rewrite Hb, Hev.
    + by rewrite sync_locked_failed.
    + rewrite sync_wait_failed by done. by destruct (negb _).
  - intros Hb. unfold wstep. rewrite Hb. by rewrite sync_check_failed.
Qed.

Lemma late_failure_flag_witness :
  let e := Exn "ValueError" "bad value" in
  let sv := state_after 2 [Submit (plain_job (raise_at_once e) 2);
                           Work 0; Work 0; Work 1; Work 1; Collect]%nat in
  ∃ sv1 sv2,
    system_step (Submit (plain_job sync_once 2)) sv = Some sv1 ∧
    syncCounter (shared sv1) = 0 ∧
    system_step (Work 0) sv1 = Some sv2 ∧
    syncCounter (shared sv2) = - 2 - 1 ∧
    ∀ sched sv',
      forallb is_work sched = true →
      run_schedule sched sv2 = Some sv' →
      syncCounter (shared sv') < 0 ∧
      ∀ (n : nat) wn ev κ,
        procs sv' !! n = Some wn → syncEvent (proc wn) = Some ev →
        (st wn = WRun (Barrier κ) ∨ st wn = WSyncWait κ →
         wstep (shared sv') wn
         = Some (shared sv', set_st wn (proc wn) (WSyncLeave κ))) ∧
        (st wn = WSyncLeave κ →
         wstep (shared sv') wn
         = Some (shared sv',
                 set_st wn (swap_events (proc wn))
                        (WRun (Throw sibling_exception)))).
Proof.
  intros e sv.
  destruct (procs sv !! 0%nat) as [w|] eqn:Hw; [|by vm_compute in Hw].
  assert (st w = WFlag ∧ total (proc w) = 2) as [Hst Htot]
    by (vm_compute in Hw; by simplify_eq).
  destruct (late_failure_flag sv (plain_job sync_once 2) 0 w)
    as (sv1 & sv2 & H1 & H2 & H3 & H4 & H5).
  - reflexivity.
  - repeat constructor; vm_compute; discriminate.
  - vm_compute. discriminate.
  - vm_compute. discriminate.
  - exact Hw.
  - exact Hst.
  - rewrite Htot in H4. by exists sv1, sv2.
Defined.

(** A run to the end: the first job fails in both processes and is taken
    by the dispatch loop before the flags are written; in the second job,
    whose routine only calls [sync()], no process raises, and both end with
    the sibling-failure exception. *)
Example late_failure_flag_run :
  resolved <$> run_schedule
    [Submit (plain_job (raise_at_once (Exn "ValueError" "bad value")) 2);
     Work 0; Work 0; Work 1; Work 1; Collect;
     Submit (plain_job sync_once 2);
     Work 0; Work 1; Work 0; Work 1; Work 0; Work 1; Work 0; Work 1;
     Work 0; Work 1; Work 0; Work 1; Collect]%nat
    (start_server 2)
  = Some [ResultMap (list_to_map
            [(0, Exc (Exn "ValueError" "bad value"));
             (1, Exc (Exn "ValueError" "bad value"))]);
          ResultMap (list_to_map
            [(0, Exc sibling_exception); (1, Exc sibling_exception)])].
Proof. by vm_compute. Qed.

(** ** After [stop()] *)

(** X9.  After [stop()], whatever the processes do, a process that was
    inside the poll of its loop taking a job that waits in its pipe or not:
    [_continueRunning()] stays false; a process that comes to the test of
    its loop takes no job; and no process stays inside [sync()]: one that
    calls it passes the locked block, one in the wait loop leaves the loop
    whether or not its event is set, and each of them leaves [sync()] with an
    exception, the sibling-failure one when the counter is negative and the
    parent-exit one otherwise, never going on with its routine. *)
Theorem stop_ends_sync {R} (sv0 : Server R) (sched : list late_action)
    (sv' : Server R) :
  run_late sched (stop sv0) = Some sv' →
  continueRunning (shared sv') = false ∧
  ∀ (n : nat) wn,
    procs sv' !! n = Some wn →
    (st wn = WIdle → wstep (shared sv') wn = None) ∧
    ∀ ev κ, syncEvent (proc wn) = Some ev →
    (st wn = WRun (Barrier κ) →
     ∃ s' st', wstep (shared sv') wn = Some (s', set_st wn (proc wn) st') ∧
               continueRunning s' = false ∧
               (st' = WSyncWait κ ∨ st' = WSyncLeave κ)) ∧
    (st wn = WSyncWait κ →
     wstep (shared sv') wn
     = Some (shared sv', set_st wn (proc wn) (WSyncLeave κ))) ∧
    (st wn = WSyncLeave κ →
     wstep (shared sv') wn
     = Some (shared sv',
             set_st wn (swap_events (proc wn))
                    (WRun (Throw (if bool_decide (syncCounter (shared sv') < 0)
                                  then sibling_exception
                                  else parent_exception))))).
Proof.
  intros Hrun.
  assert (∀ (sched : list late_action) (sv sv' : Server R),
            continueRunning (shared sv) = false →
            run_late sched sv = Some sv' →
            continueRunning (shared sv') = false) as Hstable.
  { clear. induction sched as [|a sched IH]; intros sv sv' Hstop Hrun.
    - by simplify_eq/=.
    - simpl in Hrun.
      destruct (late_step a sv) as [sv1|] eqn:Hstep; [|done].
      simpl in Hrun. apply (IH sv1 sv'); [|done].
      destruct a as [i|i]; simpl in Hstep.
      + destruct (work_step_inv _ _ _ Hstep) as (w & s' & w' & _ & Hws & ->).
        simpl. by rewrite (wstep_continueRunning _ _ _ _ Hws).
      + destruct (procs sv !! i) as [w|]; [|done]. simpl in Hstep.
        destruct (take_job w) as [w'|]; [|done]. by simplify_eq/=. }
  pose proof (Hstable sched (stop sv0) sv' eq_refl Hrun) as Hstop.
  split; [done|].
  intros n wn Hwn. split.
  { intros Hst. unfold wstep. by rewrite Hst, Hstop. }
  intros ev κ Hev. split; [|split].
  - intros Hst. unfold wstep. rewrite Hst, Hev.
    destruct (sync_locked _ _ _) as [s' dowait] eqn:Hl.
    exists s', (if dowait then WSyncWait κ else WSyncLeave κ).
    split; [done|]. split; [|destruct dowait; [by left|by right]].
    unfold sync_locked in Hl. destruct ev.
    all: repeat case_bool_decide; by simplify_eq/=.
  - intros Hst. unfold wstep. by rewrite Hst, Hev, Hstop.
  - intros Hst. unfold wstep. rewrite Hst. unfold sync_check.
    rewrite Hstop. simpl. by destruct (bool_decide _).
Qed.

Lemma stop_ends_sync_witness :
  let sv0 := state_after 2 [Submit (plain_job sync_once 2);
                            Work 0; Work 0]%nat in
  ∃ sv', run_late [LateWork 0; LateTake 1; LateWork 1]%nat (stop sv0)
         = Some sv' ∧
         continueRunning (shared sv') = false.
Proof.
  intros sv0. eexists. split; [by vm_compute|].
  eapply (stop_ends_sync sv0 [LateWork 0; LateTake 1; LateWork 1]%nat).
  by vm_compute.
Defined.

(** A run to the end: process 0 waits in [sync()] for process 1 when
    [stop()] is called; process 1, inside the poll of its loop, still takes
    the job; both leave [sync()] with the parent-exit exception. *)
Example stop_ends_sync_run :
  (λ sv, (pipe_head sv 0, pipe_head sv 1))
    <$> run_late [LateWork 0; LateWork 0; LateWork 0;
                  LateTake 1; LateWork 1; LateWork 1; LateWork 1]%nat
          (stop (state_after 2 [Submit (plain_job sync_once 2);
                                Work 0; Work 0]%nat))
  = Some (Some (Exc parent_exception), Some (Exc parent_exception)).
Proof. by vm_compute. Qed.

(** ** Calls through a proxy *)

Section proxy.
Context {S A : Type}.
Variable attrs : gmap string (attr S A).

(** With no message in the pipe the thread does nothing. *)
Lemma runProxy_idle (n : nat) (l : ProxyLink S A) :
  send_r l = [] → Nat.iter n (runProxy_step attrs) l = l.
Proof.
  intros Hl. induction n as [|n IH]; [done|].
  simpl. rewrite IH. unfold runProxy_step. by rewrite Hl.
Qed.

(** A turn that finds a message serves the oldest one. *)
Lemma runProxy_serve (n : nat) (obj : S) (m : call_msg)
    (rest : list call_msg) (rs : list (pyres A)) :
  Nat.iter (Datatypes.S n) (runProxy_step attrs)
           {| hosted := obj; send_r := m :: rest; recv_s := rs |}
  = Nat.iter n (runProxy_step attrs)
             {| hosted := (invoke attrs m obj).1; send_r := rest;
                recv_s := rs ++ [(invoke attrs m obj).2] |}.
Proof.
  rewrite Nat.iter_succ_r. f_equal. unfold runProxy_step. simpl.
  by destruct (invoke attrs m obj).
Qed.

(** What a call reads when an object is in its pipe. *)
Lemma MethodProxy_call_ready (name : string) (args : list pyval)
    (kwargs : gmap string pyval) (r : pyres A) :
  (MethodProxy_call {| mp_name := name; mp_send := [];
                       mp_recv := Some (0, r) |} args kwargs).2
  = raise_or_return r.
Proof. unfold MethodProxy_call. simpl. by destruct r. Qed.

Lemma lagging_call (prev : call_msg) (obj0 : S) (l : ProxyLink S A)
    (served : nat) (name : string) (args : list pyval)
    (kwargs : gmap string pyval) :
  lagging attrs prev obj0 l → (1 ≤ served)%nat →
  (proxy_call attrs served name args kwargs l).2
  = raise_or_return (invoke attrs prev obj0).2 ∧
  lagging attrs (CallMsg name args kwargs) (invoke attrs prev obj0).1
          (proxy_call attrs served name args kwargs l).1.
Proof.
  intros Hlag Hn. destruct served as [|n]; [lia|]. unfold proxy_call.
  destruct Hlag as [(Hs & Hr & Hh)|(Hs & Hr & Hh)]; rewrite Hs, Hr, Hh.
  - simpl app. rewrite runProxy_serve. simpl app. destruct n as [|n].
    + simpl. split; [apply MethodProxy_call_ready|]. by left.
    + rewrite runProxy_serve, runProxy_idle by done. simpl.
      split; [apply MethodProxy_call_ready|]. by right.
  - simpl app. rewrite runProxy_serve, runProxy_idle by done. simpl.
    split; [apply MethodProxy_call_ready|]. by right.
Qed.

Lemma direct_calls_cons (m : call_msg) (ms : list call_msg) (obj : S) :
  (direct_calls attrs (m :: ms) obj).2
  = (invoke attrs m obj).2
      :: (direct_calls attrs ms (invoke attrs m obj).1).2.
Proof.
  cbn [direct_calls]. destruct (invoke attrs m obj) as [obj1 r].
  cbn [fst snd]. by destruct (direct_calls attrs ms obj1).
Qed.

Lemma lagging_calls (cs : list (nat * call_msg)) :
  ∀ (prev : call_msg) (obj0 : S) (l : ProxyLink S A),
  lagging attrs prev obj0 l → Forall (λ c, (1 ≤ c.1)%nat) cs →
  (proxy_calls attrs cs l).2
  = raise_or_return
      <$> take (length cs) (direct_calls attrs (prev :: cs.*2) obj0).2.
Proof.
  induction cs as [|[n m] cs IH]; intros prev obj0 l Hlag Hcs; [done|].
  apply Forall_cons in Hcs as [Hn Hcs]. simpl in Hn.
  destruct (lagging_call prev obj0 l n (msg_name m) (msg_args m)
              (msg_kwargs m) Hlag Hn) as [Hout Hlag'].
  assert (CallMsg (msg_name m) (msg_args m) (msg_kwargs m) = m) as Hm
    by (by destruct m).
  rewrite Hm in Hlag'.
  specialize (IH m _ _ Hlag' Hcs).
  rewrite direct_calls_cons. rewrite fmap_cons.
  change ((n, m).2) with m.
  change (length ((n, m) :: cs)) with (Datatypes.S (length cs)).
  rewrite firstn_cons, fmap_cons, <- IH, <- Hout.
  cbn [proxy_calls].
  destruct (proxy_call attrs n (msg_name m) (msg_args m) (msg_kwargs m) l)
    as [l1 out].
  cbn [fst snd]. by destruct (proxy_calls attrs cs l1) as [l2 outs].
Qed.
End proxy.

(** Every stub the loop of [DynamicProxy.__init__] creates is for a public
    method of the object. *)
Lemma DynamicProxy_loop_sound {S A} (attrs : gmap string (attr S A))
    (names : list string) :
  ∀ self proxy,
  DynamicProxy_loop attrs names self = Returns proxy →
  ∀ n s r, proxy !! n = Some (PStub s r) →
    (∃ s' r', self !! n = Some (PStub s' r')) ∨
    (is_public n = true ∧ ∃ f, attrs !! n = Some (Callable f)).
Proof.
  induction names as [|i names IH]; intros self proxy Hloop n s r Hn.
  - simplify_eq/=. left. by eauto.
  - cbn [DynamicProxy_loop] in Hloop.
    destruct i as [|c i]; [done|]. set (name := String c i) in *.
    destruct (is_public name && from_option is_callable false (attrs !! name))
      eqn:Hpc.
    + destruct (IH _ _ Hloop n s r Hn) as [(s' & r' & Hs)|Hok]; [|by right].
      destruct (decide (n = name)) as [->|Hne].
      * right. apply andb_true_iff in Hpc as [Hp Hc]. split; [done|].
        destruct (attrs !! name) as [[f|]|]; try done. by eexists.
      * rewrite lookup_insert_ne in Hs by done. left. by eauto.
    + by apply (IH _ _ Hloop n s r Hn).
Qed.

(** When no public method of the object has the name of a connection, the
    connections stay in place and every stub is created with the two of
    them. *)
Lemma DynamicProxy_loop_intact {S A} (attrs : gmap string (attr S A))
    (names : list string) :
  no_clash attrs →
  ∀ self proxy,
  DynamicProxy_loop attrs names self = Returns proxy →
  (∀ n, n ∈ ["send"; "send_r"; "recv_s"; "recv"]%string →
        self !! n = Some PConn) →
  (∀ n, n ∈ ["send"; "send_r"; "recv_s"; "recv"]%string →
        proxy !! n = Some PConn) ∧
  (∀ n, is_stub self n → is_stub proxy n) ∧
  (∀ n, n ∈ names →
        is_public n && from_option is_callable false (attrs !! n) = true →
        is_stub proxy n).
Proof.
  intros Hfree. induction names as [|i names IH];
    intros self proxy Hloop Hconn.
  - simplify_eq/=. split; [done|]. split; [done|].
    intros n Hn. by apply elem_of_nil in Hn.
  - cbn [DynamicProxy_loop] in Hloop.
    destruct i as [|c i]; [done|]. set (name := String c i) in *.
    destruct (is_public name && from_option is_callable false (attrs !! name))
      eqn:Hpc.
    + assert (name ∉ ["send"; "send_r"; "recv_s"; "recv"]%string) as Hnot.
      { intros Hin. by rewrite (Hfree name Hin) in Hpc. }
      rewrite (Hconn "send"%string), (Hconn "recv"%string) in Hloop
        by (repeat constructor).
      cbn [held_of] in Hloop.
      destruct (IH _ _ Hloop) as (Hc & Hs & Hm).
      { intros n Hn. rewrite lookup_insert_ne; [by apply Hconn|].
        intros <-. by apply Hnot. }
      split; [done|]. split.
      * intros n Hn. apply Hs. unfold is_stub in *.
        destruct (decide (n = name)) as [->|Hne].
        -- by rewrite lookup_insert_eq.
        -- by rewrite lookup_insert_ne.
      * intros n Hn Hpub. apply elem_of_cons in Hn as [->|Hn].
        -- apply Hs. unfold is_stub. by rewrite lookup_insert_eq.
        -- by apply Hm.
    + destruct (IH _ _ Hloop Hconn) as (Hc & Hs & Hm).
      split; [done|]. split; [done|].
      intros n Hn Hpub. apply elem_of_cons in Hn as [->|Hn].
      * fold name in Hpub. congruence.
      * by apply Hm.
Qed.

Lemma new_proxy_conn (n : string) :
  n ∈ ["send"; "send_r"; "recv_s"; "recv"]%string →
  new_proxy !! n = Some PConn.
Proof.
  intros Hn. repeat (apply elem_of_cons in Hn as [->|Hn]; [done|]).
  by apply elem_of_nil in Hn.
Qed.

Lemma elem_of_dir {S A} (attrs : gmap string (attr S A)) (n : string) :
  n ∈ dir attrs ↔ is_Some (attrs !! n).
Proof.
  unfold dir. rewrite merge_sort_Permutation, elem_of_elements.
  apply elem_of_dom.
Qed.

(** X10.  A call through a stub of a [DynamicProxy] whose pipes are empty,
    served by the thread of [runProxy] before the poll of the call ends, is
    the call of the method on the hosted object.  Every stub of the proxy is
    for a public method of the object.  When no public method of the object
    has the name of one of the four connections of the proxy, the
    connections stay in place and every public method has a stub that was
    created with the two connections [send] and [recv].  Through such a
    stub, the thread finding the connections [send_r] and [recv_s]: the
    object is left in the state the method leaves it in; the call returns
    what the method returned and raises what the method raised, or
    returned, as an exception; and the pipes are empty again. *)
Theorem proxy_transparent {S A} (attrs : gmap string (attr S A))
    (proxy : gmap string pvalue) (served : nat) (name : string)
    (args : list pyval) (kwargs : gmap string pyval) (l : ProxyLink S A) :
  DynamicProxy_init attrs = Returns proxy →
  send_r l = [] → recv_s l = [] → (1 ≤ served)%nat →
  (∀ n s r, proxy !! n = Some (PStub s r) →
     is_public n = true ∧ ∃ f, attrs !! n = Some (Callable f)) ∧
  (no_clash attrs →
     serving proxy ∧
     proxy !! "send"%string = Some PConn ∧
     proxy !! "recv"%string = Some PConn ∧
     ∀ n f, is_public n = true → attrs !! n = Some (Callable f) →
            is_stub proxy n) ∧
  (is_stub proxy name → serving proxy →
   ∃ f, attrs !! name = Some (Callable f) ∧
        proxy_call attrs served name args kwargs l
        = ({| hosted := (f args kwargs (hosted l)).1;
              send_r := []; recv_s := [] |},
           match (f args kwargs (hosted l)).2 with
           | Returns (Val v) => Returns v
           | Returns (Exc e) | Raises e => Raises e
           end)).
Proof.
  intros Hinit Hs Hr Hn. unfold DynamicProxy_init in Hinit.
  assert (∀ n s r, proxy !! n = Some (PStub s r) →
            is_public n = true ∧ ∃ f, attrs !! n = Some (Callable f))
    as Hsound.
  { intros n s r Hp.
    destruct (DynamicProxy_loop_sound attrs _ _ _ Hinit n s r Hp)
      as [(s' & r' & Hnew)|Hok]; [|done].
    exfalso. unfold new_proxy in Hnew.
    repeat (apply lookup_insert_Some in Hnew as [[_ Hnew]|[_ Hnew]];
            [done|]).
    by apply lookup_singleton_Some in Hnew as [_ Hnew]. }
  split; [exact Hsound|]. split.
  - intros Hfree.
    destruct (DynamicProxy_loop_intact attrs _ Hfree _ _ Hinit new_proxy_conn)
      as (Hc & _ & Hm).
    split; [split; apply Hc; repeat constructor|].
    split; [apply Hc; repeat constructor|].
    split; [apply Hc; repeat constructor|].
    intros n f Hp Hf. apply Hm.
    + apply elem_of_dir. by rewrite Hf.
    + by rewrite Hp, Hf.
  - intros Hstub _. destruct (Hsound name _ _ Hstub) as (_ & f & Hf).
    exists f. split; [done|].
    destruct served as [|n]; [lia|]. unfold proxy_call.
    rewrite Hs, Hr. simpl app.
    rewrite runProxy_serve, runProxy_idle by done. cbn [recv_s hosted send_r].
    unfold invoke. cbn [msg_name msg_args msg_kwargs]. rewrite Hf.
    destruct (f args kwargs (hosted l)) as [obj' out]. simpl.
    f_equal. rewrite MethodProxy_call_ready.
    by destruct out as [[v|e]|e].
Qed.

Lemma proxy_transparent_witness :
  let attrs : gmap string (attr Z Z) :=
    {[ "add"%string := Callable (λ args _ n,
                          match args with
                          | [PyInt d] => (n + d, Returns (Val (n + d)))
                          | _ => (n, Raises (Exn "TypeError" "add"))
                          end);
       "_total"%string := Data ]} in
  proxy_call attrs 1 "add" [PyInt 2] ∅
             {| hosted := 40; send_r := []; recv_s := [] |}
  = ({| hosted := 42; send_r := []; recv_s := [] |}, Returns 42).
Proof.
  intros attrs.
  destruct (proxy_transparent attrs
              (<["add"%string := PStub HConn HConn]> new_proxy)
              1 "add" [PyInt 2] ∅
              {| hosted := 40; send_r := []; recv_s := [] |})
    as (_ & _ & H).
  - by vm_compute.
  - reflexivity.
  - reflexivity.
  - lia.
  - destruct H as (f & Hf & ->); [by vm_compute|by vm_compute|].
    vm_compute in Hf. by simplify_eq.
Defined.

(** A method of the object named [recv] takes the place of the connection:
    the stub of a method that comes later in [dir(obj)] is created with that
    stub where the connection was, and is no stub in the sense above. *)
Example DynamicProxy_init_clash :
  DynamicProxy_init (S := Z) (A := Z)
    {[ "add"%string := Callable (λ _ _ n, (n, Returns (Val n)));
       "recv"%string := Callable (λ _ _ n, (n, Returns (Val n)));
       "zap"%string := Callable (λ _ _ n, (n, Returns (Val n))) ]}
  = Returns (<["zap"%string := PStub HConn HStub]>
               (<["recv"%string := PStub HConn HConn]>
                  (<["add"%string := PStub HConn HConn]> new_proxy))).
Proof. by vm_compute. Qed.

(** X11.  A call that is given up leaves its message in the pipe, and the
    proxy does not recover.  On a proxy whose thread finds its connections
    and whose pipes are empty, the calls being made through stubs that were
    created with the two connections: when a call gets no answer in time, it
    raises the [IOError], and each later call, of whatever stub and however
    fast it is served, ends as the call made before it would have ended on
    the object itself, the calls being run there in the order in which they
    were made. *)
Theorem proxy_timeout_lag {S A} (attrs : gmap string (attr S A))
    (proxy : gmap string pvalue)
    (l : ProxyLink S A) (m0 : call_msg) (cs : list (nat * call_msg)) :
  DynamicProxy_init attrs = Returns proxy →
  serving proxy →
  Forall (λ m, is_stub proxy (msg_name m)) (m0 :: cs.*2) →
  send_r l = [] → recv_s l = [] →
  Forall (λ c, (1 ≤ c.1)%nat) cs →
  (proxy_calls attrs ((0%nat, m0) :: cs) l).2
  = no_result (msg_name m0)
      :: (raise_or_return
            <$> take (length cs)
                     (direct_calls attrs (m0 :: cs.*2) (hosted l)).2).
Proof.
  intros _ _ _ Hs Hr Hcs.
  pose proof (lagging_calls attrs cs m0 (hosted l)
                {| hosted := hosted l; send_r := [m0]; recv_s := [] |}
                ltac:(by left) Hcs) as Hlag.
  cbn [proxy_calls]. unfold proxy_call at 1. rewrite Hs, Hr. simpl.
  assert (CallMsg (msg_name m0) (msg_args m0) (msg_kwargs m0) = m0) as ->
    by (by destruct m0).
  destruct (proxy_calls attrs cs _) as [l2 outs]. simpl in *.
  by rewrite Hlag.
Qed.

Lemma proxy_timeout_lag_witness :
  let attrs : gmap string (attr Z Z) :=
    {[ "add"%string := Callable (λ args _ n,
                          match args with
                          | [PyInt d] => (n + d, Returns (Val (n + d)))
                          | _ => (n, Raises (Exn "TypeError" "add"))
                          end) ]} in
  (proxy_calls attrs [(0, CallMsg "add" [PyInt 1] ∅);
                      (1, CallMsg "add" [PyInt 10] ∅);
                      (3, CallMsg "add" [PyInt 100] ∅)]%nat
               {| hosted := 0; send_r := []; recv_s := [] |}).2
  = [no_result "add"; Returns 1; Returns 11].
Proof.
  intros attrs.
  rewrite (proxy_timeout_lag attrs
             (<["add"%string := PStub HConn HConn]> new_proxy)).
  - reflexivity.
  - by vm_compute.
  - by split.
  - by repeat constructor.
  - done.
  - done.
  - repeat constructor; simpl; lia.
Defined.

(** ** Progress *)

Lemma array_set_in_range (a : list Z) (i val : Z) :
  0 ≤ i < Z.of_nat (length a) →
  array_set a i val = Returns (<[Z.to_nat i := val]> a).
Proof.
  intros Hi. unfold array_set.
  rewrite (bool_decide_eq_false_2 (i < 0)) by lia.
  by rewrite bool_decide_eq_true_2 by lia.
Qed.

(** An update of the array by the process of index [i]: skipped, or the
    slot [i] is set. *)
Lemma setProgress_array (self : AlgorithmProcess) (curtime val : Z)
    (force : bool) (t : Z) (a : list Z) :
  0 ≤ index self < Z.of_nat (length a) →
  setProgress self curtime val force
              {| progressTime := t; progress := ProgressArray a |}
  = Returns (if bool_decide (curtime - t < 200) && negb force
             then {| progressTime := t; progress := ProgressArray a |}
             else {| progressTime := curtime;
                     progress := ProgressArray
                                   (<[Z.to_nat (index self) := val]> a) |}).
Proof.
  intros Hi. unfold setProgress. simpl.
  destruct (bool_decide (curtime - t < 200) && negb force); [done|].
  destruct a as [|x a]; [simpl in Hi; lia|].
  by rewrite array_set_in_range.
Qed.

Lemma prange_loop_array (self : AlgorithmProcess) (items : list Z) :
  ∀ (count : Z) (clock : nat → Z) (t : Z) (a : list Z),
  0 ≤ index self < Z.of_nat (length a) →
  prange_loop self items count clock
              {| progressTime := t; progress := ProgressArray a |}
  = Returns (items,
             {| progressTime := clock (length items);
                progress := ProgressArray
                              (<[Z.to_nat (index self)
                                 := count + Z.of_nat (length items)]> a) |}).
Proof.
  induction items as [|i items IH]; intros count clock t a Hi.
  - simpl prange_loop. rewrite setProgress_array by done.
    rewrite andb_false_r. simpl. by rewrite Z.add_0_r.
  - cbn [prange_loop]. rewrite setProgress_array by done.
    destruct (bool_decide _ && negb false); cbn [obind].
    + rewrite IH by done. cbn [obind fst snd length compose].
      by replace (count + 1 + Z.of_nat (length items))
        with (count + Z.of_nat (S (length items))) by lia.
    + rewrite IH by (by rewrite length_insert).
      cbn [obind fst snd length compose]. rewrite list_insert_insert_eq.
      by replace (count + 1 + Z.of_nat (length items))
        with (count + Z.of_nat (S (length items))) by lia.
Qed.

Lemma prange_loop_task (self : AlgorithmProcess) (items : list Z) :
  ∀ (count : Z) (clock : nat → Z) (t : Z) (calls : list Z),
  ∃ vs,
    prange_loop self items count clock
                {| progressTime := t; progress := ProgressTask calls |}
    = Returns (items,
               {| progressTime := clock (length items);
                  progress := ProgressTask
                    (calls ++ vs ++ [count + Z.of_nat (length items)]) |}) ∧
    StronglySorted Z.lt vs ∧
    Forall (λ v, count < v ≤ count + Z.of_nat (length items)) vs.
Proof.
  induction items as [|i items IH]; intros count clock t calls.
  - exists []. cbn [prange_loop]. unfold setProgress.
    cbn [negb progressTime progress]. rewrite andb_false_r.
    cbn [obind length app]. rewrite Z.add_0_r.
    split; [done|]. split; constructor.
  - cbn [prange_loop]. unfold setProgress at 1. cbn [progressTime progress].
    destruct (bool_decide _ && negb false); cbn [obind].
    + destruct (IH (count + 1) (clock ∘ S) t calls) as (vs & -> & Hs & Hb).
      exists vs. cbn [obind fst snd length compose].
      replace (count + 1 + Z.of_nat (length items))
        with (count + Z.of_nat (S (length items))) by lia.
      split; [done|]. split; [done|].
      eapply Forall_impl; [exact Hb|]. simpl. lia.
    + destruct (IH (count + 1) (clock ∘ S) (clock 0%nat)
                  (calls ++ [count + 1])) as (vs & -> & Hs & Hb).
      exists ((count + 1) :: vs). cbn [obind fst snd length compose].
      rewrite <- app_assoc. cbn [app].
      replace (count + 1 + Z.of_nat (length items))
        with (count + Z.of_nat (S (length items))) by lia.
      split; [done|]. split.
      * constructor; [done|]. eapply Forall_impl; [exact Hb|]. simpl. lia.
      * constructor; [lia|]. eapply Forall_impl; [exact Hb|]. simpl. lia.
Qed.

Lemma prange_loop_none (self : AlgorithmProcess) (items : list Z) :
  ∀ (count : Z) (clock : nat → Z) (t : Z),
  prange_loop self items count clock
              {| progressTime := t; progress := ProgressNone |}
  = Returns (items, {| progressTime := clock (length items);
                       progress := ProgressNone |}).
Proof.
  induction items as [|i items IH]; intros count clock t.
  - cbn [prange_loop]. unfold setProgress.
    cbn [negb progressTime progress]. by rewrite andb_false_r.
  - cbn [prange_loop]. unfold setProgress at 1. cbn [progressTime progress].
    destruct (bool_decide _ && negb false); cbn [obind];
      by rewrite IH.
Qed.

(** X12.  [prange()] run to its end yields the values of [nrange()] in
    order, whatever the clock says, and leaves the progress at the number of
    values: with the shared array, in which the process has a slot, the slot
    holds the number and the other slots are as before; with a [Task], the
    values reported during the loop ascend strictly, none below 1 or above
    the number, and the last report is the number; without either nothing is
    reported.  [progressTime] is the time of the last call. *)
Theorem prange_reports (self : AlgorithmProcess) (clock : nat → Z) (t : Z) :
  let n := length (nrange self) in
  (∀ a, 0 ≤ index self < Z.of_nat (length a) →
        prange self clock {| progressTime := t; progress := ProgressArray a |}
        = Returns (nrange self,
                   {| progressTime := clock n;
                      progress := ProgressArray
                        (<[Z.to_nat (index self) := Z.of_nat n]> a) |})) ∧
  (∀ calls, ∃ vs,
        prange self clock {| progressTime := t; progress := ProgressTask calls |}
        = Returns (nrange self,
                   {| progressTime := clock n;
                      progress := ProgressTask (calls ++ vs ++ [Z.of_nat n]) |}) ∧
        StronglySorted Z.lt vs ∧ Forall (λ v, 1 ≤ v ≤ Z.of_nat n) vs) ∧
  prange self clock {| progressTime := t; progress := ProgressNone |}
  = Returns (nrange self,
             {| progressTime := clock n; progress := ProgressNone |}).
Proof.
  intros n. unfold prange. split; [|split].
  - intros a Hi. by rewrite prange_loop_array.
  - intros calls.
    destruct (prange_loop_task self (nrange self) 0 clock t calls)
      as (vs & Heq & Hs & Hb).
    exists vs. split; [done|]. split; [done|].
    eapply Forall_impl; [exact Hb|]. simpl. lia.
  - apply prange_loop_none.
Qed.

(** ** The rounds of the barrier *)

Lemma round_event_period (ev ev' : Event) (n : nat) :
  round_event ev ev' (S (S n)) = round_event ev ev' n.
Proof. unfold round_event. by rewrite Nat.odd_succ, Nat.even_succ. Qed.

Lemma round_event_next (ev ev' : Event) (n : nat) :
  ev ≠ ev' → round_event ev ev' (S n) ≠ round_event ev ev' n.
Proof.
  intros Hne. unfold round_event. rewrite Nat.odd_succ.
  rewrite <- Nat.negb_odd. destruct (Nat.odd n); simpl; congruence.
Qed.

Lemma sum_seq_S (e : nat → nat) (k : nat) :
  sum_list_with e (seq 0 (S k)) = (sum_list_with e (seq 0 k) + e k)%nat.
Proof. rewrite seq_S, sum_list_with_app. simpl. lia. Qed.

Lemma sum_seq_ext (e e' : nat → nat) (k : nat) :
  (∀ n, (n < k)%nat → e' n = e n) →
  sum_list_with e' (seq 0 k) = sum_list_with e (seq 0 k).
Proof.
  induction k as [|k IH]; intros Hext; [done|].
  rewrite !sum_seq_S, IH, Hext by (intros; auto with lia). done.
Qed.

Lemma sum_seq_update (e e' : nat → nat) (k i : nat) :
  (i < k)%nat → (∀ n, n ≠ i → e' n = e n) → e' i = S (e i) →
  sum_list_with e' (seq 0 k) = S (sum_list_with e (seq 0 k)).
Proof.
  induction k as [|k IH]; intros Hi Hext Hup; [lia|].
  rewrite !sum_seq_S. destruct (decide (i = k)) as [->|Hne].
  - rewrite Hup, (sum_seq_ext e e') by (intros; apply Hext; lia). lia.
  - rewrite IH, (Hext k) by (done || lia). lia.
Qed.

Lemma sum_seq_lower (e : nat → nat) (k r : nat) :
  (∀ n, (n < k)%nat → (r ≤ e n)%nat) →
  (k * r ≤ sum_list_with e (seq 0 k))%nat.
Proof.
  induction k as [|k IH]; intros Hlow; [simpl; lia|].
  rewrite sum_seq_S. specialize (Hlow k ltac:(lia)) as Hk.
  specialize (IH ltac:(intros; apply Hlow; lia)). lia.
Qed.

Lemma sum_seq_above (e : nat → nat) (k r i : nat) :
  (∀ n, (n < k)%nat → (r ≤ e n)%nat) → (i < k)%nat → (r < e i)%nat →
  (k * r < sum_list_with e (seq 0 k))%nat.
Proof.
  induction k as [|k IH]; intros Hlow Hi Hgt; [lia|].
  rewrite sum_seq_S. destruct (decide (i = k)) as [->|Hne].
  - pose proof (sum_seq_lower e k r ltac:(intros; apply Hlow; lia)). lia.
  - specialize (Hlow k ltac:(lia)) as Hk.
    specialize (IH ltac:(intros; apply Hlow; lia) ltac:(lia) Hgt). lia.
Qed.

Lemma sum_seq_full (e : nat → nat) (k m : nat) :
  (∀ n, (n < k)%nat → (e n ≤ m)%nat) →
  sum_list_with e (seq 0 k) = (k * m)%nat →
  ∀ n, (n < k)%nat → e n = m.
Proof.
  induction k as [|k IH]; intros Hup Hsum n Hn; [lia|].
  rewrite sum_seq_S in Hsum.
  assert (sum_list_with e (seq 0 k) ≤ k * m)%nat as Hle.
  { clear -Hup. induction k as [|k IH]; [simpl; lia|].
    rewrite sum_seq_S. specialize (Hup k ltac:(lia)) as Hk.
    specialize (IH ltac:(intros; apply Hup; lia)). lia. }
  specialize (Hup k ltac:(lia)) as Hk.
  destruct (decide (n = k)) as [->|Hne]; [lia|].
  apply IH; [intros; apply Hup; lia|lia|lia].
Qed.

Section rounds.
Context {R : Type}.
Variables (k : nat) (ev ev' : Event).
Hypothesis Hk : (1 < k)%nat.
Hypothesis Hev : ev ≠ ev'.

Lemma rounds_inv_ext (r : nat) (e p e' p' : nat → nat) (sv : Server R) :
  (∀ n, e' n = e n) → (∀ n, p' n = p n) →
  rounds_inv k ev ev' r e p sv → rounds_inv k ev ev' r e' p' sv.
Proof.
  intros He Hp [H1 H2 H3 H4 H5 H6 H7 H8 H9 H10].
  split; try done.
  - intros i w Hw Hi. rewrite He, Hp. by apply H5.
  - rewrite (sum_seq_ext e e') by (intros; apply He). done.
Qed.

(** The invariant after an action of process [i]. *)
Lemma rounds_inv_intro (r r' : nat) (e p e' p' : nat → nat)
    (sv : Server R) (s' : Shared) (i : nat) (w w' : Worker R) :
  rounds_inv k ev ev' r e p sv →
  procs sv !! i = Some w → (i < k)%nat →
  wstep (shared sv) w = Some (s', w') →
  continueRunning s' = true →
  (∀ n, n ≠ i → e' n = e n ∧ p' n = p n) →
  in_round ev ev' r' (e' i) (p' i) w' →
  (∀ n wn, n ≠ i → (n < k)%nat → procs sv !! n = Some wn →
           in_round ev ev' r (e n) (p n) wn →
           in_round ev ev' r' (e n) (p n) wn) →
  0 ≤ syncCounter s' < Z.of_nat k →
  Z.of_nat (sum_list_with e' (seq 0 k))
    = Z.of_nat k * Z.of_nat r' + syncCounter s' →
  ((1 ≤ r')%nat → is_set (round_event ev ev' r') s' = true) →
  (0 < syncCounter s' → is_set (round_event ev ev' (r' + 1)) s' = false) →
  rounds_inv k ev ev' r' e' p'
    (set_server sv s' (<[i := w']> (procs sv)) (disp sv) (resolved sv)).
Proof.
  intros [H1 H2 H3 H4 H5 H6 H7 H8 H9 H10] Hw Hi Hstep Hrun Hext Hin Hothers
         Hc Hsum Hdone Hopen.
  split; simpl; try done.
  - intros n wn Hn. simpl in Hn. destruct (decide (n = i)) as [->|Hne].
    + rewrite list_lookup_insert_eq in Hn by (by eapply lookup_lt_Some).
      simplify_eq. rewrite (wstep_index _ _ _ _ Hstep). by apply H2.
    + rewrite list_lookup_insert_ne in Hn by done. by apply H2.
  - apply Forall_insert; [done|].
    eapply wstep_on_job; [done|]. by eapply Forall_lookup_1.
  - by rewrite length_insert.
  - intros n wn Hn Hnk. destruct (decide (n = i)) as [->|Hne].
    + rewrite list_lookup_insert_eq in Hn by (by eapply lookup_lt_Some).
      by simplify_eq.
    + rewrite list_lookup_insert_ne in Hn by done.
      destruct (Hext n Hne) as [-> ->]. apply (Hothers n wn); try done.
      by apply H5.
  - intros n wn Hn Hnk. rewrite list_lookup_insert_ne in Hn by lia.
    by apply (H6 n wn).
Qed.

(** A process of the job that is not inside [sync()] has left it as often
    as it entered it, and as often as rounds are complete. *)
Lemma in_round_outside (r e p : nat) (w : Worker R) :
  in_round ev ev' r e p w → at_leave w = false →
  (∀ κ, st w ≠ WSyncWait κ) → e = p ∧ p = r.
Proof.
  intros (Hre & Hpr & _ & _ & Hst) Hl Hw. unfold at_leave in Hl.
  destruct (st w) as [|c|κ|κ|] eqn:Hs; try done; try lia.
  by destruct (Hw κ).
Qed.

(** An action outside [sync()] leaves the rounds as they are. *)
Lemma rounds_inv_quiet (r : nat) (e p : nat → nat) (sv : Server R)
    (s' : Shared) (i : nat) (w w' : Worker R) :
  rounds_inv k ev ev' r e p sv →
  procs sv !! i = Some w → (i < k)%nat →
  wstep (shared sv) w = Some (s', w') →
  at_flag w = false → at_barrier w = false → at_leave w = false →
  (∀ κ, st w ≠ WSyncWait κ) →
  rounds_inv k ev ev' r e p
    (set_server sv s' (<[i := w']> (procs sv)) (disp sv) (resolved sv)).
Proof.
  intros Hinv Hw Hi Hws Hflag Hbar Hleave Hwait.
  pose proof Hinv as [H1 H2 H3 H4 H5 H6 H7 H8 H9 H10].
  pose proof (H5 i w Hw Hi) as Hround.
  destruct (in_round_outside _ _ _ _ Hround Hleave Hwait) as [Hep Hpr].
  destruct Hround as (Hre & _ & Hev1 & Hev2 & _).
  assert (continueRunning s' = true ∧ syncCounter s' = syncCounter (shared sv) ∧
          (∀ x, is_set x s' = is_set x (shared sv)) ∧
          syncEvent (proc w') = syncEvent (proc w) ∧
          syncEvent2 (proc w') = syncEvent2 (proc w) ∧
          at_leave w' = false ∧ (∀ κ, st w' ≠ WSyncWait κ))
    as (Hrun' & Hc' & Hset' & He1 & He2 & Hl' & Hw').
  { unfold at_flag, at_barrier, at_leave in *.
    pose proof Hws as Hws'. wstep_inv Hws'; try done;
      repeat match goal with
      | H : st w = _ |- _ => rewrite H in *
      | H : syncEvent _ = _ |- _ => rewrite H in *
      end; try done.
    all: exfalso; by eapply Hwait. }
  eapply rounds_inv_intro; try done.
  - split; [lia|]. split; [lia|]. split; [congruence|].
    split; [congruence|]. unfold at_leave in Hl'.
    destruct (st w') as [|c|κ|κ|] eqn:Hs; try done. by destruct (Hw' κ).
  - lia.
  - by rewrite Hc'.
  - intros Hr. rewrite Hset'. by apply H9.
  - intros Hc. rewrite Hset'. apply H10. lia.
Qed.

(** A process enters [sync()]: it is counted in the round that is open, and
    completes it when it is the last. *)
Lemma rounds_inv_enter (r : nat) (e p e' : nat → nat) (sv : Server R)
    (s' : Shared) (i : nat) (w w' : Worker R) (κ : prog R) :
  rounds_inv k ev ev' r e p sv →
  procs sv !! i = Some w → (i < k)%nat →
  wstep (shared sv) w = Some (s', w') →
  st w = WRun (Barrier κ) →
  e' i = S (e i) → (∀ n, n ≠ i → e' n = e n) →
  ∃ r', rounds_inv k ev ev' r' e' p
          (set_server sv s' (<[i := w']> (procs sv)) (disp sv) (resolved sv)).
Proof.
  intros Hinv Hw Hi Hws Hst Hup Hext.
  pose proof Hinv as [H1 H2 H3 H4 H5 H6 H7 H8 H9 H10].
  pose proof (H5 i w Hw Hi) as (Hre & Hpr & Hev1 & Hev2 & Hep).
  rewrite Hst in Hep.
  assert (e i = r ∧ p i = r) as [Her Hpr'] by lia.
  destruct (Forall_lookup_1 _ _ _ _ H3 Hw) as [[Hidle|Htot] _];
    [congruence|].
  assert (Z.of_nat (sum_list_with e' (seq 0 k))
          = Z.of_nat k * Z.of_nat r + (syncCounter (shared sv) + 1)) as Hsum.
  { rewrite (sum_seq_update e e' k i) by done. lia. }
  pose proof (round_event_next ev ev' r Hev) as Hnext.
  replace (S r) with (r + 1)%nat in Hnext by lia.
  rewrite Hpr' in Hev1.
  pose proof Hws as Hws'. unfold wstep in Hws'.
  rewrite Hst, Hev1, Htot in Hws'.
  assert (in_round ev ev' r (e' i) (p i)
            (set_st w (proc w) (WSyncWait κ))) as Hwait.
  { rewrite Hup, Her, Hpr'. unfold in_round. simpl.
    split; [lia|]. split; [lia|]. rewrite Hpr' in Hev2. split; [done|].
    split; [done|lia]. }
  destruct (decide (syncCounter (shared sv) = 0)) as [Hc0|Hc0].
  - rewrite sync_locked_first in Hws' by lia. injection Hws' as <- <-.
    exists r. apply (rounds_inv_intro r r e p e' p sv _ i w _ Hinv Hw Hi Hws).
    + simpl. by rewrite continueRunning_set_event.
    + intros n Hn. by rewrite Hext.
    + exact Hwait.
    + by intros.
    + simpl. lia.
    + simpl. rewrite Hsum, Hc0. lia.
    + intros Hr. rewrite is_set_set_counter, is_set_set_event.
      destruct (decide _) as [Heq|_]; [by destruct Hnext|]. by apply H9.
    + intros _. rewrite is_set_set_counter, is_set_set_event.
      by rewrite decide_True.
  - destruct (decide (syncCounter (shared sv) + 1 < Z.of_nat k)) as [Hlt|Hge].
    + rewrite sync_locked_middle in Hws' by lia. injection Hws' as <- <-.
      exists r. apply (rounds_inv_intro r r e p e' p sv _ i w _ Hinv Hw Hi Hws).
      * done.
      * intros n Hn. by rewrite Hext.
      * exact Hwait.
      * by intros.
      * simpl. lia.
      * simpl. rewrite Hsum. lia.
      * intros Hr. rewrite is_set_set_counter. by apply H9.
      * intros _. rewrite is_set_set_counter. apply H10. lia.
    + rewrite sync_locked_last in Hws' by lia. injection Hws' as <- <-.
      assert (∀ n, (n < k)%nat → e' n = (r + 1)%nat) as Hfull.
      { apply sum_seq_full.
        - intros n Hn. destruct (decide (n = i)) as [->|Hne]; [lia|].
          rewrite Hext by done.
          destruct (lookup_lt_is_Some_2 (procs sv) n ltac:(lia)) as [wn Hwn].
          destruct (H5 n wn Hwn Hn) as (? & _). lia.
        - apply Nat2Z.inj. rewrite Hsum. lia. }
      exists (S r).
      apply (rounds_inv_intro r (S r) e p e' p sv _ i w _ Hinv Hw Hi Hws).
      * simpl. by rewrite continueRunning_set_event.
      * intros n Hn. by rewrite Hext.
      * rewrite Hup, Her, Hpr'. unfold in_round. simpl.
        split; [lia|]. split; [lia|]. rewrite Hpr' in Hev2. split; [done|].
        split; [done|lia].
      * intros n wn Hne Hn Hwn (Hre' & Hpr'' & He1 & He2 & Hm).
        specialize (Hfull n Hn). rewrite Hext in Hfull by done.
        split; [lia|]. split; [lia|]. split; [done|]. split; [done|].
        destruct (st wn); lia.
      * simpl. lia.
      * simpl. rewrite Hsum. lia.
      * intros _. simpl. rewrite is_set_set_counter, is_set_set_event.
        replace (S r) with (r + 1)%nat by lia. by rewrite decide_True.
      * simpl. lia.
Qed.

(** A process leaves the wait loop only when its round is complete. *)
Lemma rounds_inv_waited (r : nat) (e p : nat → nat) (sv : Server R)
    (s' : Shared) (i : nat) (w w' : Worker R) (κ : prog R) :
  rounds_inv k ev ev' r e p sv →
  procs sv !! i = Some w → (i < k)%nat →
  wstep (shared sv) w = Some (s', w') →
  st w = WSyncWait κ →
  rounds_inv k ev ev' r e p
    (set_server sv s' (<[i := w']> (procs sv)) (disp sv) (resolved sv)).
Proof.
  intros Hinv Hw Hi Hws Hst.
  pose proof Hinv as [H1 H2 H3 H4 H5 H6 H7 H8 H9 H10].
  pose proof (H5 i w Hw Hi) as (Hre & Hpr & Hev1 & Hev2 & Hep).
  rewrite Hst in Hep.
  pose proof Hws as Hws'. unfold wstep in Hws'.
  rewrite Hst, Hev1, H1 in Hws'. simpl in Hws'.
  destruct (sync_wait _ _) eqn:Hwait; [done|]. injection Hws' as <- <-.
  unfold sync_wait in Hwait.
  rewrite (bool_decide_eq_true_2 (0 ≤ _)) in Hwait by lia.
  rewrite andb_true_r in Hwait. apply negb_false_iff in Hwait.
  assert (e i = r) as Her.
  { destruct (decide (e i = r)) as [|Hne]; [done|]. exfalso.
    assert (e i = r + 1)%nat as Her by lia.
    assert (k * r < sum_list_with e (seq 0 k))%nat as Hlt.
    { apply (sum_seq_above e k r i); [|done|lia].
      intros n Hn.
      destruct (lookup_lt_is_Some_2 (procs sv) n ltac:(lia)) as [wn Hwn].
      destruct (H5 n wn Hwn Hn) as (? & _). lia. }
    replace (p i + 1)%nat with (r + 1)%nat in Hwait by lia.
    rewrite H10 in Hwait; [done|lia]. }
  by apply (rounds_inv_intro r r e p e p sv _ i w _ Hinv Hw Hi Hws).
Qed.

(** A process that leaves [sync()] swaps its events and goes on with its
    routine. *)
Lemma rounds_inv_leave (r : nat) (e p p' : nat → nat) (sv : Server R)
    (s' : Shared) (i : nat) (w w' : Worker R) (κ : prog R) :
  rounds_inv k ev ev' r e p sv →
  procs sv !! i = Some w → (i < k)%nat →
  wstep (shared sv) w = Some (s', w') →
  st w = WSyncLeave κ →
  p' i = S (p i) → (∀ n, n ≠ i → p' n = p n) →
  rounds_inv k ev ev' r e p'
    (set_server sv s' (<[i := w']> (procs sv)) (disp sv) (resolved sv)).
Proof.
  intros Hinv Hw Hi Hws Hst Hup Hext.
  pose proof Hinv as [H1 H2 H3 H4 H5 H6 H7 H8 H9 H10].
  pose proof (H5 i w Hw Hi) as (Hre & Hpr & Hev1 & Hev2 & Hep).
  rewrite Hst in Hep. destruct Hep as [Hep Her].
  pose proof Hws as Hws'. unfold wstep in Hws'. rewrite Hst in Hws'.
  injection Hws' as <- <-.
  apply (rounds_inv_intro r r e p e p' sv _ i w _ Hinv Hw Hi Hws);
    try done.
  - intros n Hn. by rewrite Hext.
  - rewrite Hup. unfold in_round. simpl. split; [lia|]. split; [lia|].
    split; [|split; [|lia]].
    + rewrite Hev2, <- (round_event_period ev ev' (p i)).
      do 2 f_equal. lia.
    + rewrite Hev1. f_equal. f_equal. lia.
Qed.

(** Every action but the writing of the failure flag keeps the invariant,
    with the counts of the process that acts moved on. *)
Lemma rounds_inv_step (r : nat) (e p e' p' : nat → nat) (sv sv' : Server R)
    (i : nat) (w : Worker R) :
  rounds_inv k ev ev' r e p sv →
  procs sv !! i = Some w →
  system_step (Work i) sv = Some sv' →
  at_flag w = false →
  (∀ n, e' n = (e n + if at_barrier w
                           && bool_decide (index (proc w) = Z.of_nat n)
                      then 1 else 0)%nat) →
  (∀ n, p' n = (p n + if at_leave w
                           && bool_decide (index (proc w) = Z.of_nat n)
                      then 1 else 0)%nat) →
  ∃ r', rounds_inv k ev ev' r' e' p' sv'.
Proof.
  intros Hinv Hw Hstep Hflag He' Hp'.
  destruct (work_step_inv _ _ _ Hstep) as (w0 & s' & w' & Hw0 & Hws & ->).
  rewrite Hw in Hw0. injection Hw0 as <-.
  pose proof Hinv as [H1 H2 H3 H4 H5 H6 H7 H8 H9 H10].
  assert (i < k)%nat as Hi.
  { destruct (decide (i < k)%nat) as [|Hge]; [done|].
    destruct (H6 i w Hw ltac:(lia)) as [Hst Hin]. unfold wstep in Hws.
    rewrite Hst, Hin in Hws. by destruct (continueRunning _). }
  pose proof (H2 i w Hw) as Hidx. rewrite Hidx in He', Hp'.
  assert (∀ n, n ≠ i → e' n = e n ∧ p' n = p n) as Hext.
  { intros n Hn. rewrite He', Hp'.
    rewrite (bool_decide_eq_false_2 (Z.of_nat i = Z.of_nat n)) by lia.
    rewrite !andb_false_r. lia. }
  assert (e' i = (e i + if at_barrier w then 1 else 0)%nat ∧
          p' i = (p i + if at_leave w then 1 else 0)%nat) as [Hei Hpi].
  { rewrite He', Hp'. rewrite bool_decide_eq_true_2 by done.
    by rewrite !andb_true_r. }
  pose proof (H5 i w Hw Hi) as (_ & _ & Hev1 & _).
  unfold at_flag, at_barrier, at_leave in *. rewrite Hev1 in Hei.
  destruct (st w) as [|c|κ|κ|] eqn:Hst; try done.
  - exists r. apply (rounds_inv_ext r e p).
    + intros n. destruct (decide (n = i)) as [->|Hn]; [lia|by apply Hext].
    + intros n. destruct (decide (n = i)) as [->|Hn]; [lia|by apply Hext].
    + apply (rounds_inv_quiet r e p sv s' i w w' Hinv Hw Hi Hws);
        unfold at_flag, at_barrier, at_leave; rewrite Hst; try done.
  - assert ((∃ κ, c = Barrier κ) ∨ ¬ ∃ κ, c = Barrier κ) as [[κ ->]|Hnb]
      by (destruct c; eauto; right; by intros [? ?]).
    + destruct (rounds_inv_enter r e p e' sv s' i w w' κ Hinv Hw Hi Hws Hst)
        as [r' Hinv']; [lia|intros n Hn; by apply Hext|].
      exists r'. apply (rounds_inv_ext r' e' p); try done.
      intros n. destruct (decide (n = i)) as [->|Hn]; [lia|by apply Hext].
    + exists r. apply (rounds_inv_ext r e p).
      * intros n. destruct (decide (n = i)) as [->|Hn]; [|by apply Hext].
        rewrite Hei. destruct c; try lia. destruct Hnb. by eexists.
      * intros n. destruct (decide (n = i)) as [->|Hn]; [lia|by apply Hext].
      * apply (rounds_inv_quiet r e p sv s' i w w' Hinv Hw Hi Hws);
          unfold at_flag, at_barrier, at_leave; rewrite Hst; try done.
        destruct c; try done. destruct Hnb. by eexists.
  - exists r. apply (rounds_inv_ext r e p).
    + intros n. destruct (decide (n = i)) as [->|Hn]; [lia|by apply Hext].
    + intros n. destruct (decide (n = i)) as [->|Hn]; [lia|by apply Hext].
    + by apply (rounds_inv_waited r e p sv s' i w w' κ).
  - exists r. apply (rounds_inv_ext r e p').
    + intros n. destruct (decide (n = i)) as [->|Hn]; [lia|by apply Hext].
    + done.
    + apply (rounds_inv_leave r e p p' sv s' i w w' κ); try done; [lia|].
      intros n Hn. by apply Hext.
Qed.

Lemma rounds_inv_sched (sched : list (action R)) :
  ∀ (sv sv' : Server R) (r : nat) (e p : nat → nat),
  rounds_inv k ev ev' r e p sv →
  forallb is_work sched = true →
  run_schedule sched sv = Some sv' →
  failures sched sv = 0%nat →
  ∃ r', rounds_inv k ev ev' r'
          (λ n, e n + entered n sched sv)%nat
          (λ n, p n + passed n sched sv)%nat sv'.
Proof.
  induction sched as [|a sched IH]; intros sv sv' r e p Hinv Hwork Hrun Hfail.
  - simplify_eq/=. exists r. apply (rounds_inv_ext r e p); [..|done];
      intros n; unfold entered, passed; simpl; lia.
  - simpl in Hwork. apply andb_true_iff in Hwork as [Ha Hwork].
    rewrite run_schedule_cons in Hrun.
    destruct (system_step a sv) as [sv1|] eqn:Hstep; [|done]. simpl in Hrun.
    destruct a as [|i| |]; try done.
    unfold failures in Hfail.
    rewrite (count_steps_cons _ _ _ _ _ Hstep) in Hfail.
    destruct (work_step_inv _ _ _ Hstep) as (w & s' & w' & Hw & Hws & Hsv1).
    simpl in Hfail. rewrite Hw in Hfail. simpl in Hfail.
    destruct (at_flag w) eqn:Hflag; [done|]. simpl in Hfail.
    destruct (rounds_inv_step r e p _ _ sv sv1 i w Hinv Hw Hstep Hflag
                ltac:(done) ltac:(done)) as [r1 Hinv1].
    destruct (IH sv1 sv' r1 _ _ Hinv1 Hwork Hrun Hfail) as [r' Hinv'].
    exists r'. eapply rounds_inv_ext; [..|exact Hinv'].
    + intros n. unfold entered.
      rewrite (count_steps_cons _ _ _ _ _ Hstep). simpl. rewrite Hw. simpl.
      lia.
    + intros n. unfold passed.
      rewrite (count_steps_cons _ _ _ _ _ Hstep). simpl. rewrite Hw. simpl.
      lia.
Qed.
End rounds.

(** The send loop leaves the processes it does not address as they are. *)
Lemma send_jobs_untouched {R} (j : Job R) (k : Z) (indices : list Z)
    (ps : list (Worker R)) (n : nat) :
  (∀ i, i ∈ indices → Z.to_nat i ≠ n) →
  (send_jobs j k indices ps).1 !! n = ps !! n.
Proof.
  revert ps. induction indices as [|i indices IH]; intros ps Hn; [done|].
  simpl. destruct (prepareArgs _ _ _ _) as [pargs|e]; [|done].
  destruct (ps !! Z.to_nat i) as [w|] eqn:Hw; [|done].
  rewrite IH by (intros i' Hi'; apply Hn; by right).
  apply list_lookup_insert_ne. apply Hn. by left.
Qed.

(** A job sent to a pool in step starts with no round complete. *)
Lemma submit_rounds_inv {R} (j : Job R) (sv : Server R) (k : nat)
    (ev ev' : Event) :
  in_step ev ev' sv → (1 < k)%nat →
  resolve_numprocs (realnumprocs sv) (valrange j) (numprocs j) = Z.of_nat k →
  (k ≤ length (procs sv))%nat →
  rounds_inv k ev ev' 0 (λ _, 0%nat) (λ _, 0%nat) (submit j sv).
Proof.
  intros (Hidle & Hwf & Hrun & Hall) Hk Hres Hsize.
  assert (procs sv ≠ []) as Hne by (destruct (procs sv); [simpl in *; lia|done]).
  assert (resolve_numprocs (realnumprocs sv) (valrange j) (numprocs j) ≠ 1)
    as Hk1 by lia.
  destruct (submit_multi j sv Hk1 Hne) as [Hs Hp]. rewrite Hres in Hp.
  pose proof (send_jobs_frame j (Z.of_nat k) (seqZ 0 (Z.of_nat k)) (procs sv))
    as Hfr.
  rewrite <- Hp in Hfr.
  pose proof (Forall2_length _ _ _ Hfr) as Hlen.
  split.
  - by rewrite Hs.
  - intros n w' Hw'.
    destruct (Forall2_lookup_r _ _ _ _ _ Hfr Hw') as (w & Hw & Hproc & _).
    rewrite Hproc. by apply Hwf.
  - rewrite <- Hres. apply submit_job_inv; [|done|done].
    eapply Forall_impl; [exact Hall|]. by intros w (? & ? & _).
  - lia.
  - intros n w' Hw' Hn.
    destruct (Forall2_lookup_r _ _ _ _ _ Hfr Hw')
      as (w & Hw & Hproc & Hst & _).
    destruct (Forall_lookup_1 _ _ _ _ Hall Hw) as (Hst0 & _ & He1 & He2).
    unfold in_round. rewrite Hproc, Hst, Hst0. simpl.
    split; [lia|]. split; [lia|]. by split.
  - intros n w' Hw' Hn. rewrite Hp in Hw'.
    rewrite send_jobs_untouched in Hw'.
    + by destruct (Forall_lookup_1 _ _ _ _ Hall Hw') as (? & ? & _).
    + intros i Hi. apply elem_of_seqZ in Hi. lia.
  - rewrite Hs. simpl. lia.
  - rewrite Hs. simpl.
    assert (sum_list_with (λ _ : nat, 0%nat) (seq 0 k) = 0%nat) as ->
      by (induction (seq 0 k); simpl; lia).
    lia.
  - lia.
  - rewrite Hs. simpl. lia.
Qed.

(** X13.  [sync()] is a barrier.  In a job over [k > 1] processes on a pool
    in step (every process idle and holding the same current event, the two
    events being distinct), as long as no process has written the failure
    flag, and whatever the processes do in their routines: no process leaves
    its [n]-th call of [sync()] before every process of the job has entered
    its [n]-th call; the numbers of calls two processes have entered differ by
    at most one; and a process has left [sync()] as often as it entered it,
    or once less while it is inside. *)
Theorem sync_is_barrier {R} (sv : Server R) (j : Job R) (k : Z)
    (ev ev' : Event) (sched : list (action R)) (sv' : Server R) :
  in_step ev ev' sv → ev ≠ ev' → 1 < k →
  resolve_numprocs (realnumprocs sv) (valrange j) (numprocs j) = k →
  k ≤ Z.of_nat (length (procs sv)) →
  forallb is_work sched = true →
  run_schedule (Submit j :: sched) sv = Some sv' →
  failures sched (submit j sv) = 0%nat →
  ∀ i i' : nat, Z.of_nat i < k → Z.of_nat i' < k →
    (passed i sched (submit j sv) ≤ entered i' sched (submit j sv))%nat ∧
    (entered i sched (submit j sv)
     ≤ entered i' sched (submit j sv) + 1)%nat ∧
    (passed i sched (submit j sv) ≤ entered i sched (submit j sv)
     ≤ passed i sched (submit j sv) + 1)%nat.
Proof.
  intros Hstep Hev Hk Hres Hsize Hwork Hrun Hfail i i' Hi Hi'.
  pose proof Hstep as (Hidle & _).
  rewrite run_schedule_cons in Hrun. unfold system_step in Hrun.
  rewrite Hidle in Hrun. simpl in Hrun.
  pose proof (submit_rounds_inv j sv (Z.to_nat k) ev ev' Hstep
                ltac:(lia) ltac:(lia) ltac:(lia)) as Hinv0.
  destruct (rounds_inv_sched (Z.to_nat k) ev ev' ltac:(lia) Hev sched _ _ _ _ _
              Hinv0 Hwork Hrun Hfail) as [r Hinv].
  pose proof (rounds_size _ _ _ _ _ _ _ Hinv) as Hsz.
  destruct (lookup_lt_is_Some_2 (procs sv') i ltac:(lia)) as [w Hw].
  destruct (lookup_lt_is_Some_2 (procs sv') i' ltac:(lia)) as [w' Hw'].
  pose proof (rounds_part _ _ _ _ _ _ _ Hinv i w Hw ltac:(lia))
    as (Hre & Hpr & _ & _ & Hst).
  pose proof (rounds_part _ _ _ _ _ _ _ Hinv i' w' Hw' ltac:(lia))
    as (Hre' & Hpr' & _ & _ & Hst').
  simpl in *.
  split; [lia|]. split; [lia|]. destruct (st w); lia.
Qed.

(** A pool as [run()] creates it is in step on the first event. *)
Lemma start_server_in_step {R} (n : Z) :
  in_step (R := R) Event1 Event2 (start_server n).
Proof.
  unfold in_step, start_server. simpl. split; [done|]. split; [|split; [done|]].
  - intros i w Hw. simpl in Hw. case_bool_decide; [|done].
    rewrite list_lookup_fmap in Hw.
    destruct (seqZ 0 n !! i) as [z|] eqn:Hz; [|done].
    apply lookup_seqZ in Hz as [-> _]. by simplify_eq/=.
  - case_bool_decide; [|constructor].
    apply Forall_fmap, Forall_forall. intros z _. by repeat split.
Qed.

Lemma sync_is_barrier_witness :
  let sched := [Work 0; Work 0; Work 1; Work 1; Work 1; Work 0]%nat in
  let sv0 := submit (plain_job sync_once 2) (start_server 2) in
  (passed 1 sched sv0 ≤ entered 0 sched sv0)%nat ∧
  (entered 1 sched sv0 ≤ entered 0 sched sv0 + 1)%nat ∧
  (passed 1 sched sv0 ≤ entered 1 sched sv0 ≤ passed 1 sched sv0 + 1)%nat.
Proof.
  intros sched sv0.
  eapply (sync_is_barrier (start_server 2) (plain_job sync_once 2) 2
            Event1 Event2 sched).
  - apply start_server_in_step.
  - done.
  - lia.
  - reflexivity.
  - simpl. lia.
  - reflexivity.
  - vm_compute. reflexivity.
  - reflexivity.
  - lia.
  - lia.
Defined.

(** X14.  Calls that the thread of [runProxy] does not serve, because it
    was stopped or is late every time: on a proxy with nothing to read, each
    call raises the [IOError] that names its method, the hosted object stays
    as it is, and the messages of the calls pile up in the pipe in the order
    of the calls. *)
Theorem proxy_unserved {S A} (attrs : gmap string (attr S A))
    (cs : list (nat * call_msg)) (l : ProxyLink S A) :
  recv_s l = [] → Forall (λ c, c.1 = 0%nat) cs →
  proxy_calls attrs cs l
  = ({| hosted := hosted l; send_r := send_r l ++ cs.*2; recv_s := [] |},
     (λ c, no_result (msg_name c.2)) <$> cs).
Proof.
  revert l. induction cs as [|[n m] cs IH]; intros l Hr Hcs.
  - simpl. rewrite app_nil_r. destruct l. simpl in Hr. by rewrite Hr.
  - apply Forall_cons in Hcs as [Hn Hcs]. simpl in Hn. subst n.
    cbn [proxy_calls]. unfold proxy_call. cbn [Nat.iter recv_s hosted send_r].
    rewrite Hr. cbn [head fmap option_fmap option_map].
    assert (CallMsg (msg_name m) (msg_args m) (msg_kwargs m) = m) as ->
      by (by destruct m).
    rewrite IH by done. simpl. by rewrite <- app_assoc.
Qed.

Lemma proxy_unserved_witness :
  proxy_calls (A := Z) (∅ : gmap string (attr Z Z))
    [(0, CallMsg "get" [] ∅); (0, CallMsg "put" [PyInt 1] ∅)]%nat
    {| hosted := 7; send_r := []; recv_s := [] |}
  = ({| hosted := 7;
        send_r := [CallMsg "get" [] ∅; CallMsg "put" [PyInt 1] ∅];
        recv_s := [] |},
     [no_result "get"; no_result "put"]).
Proof.
  rewrite (proxy_unserved ∅); [reflexivity|done|].
  by repeat constructor.
Defined.
